(** * ask-gemini-docs: the ingestion and retrieval pipeline

    A shallow embedding of the two edge functions
    ([supabase/functions/process-document/index.ts] and the
    chat-with-documents function) and of the SQL function
    [match_documents], followed by the properties of the chunker, the
    retry policy, provider failover, retrieval and the two request
    handlers.

    Conventions.
    - A JavaScript string is the list of its UTF-16 code units.
    - JavaScript numbers that hold lengths, sizes and counts are [Z];
      numbers that hold delays, random draws and similarities are exact
      rationals [Q] (rounding of doubles is not part of the model). The
      page of a chunk is the exception: it is the ceiling of a quotient
      and a product of doubles, which rounding can move past an integer,
      so it is computed in IEEE 754 binary64.
    - Everything outside the repository (HTTP endpoints, the database
      client, the PDF library, [Math.random], the environment) is a field
      of the [World] the handlers run in. *)

From Stdlib Require Import ZArith QArith Qpower Lqa.
From Stdlib Require SpecFloat.
From stdpp Require Import base tactics option list sorting strings pretty.

Local Open Scope Z_scope.

(* ===================================================================== *)
(** * 1. JavaScript strings *)
(* ===================================================================== *)

Definition code_unit := N.
Definition text := list code_unit.

(** An ASCII literal as a [text]. *)
Definition str (s : string) : text :=
  map Ascii.N_of_ascii (String.list_ascii_of_string s).

(** [s.length] *)
Definition len (s : text) : Z := Z.of_nat (length s).

Definition SPACE : code_unit := 32%N.
Definition NEWLINE : code_unit := 10%N.

(** The class [\s] of a JavaScript regular expression, which is also the
    set [String.prototype.trim] strips: WhiteSpace and LineTerminator. *)
Definition is_ws (c : code_unit) : bool :=
  ((9 <=? c) && (c <=? 13) || (c =? 32) || (c =? 160) || (c =? 5760)
   || (8192 <=? c) && (c <=? 8202) || (c =? 8232) || (c =? 8233)
   || (c =? 8239) || (c =? 8287) || (c =? 12288) || (c =? 65279))%N.

(** The class [[.!?]]. *)
Definition is_terminal (c : code_unit) : bool :=
  ((c =? 46) || (c =? 33) || (c =? 63))%N.

Fixpoint trimStart (s : text) : text :=
  match s with
  | [] => []
  | c :: s' => if is_ws c then trimStart s' else s
  end.

Definition trimEnd (s : text) : text := reverse (trimStart (reverse s)).

(** [s.trim()] *)
Definition trim (s : text) : text := trimEnd (trimStart s).

(** [s.slice(start)]: a negative [start] counts from the end. *)
Definition slice (s : text) (start : Z) : text :=
  let from := if start <? 0 then Z.max (len s + start) 0
              else Z.min start (len s) in
  drop (Z.to_nat from) s.

(** [s.replace(/\s+/g, ' ')]: [in_run] tells that the previous code unit
    was white space, already replaced. *)
Fixpoint collapse_ws_from (in_run : bool) (s : text) : text :=
  match s with
  | [] => []
  | c :: s' =>
      if is_ws c then
        if in_run then collapse_ws_from true s'
        else SPACE :: collapse_ws_from true s'
      else c :: collapse_ws_from false s'
  end.

Definition collapse_ws : text -> text := collapse_ws_from false.

(** [s.replace(/\n\s*\n/g, '\n')]. A match starts at a newline and, [\s*]
    being greedy, ends at the last newline of the white-space run that
    follows it. [pending] is [Some buf] inside such a run, [buf] holding the
    white space read since the last newline. *)
Fixpoint remove_empty_lines_from (pending : option text) (s : text) : text :=
  match s with
  | [] => default [] pending
  | c :: s' =>
      match pending with
      | None =>
          if (c =? NEWLINE)%N then NEWLINE :: remove_empty_lines_from (Some []) s'
          else c :: remove_empty_lines_from None s'
      | Some buf =>
          if (c =? NEWLINE)%N then remove_empty_lines_from (Some []) s'
          else if is_ws c then remove_empty_lines_from (Some (buf ++ [c])) s'
          else buf ++ c :: remove_empty_lines_from None s'
      end
  end.

Definition remove_empty_lines : text -> text := remove_empty_lines_from None.

(** [s.split(/(?<=[.!?])\s+/)]: a separator is a maximal white-space run
    whose predecessor in [s] is sentence-terminal punctuation. [piece] is the
    piece being read, [prev] the previous code unit of [s], [in_sep] tells
    that a separator is being skipped. *)
Fixpoint split_sentences_from (piece : text) (prev : option code_unit)
    (in_sep : bool) (s : text) : list text :=
  match s with
  | [] => [piece]
  | c :: s' =>
      if is_ws c then
        if in_sep then split_sentences_from piece (Some c) true s'
        else if from_option is_terminal false prev
             then piece :: split_sentences_from [] (Some c) true s'
             else split_sentences_from (piece ++ [c]) (Some c) false s'
      else split_sentences_from (piece ++ [c]) (Some c) false s'
  end.

Definition split_sentences : text -> list text :=
  split_sentences_from [] None false.

(* ===================================================================== *)
(** * 2. The text chunker ([chunkText], process-document/index.ts) *)
(* ===================================================================== *)

Record Chunk := mkChunk {
  content : text;
  startIndex : Z;
  endIndex : Z
}.

(** The variables of the loop over the sentences. *)
Record ChunkLoop := mkChunkLoop {
  chunks : list Chunk;
  currentChunk : text;
  currentStartIndex : Z
}.

Definition cleanText (t : text) : text :=
  trim (remove_empty_lines (collapse_ws t)).

Definition sentences (clean : text) : list text :=
  filter (fun s => 0 < len (trim s)) (split_sentences clean).

(** One iteration of [for (let i = 0; i < sentences.length; i++)]. *)
Definition chunk_step (maxChunkSize overlap : Z) (st : ChunkLoop) (s : text)
    : ChunkLoop :=
  let sentence := trim s in
  let cur := currentChunk st in
  let potentialChunk :=
    cur ++ (if bool_decide (cur = []) then [] else [SPACE]) ++ sentence in
  if bool_decide (len potentialChunk > maxChunkSize /\ len cur > 0) then
    let endIndex := currentStartIndex st + len cur in
    let overlapText := slice cur (- overlap) in
    {| chunks := chunks st ++ [mkChunk (trim cur) (currentStartIndex st) endIndex];
       currentChunk := overlapText ++ [SPACE] ++ sentence;
       currentStartIndex := Z.max 0 (endIndex - overlap) |}
  else
    {| chunks := chunks st;
       currentChunk := potentialChunk;
       currentStartIndex := currentStartIndex st |}.

(** "Add the last chunk". *)
Definition push_last (st : ChunkLoop) : list Chunk :=
  if bool_decide (len (trim (currentChunk st)) > 0) then
    chunks st ++ [mkChunk (trim (currentChunk st)) (currentStartIndex st)
                          (currentStartIndex st + len (currentChunk st))]
  else chunks st.

(** The array [chunks] when the loop and "add the last chunk" are done,
    before the final length filter. *)
Definition accumulated_chunks (clean : text) (maxChunkSize overlap : Z)
    : list Chunk :=
  push_last (fold_left (chunk_step maxChunkSize overlap) (sentences clean)
                       (mkChunkLoop [] [] 0)).

Definition chunkText (t : text) (maxChunkSize overlap : Z) : list Chunk :=
  if bool_decide (len t = 0) then []
  else
    let clean := cleanText t in
    if bool_decide (len clean <= maxChunkSize) then
      [mkChunk clean 0 (len clean)]
    else
      filter (fun chunk => len (content chunk) > 50)
             (accumulated_chunks clean maxChunkSize overlap).

(* ===================================================================== *)
(** * 3. Errors, the outside world and the handler monad *)
(* ===================================================================== *)

(** A thrown [Error] object; only its [message] is ever inspected. *)
Inductive JsError := Error (msg : string).

Definition message (e : JsError) : string := let 'Error m := e in m.

(** [hay.includes(needle)] *)
Fixpoint includes (hay needle : string) : bool :=
  String.prefix needle hay ||
  match hay with
  | EmptyString => false
  | String _ hay' => includes hay' needle
  end.

(** Truthiness of a value read with [Deno.env.get]: [undefined] and the
    empty string are falsy. *)
Definition configured (key : option string) : bool :=
  match key with
  | Some k => negb (String.eqb k EmptyString)
  | None => false
  end.

(** What [response.json()] gives, projected on the path the caller reads
    (for instance [embedding?.values]). *)
Inductive JsonField (A : Type) :=
  | NotJson (e : JsError)     (* [json()] throws *)
  | Absent                    (* valid JSON, the path is [undefined] *)
  | Present (a : A).
Arguments NotJson {A} e.
Arguments Absent {A}.
Arguments Present {A} a.

Record HttpResponse (A : Type) := mkResponse {
  status : Z;
  raw_body : string;          (* [response.text()] *)
  json_field : JsonField A
}.
Arguments mkResponse {A} status raw_body json_field.
Arguments status {A} h.
Arguments raw_body {A} h.
Arguments json_field {A} h.

(** [response.ok] *)
Definition ok {A} (r : HttpResponse A) : bool :=
  (200 <=? status r) && (status r <=? 299).

(** [fetch] either rejects (no connection) or resolves to a response. *)
Inductive FetchOutcome (A : Type) :=
  | FetchRejected (e : JsError)
  | FetchResolved (r : HttpResponse A).
Arguments FetchRejected {A} e.
Arguments FetchResolved {A} r.

(** ** Database rows (columns of the migration that the functions use) *)

Record Document := mkDocument {
  doc_id : string;
  doc_user_id : string;
  doc_name : string;
  file_path : string;
  doc_status : string;
  total_pages : option Z;
  total_chunks : option Z;
  error_message : option string
}.

Record ChunkRow := mkChunkRow {
  chunk_id : string;
  document_id : string;
  chunk_user_id : string;
  chunk_content : text;
  page_number : Z;
  chunk_index : Z;
  embedding : option (list Q);
  token_count : Z
}.

Record Source := mkSource {
  document_title : string;
  source_excerpt : string;    (* [chunk_content] of a source *)
  source_page : Z
}.

Record ChatMessage := mkChatMessage {
  session_id : string;
  role : string;
  msg_content : string;
  msg_sources : list Source
}.

(** A row as the chat function receives it from [match_documents] or from
    the fall-back query. *)
Record RetrievedChunk := mkRetrieved {
  r_content : string;
  r_page_number : Z;
  r_title : option string     (* [chunk.documents?.title] *)
}.

(** The [{data, error}] pair of a supabase-js query. *)
Record QueryResult := mkQueryResult {
  data : option (list RetrievedChunk);
  error : option JsError
}.

(** What a stored file is to the PDF library. *)
Inductive Blob :=
  | Pdf (totalPages : Z) (extracted : text)
  | Unreadable (e : JsError).

(** The database calls whose failure the functions look at. *)
Inductive DbCall :=
  | SelectDocument | DownloadFile | InsertChunk (i : Z) | UpdateDocument
  | InsertChatMessage.

(** ** The outside world: fixed for one invocation *)
Record Externals := mkExternals {
  GOOGLE_GEMINI_API_KEY : option string;
  OPENAI_API_KEY : option string;
  (* the outcome of the n-th request to each endpoint *)
  embedding_endpoint : nat -> FetchOutcome (list Q);
  gemini_endpoint : nat -> FetchOutcome string;
  openai_endpoint : nat -> FetchOutcome string;
  (* the n-th value of [Math.random()] *)
  random : nat -> Q;
  (* the n-th [gen_random_uuid()] *)
  gen_random_uuid : nat -> string;
  storage : string -> option Blob;
  db_fault : DbCall -> option JsError;
  (* [rpc('match_documents', ...)] and the fall-back select, by user id *)
  rpc_match_documents : list Q -> string -> QueryResult;
  select_recent_chunks : string -> QueryResult
}.

(** ** What an invocation changes *)
Record State := mkState {
  embedding_calls : nat;
  gemini_calls : nat;
  openai_calls : nat;
  random_calls : nat;
  timeouts : list Q;          (* delays waited for, oldest first *)
  bodyUsed : bool;            (* of the request being served *)
  documents : list Document;
  document_chunks : list ChunkRow;
  chat_messages : list ChatMessage
}.

Inductive Outcome (A : Type) :=
  | Returned (a : A)
  | Thrown (e : JsError).
Arguments Returned {A} a.
Arguments Thrown {A} e.

(** An [async] computation: it reads the outside world, changes the state
    and returns or throws. *)
Definition M (A : Type) : Type := Externals -> State -> Outcome A * State.

Definition ret {A} (a : A) : M A := fun _ st => (Returned a, st).

Definition throw {A} (e : JsError) : M A := fun _ st => (Thrown e, st).

Definition bind {A B} (c : M A) (k : A -> M B) : M B :=
  fun ext st =>
    match c ext st with
    | (Returned a, st') => k a ext st'
    | (Thrown e, st') => (Thrown e, st')
    end.

(** [try { c } catch (error) { handler error }] *)
Definition try_catch {A} (c : M A) (handler : JsError -> M A) : M A :=
  fun ext st =>
    match c ext st with
    | (Returned a, st') => (Returned a, st')
    | (Thrown e, st') => handler e ext st'
    end.

Definition externals : M Externals := fun ext st => (Returned ext, st).
Definition get : M State := fun _ st => (Returned st, st).

Notation "'let*' x ':=' c 'in' k" := (bind c (fun x => k))
  (at level 10, x pattern, c at level 100, k at level 200).
Notation "c ';;' k" := (bind c (fun _ => k))
  (at level 100, k at level 200, right associativity).

(** ** State updates *)

Definition set_embedding_calls (n : nat) (st : State) : State :=
  mkState n (gemini_calls st) (openai_calls st) (random_calls st) (timeouts st)
          (bodyUsed st) (documents st) (document_chunks st) (chat_messages st).
Definition set_gemini_calls (n : nat) (st : State) : State :=
  mkState (embedding_calls st) n (openai_calls st) (random_calls st) (timeouts st)
          (bodyUsed st) (documents st) (document_chunks st) (chat_messages st).
Definition set_openai_calls (n : nat) (st : State) : State :=
  mkState (embedding_calls st) (gemini_calls st) n (random_calls st) (timeouts st)
          (bodyUsed st) (documents st) (document_chunks st) (chat_messages st).
Definition set_random_calls (n : nat) (st : State) : State :=
  mkState (embedding_calls st) (gemini_calls st) (openai_calls st) n (timeouts st)
          (bodyUsed st) (documents st) (document_chunks st) (chat_messages st).
Definition set_timeouts (l : list Q) (st : State) : State :=
  mkState (embedding_calls st) (gemini_calls st) (openai_calls st)
          (random_calls st) l
          (bodyUsed st) (documents st) (document_chunks st) (chat_messages st).
Definition set_bodyUsed (b : bool) (st : State) : State :=
  mkState (embedding_calls st) (gemini_calls st) (openai_calls st)
          (random_calls st) (timeouts st)
          b (documents st) (document_chunks st) (chat_messages st).
Definition set_documents (l : list Document) (st : State) : State :=
  mkState (embedding_calls st) (gemini_calls st) (openai_calls st)
          (random_calls st) (timeouts st)
          (bodyUsed st) l (document_chunks st) (chat_messages st).
Definition set_document_chunks (l : list ChunkRow) (st : State) : State :=
  mkState (embedding_calls st) (gemini_calls st) (openai_calls st)
          (random_calls st) (timeouts st)
          (bodyUsed st) (documents st) l (chat_messages st).
Definition set_chat_messages (l : list ChatMessage) (st : State) : State :=
  mkState (embedding_calls st) (gemini_calls st) (openai_calls st)
          (random_calls st) (timeouts st)
          (bodyUsed st) (documents st) (document_chunks st) l.

Definition modify (f : State -> State) : M unit :=
  fun _ st => (Returned tt, f st).

(** ** Primitive effects *)

(** [Math.random()] *)
Definition Math_random : M Q :=
  fun ext st =>
    (Returned (random ext (random_calls st)),
     set_random_calls (S (random_calls st)) st).

(** [await new Promise(resolve => setTimeout(resolve, delay))] *)
Definition sleep (delay : Q) : M unit :=
  modify (fun st => set_timeouts (timeouts st ++ [delay]) st).

(** [fetch] of the three endpoints the functions talk to. *)
Definition fetch_embedding : M (HttpResponse (list Q)) :=
  fun ext st =>
    let st' := set_embedding_calls (S (embedding_calls st)) st in
    match embedding_endpoint ext (embedding_calls st) with
    | FetchRejected e => (Thrown e, st')
    | FetchResolved r => (Returned r, st')
    end.

Definition fetch_gemini : M (HttpResponse string) :=
  fun ext st =>
    let st' := set_gemini_calls (S (gemini_calls st)) st in
    match gemini_endpoint ext (gemini_calls st) with
    | FetchRejected e => (Thrown e, st')
    | FetchResolved r => (Returned r, st')
    end.

Definition fetch_openai : M (HttpResponse string) :=
  fun ext st =>
    let st' := set_openai_calls (S (openai_calls st)) st in
    match openai_endpoint ext (openai_calls st) with
    | FetchRejected e => (Thrown e, st')
    | FetchResolved r => (Returned r, st')
    end.

(** [await response.json()] followed by the optional chain to the field. *)
Definition read_json {A} (r : HttpResponse A) : M (option A) :=
  match json_field r with
  | NotJson e => throw e
  | Absent => ret None
  | Present a => ret (Some a)
  end.

(** [await req.json()]: the body of a request can be read once; [body] is
    [None] when it is not JSON. *)
Definition req_json {B} (body : option B) : M B :=
  let* st := get in
  if bodyUsed st then throw (Error "Body already consumed.")
  else
    modify (set_bodyUsed true);;
    match body with
    | Some b => ret b
    | None => throw (Error "Unexpected end of JSON input")
    end.

(* ===================================================================== *)
(** * 4. The retry policy ([retryWithBackoff], chat-with-documents) *)
(* ===================================================================== *)

Definition isRetryable (error : JsError) : bool :=
  includes (message error) "503" ||
  includes (message error) "429" ||
  includes (message error) "500" ||
  includes (message error) "overloaded" ||
  includes (message error) "network".

(** [baseDelay * Math.pow(2, attempt) + Math.random() * 1000], [r] being
    the value of [Math.random()]. *)
Definition backoff_delay (baseDelay : Q) (attempt : nat) (r : Q) : Q :=
  baseDelay * inject_Z (2 ^ Z.of_nat attempt) + r * 1000.

(** The [for] loop of [retryWithBackoff]; [iterations] is the number of
    iterations left, [maxRetries + 1 - attempt], and the first case is the
    [throw lastError!] behind the loop. *)
Fixpoint retry_loop {T} (operation : M T) (maxRetries : nat) (baseDelay : Q)
    (iterations attempt : nat) (lastError : option JsError) : M T :=
  match iterations with
  | O => throw (default (Error "undefined") lastError)
  | S iterations' =>
      try_catch operation (fun error =>
        if (attempt =? maxRetries)%nat then throw error
        else if negb (isRetryable error) then throw error
        else
          let* r := Math_random in
          sleep (backoff_delay baseDelay attempt r);;
          retry_loop operation maxRetries baseDelay iterations' (S attempt)
                     (Some error))
  end.

Definition retryWithBackoff {T} (operation : M T) (maxRetries : nat)
    (baseDelay : Q) : M T :=
  retry_loop operation maxRetries baseDelay (S maxRetries) 0 None.

(* ===================================================================== *)
(** * 5. The generation client with failover *)
(* ===================================================================== *)

(** The operation [callGeminiAPI] retries. *)
Definition gemini_operation : M string :=
  let* response := fetch_gemini in
  if negb (ok response) then
    let errorText := raw_body response in
    if status response =? 503 then
      throw (Error ("GEMINI_OVERLOADED: " +:+ errorText))
    else if status response =? 429 then
      throw (Error ("GEMINI_RATE_LIMITED: " +:+ errorText))
    else
      throw (Error ("Gemini API failed: " +:+ pretty (status response)
                    +:+ " - " +:+ errorText))
  else
    let* aiResponse := read_json response in
    match aiResponse with
    | Some answer =>
        if String.eqb answer EmptyString then
          throw (Error "No response generated from Gemini")
        else ret answer
    | None => throw (Error "No response generated from Gemini")
    end.

Definition callGeminiAPI (prompt apiKey : string) : M string :=
  retryWithBackoff gemini_operation 3 1000.

(** The operation [callOpenAIFallback] retries. *)
Definition openai_operation : M string :=
  let* response := fetch_openai in
  if negb (ok response) then
    let errorText := raw_body response in
    throw (Error ("OpenAI API failed: " +:+ pretty (status response)
                  +:+ " - " +:+ errorText))
  else
    let* aiResponse := read_json response in
    match aiResponse with
    | Some answer =>
        if String.eqb answer EmptyString then
          throw (Error "No response generated from OpenAI")
        else ret answer
    | None => throw (Error "No response generated from OpenAI")
    end.

Definition callOpenAIFallback (prompt apiKey : string) : M string :=
  retryWithBackoff openai_operation 2 1000.

Record AIResult := mkAIResult {
  response : string;
  provider : string
}.

(** The test that sends a failure of the primary to the secondary. *)
Definition overloaded_or_rate_limited (error : JsError) : bool :=
  includes (message error) "GEMINI_OVERLOADED" ||
  includes (message error) "GEMINI_RATE_LIMITED".

Definition generateAIResponse (prompt : string) : M AIResult :=
  let* ext := externals in
  let geminiApiKey := GOOGLE_GEMINI_API_KEY ext in
  let openaiApiKey := OPENAI_API_KEY ext in
  if configured geminiApiKey then
    try_catch
      (let* response := callGeminiAPI prompt (default EmptyString geminiApiKey) in
       ret (mkAIResult response "Gemini"))
      (fun error =>
         if overloaded_or_rate_limited error then
           if configured openaiApiKey then
             try_catch
               (let* response :=
                  callOpenAIFallback prompt (default EmptyString openaiApiKey) in
                ret (mkAIResult response "OpenAI (fallback)"))
               (fun fallbackError => throw error)
           else throw error
         else throw error)
  else if configured openaiApiKey then
    try_catch
      (let* response := callOpenAIFallback prompt (default EmptyString openaiApiKey) in
       ret (mkAIResult response "OpenAI"))
      (fun error => throw error)
  else throw (Error "No AI API keys configured").

(* ===================================================================== *)
(** * 6. The chat function ([serve], chat-with-documents) *)
(* ===================================================================== *)

Module ChatWithDocuments.

Record Body := mkBody {
  sessionId : string;
  body_message : string;
  userId : string
}.

Record Request := mkRequest {
  method : string;
  body : option Body          (* [None]: the body is not JSON *)
}.

(** The status and the JSON payload of the [Response]; a field that the
    payload lacks is [None]. The stack trace sent as [details] is left
    out. *)
Record Response := mkResponse {
  http_status : Z;
  payload_response : option string;
  payload_sources : option (list Source);
  payload_provider : option string;
  payload_error : option string
}.

Definition nl : string := String (Ascii.ascii_of_nat 10) EmptyString.

Definition no_documents_response : string :=
  "I couldn't find relevant documents for your query. Please check if the documents are correctly processed.".

Definition generalResponse : string :=
  "I don't have any document content to reference. Please upload some documents first, and make sure they are properly processed.".

(** The operation the query embedding is retried on. *)
Definition embedding_operation : M (list Q) :=
  let* embeddingResponse := fetch_embedding in
  if negb (ok embeddingResponse) then
    let errorText := raw_body embeddingResponse in
    throw (Error ("Embedding API failed: "
                  +:+ pretty (status embeddingResponse)
                  +:+ " - " +:+ errorText))
  else
    let* embedding := read_json embeddingResponse in
    match embedding with
    | None => throw (Error "Failed to generate query embedding")
    | Some values => ret values
    end.

(** The search and its fall-back: the value of [chunks]. *)
Definition retrieve (queryEmbedding : list Q) (user_id : string)
    : M (list RetrievedChunk) :=
  let* ext := externals in
  let search := rpc_match_documents ext queryEmbedding user_id in
  match error search with
  | Some searchError =>
      let fallback := select_recent_chunks ext user_id in
      match error fallback with
      | Some fallbackError => ret []
      | None => ret (default [] (data fallback))
      end
  | None => ret (default [] (data search))
  end.

(** [supabaseClient.from('chat_messages').insert(row)]: the error, if
    any, is returned, not thrown. *)
Definition insert_chat_message (row : ChatMessage) : M (option JsError) :=
  let* ext := externals in
  match db_fault ext InsertChatMessage with
  | Some e => ret (Some e)
  | None =>
      modify (fun st => set_chat_messages (chat_messages st ++ [row]) st);;
      ret None
  end.

Definition source_of (chunk : RetrievedChunk) : Source :=
  {| document_title :=
       match r_title chunk with
       | Some title => if String.eqb title EmptyString then "Document" else title
       | None => "Document"
       end;
     source_excerpt := String.substring 0 100 (r_content chunk) +:+ "...";
     source_page := r_page_number chunk |}.

Definition build_prompt (context user_question : string) : string :=
  "Based on the following context from documents, answer the user's question. If the answer cannot be found in the context, say so clearly."
  +:+ nl +:+ nl +:+ "Context:" +:+ nl +:+ context +:+ nl +:+ nl
  +:+ "User Question: " +:+ user_question +:+ nl +:+ nl +:+ "Answer:".

(** The message shown when every provider failed. *)
Definition apology (error : JsError) : string :=
  "I'm experiencing technical difficulties right now. " +:+
  (if includes (message error) "overloaded" || includes (message error) "503"
   then "The AI service is currently overloaded. Please try again in a few moments."
   else if includes (message error) "rate" || includes (message error) "429"
   then "Too many requests are being processed. Please wait a moment and try again."
   else "Please try again later or contact support if the issue persists.").

Definition serve (req : Request) : M Response :=
  if String.eqb (method req) "OPTIONS" then
    ret (mkResponse 200 None None None None)
  else
    try_catch
      (let* json := req_json (body req) in
       let message := body_message json in
       let* ext := externals in
       if negb (configured (GOOGLE_GEMINI_API_KEY ext)) then
         throw (Error "Google Gemini API key not configured")
       else
       let* queryEmbedding := retryWithBackoff embedding_operation 3 1000 in
       let* chunks := retrieve queryEmbedding (userId json) in
       if bool_decide (length chunks = 0%nat) then
         ret (mkResponse 200 (Some no_documents_response) (Some []) None None)
       else
       let context := String.concat (nl +:+ nl) (map r_content chunks) in
       let sources := map source_of chunks in
       if bool_decide (String.length context = 0%nat) then
         insert_chat_message
           (mkChatMessage (sessionId json) "assistant" generalResponse []);;
         ret (mkResponse 200 (Some generalResponse) (Some []) None None)
       else
       let prompt := build_prompt context message in
       let* generated :=
         try_catch
           (let* result := generateAIResponse prompt in ret (inl result))
           (fun error =>
              let userMessage := apology error in
              insert_chat_message
                (mkChatMessage (sessionId json) "assistant" userMessage []);;
              ret (inr (mkResponse 200 (Some userMessage) (Some []) None
                                   (Some "AI_SERVICE_UNAVAILABLE")))) in
       match generated with
       | inr degraded => ret degraded
       | inl result =>
           let* saveError :=
             insert_chat_message
               (mkChatMessage (sessionId json) "assistant" (response result)
                              sources) in
           ret (mkResponse 200 (Some (response result)) (Some sources)
                           (Some (provider result)) None)
       end)
      (fun error =>
         let errorMessage :=
           if String.eqb (message error) EmptyString then "An unexpected error occurred"
           else message error in
         ret (mkResponse 500 None None None (Some errorMessage))).

End ChatWithDocuments.

(* ===================================================================== *)
(** * 7. The ingestion function ([serve], process-document) *)
(* ===================================================================== *)

Module ProcessDocument.

Record Request := mkRequest {
  method : string;
  body : option string        (* the [documentId] of a JSON body *)
}.

(** The JSON payload of the [Response]; [details] and the constant
    [extractionMethod] are left out. *)
Inductive Payload :=
  | NoContent
  | Success (chunksProcessed totalPages textLength : Z)
  | Failure (error : string).

Record Response := mkResponse {
  http_status : Z;
  payload : Payload
}.

(** A chunk with its page: an element of the array [chunks] of [serve]. *)
Record PagedChunk := mkPaged {
  p_content : text;
  page : Z;
  index : Z;
  p_startIndex : Z;
  p_endIndex : Z
}.

(** A JavaScript number: an IEEE 754 binary64 value, with 53 bits of
    mantissa and exponents below 1024. *)
Definition double : Type := SpecFloat.spec_float.

(** The number an integer is as a double (rounded to nearest, ties to even,
    beyond 53 bits). *)
Definition to_double (n : Z) : double :=
  SpecFloat.binary_normalize 53 1024 n 0 false.

(** [x / y] and [x * y] on doubles. *)
Definition double_div (x y : double) : double := SpecFloat.SFdiv 53 1024 x y.
Definition double_mul (x y : double) : double := SpecFloat.SFmul 53 1024 x y.

(** [Math.ceil(x)] for a finite [x], which is [m * 2^e] up to its sign;
    [None] for [NaN] and the two infinities. The ceiling of a number between
    -1 and 0 is -0, which is 0 here. *)
Definition Math_ceil (x : double) : option Z :=
  match x with
  | SpecFloat.S754_zero _ => Some 0
  | SpecFloat.S754_finite s m e =>
      let a := SpecFloat.cond_Zopp s (Z.pos m) in
      Some (if 0 <=? e then a * 2 ^ e else - ((- a) / 2 ^ (- e)))
  | SpecFloat.S754_infinity _ | SpecFloat.S754_nan => None
  end.

(** [Math.ceil((startIndex / text.length) * totalPages) || 1] (l.124): 0,
    -0 and [NaN] (0 / 0) are falsy and give page 1. An infinity takes a
    length of 0, which [serve] has refused by then (l.112), or a number
    too large for a double; it is no integer, and is given page 1 as
    well. *)
Definition page_of (startIndex textLength totalPages : Z) : Z :=
  match Math_ceil (double_mul (double_div (to_double startIndex)
                                          (to_double textLength))
                              (to_double totalPages)) with
  | Some p => if p =? 0 then 1 else p
  | None => 1
  end.

Definition paged_chunks (extracted : text) (totalPages : Z) : list PagedChunk :=
  imap (fun i chunkData =>
          mkPaged (content chunkData)
                  (page_of (startIndex chunkData) (len extracted) totalPages)
                  (Z.of_nat i) (startIndex chunkData) (endIndex chunkData))
       (chunkText extracted 1000 200).

(** [from('documents').select('*').eq('id', documentId).single()] *)
Definition select_document (documentId : string) : M Document :=
  let* ext := externals in
  let* st := get in
  match db_fault ext SelectDocument with
  | Some docError => throw docError
  | None =>
      match filter (fun d => doc_id d = documentId) (documents st) with
      | [document] => ret document
      | _ => throw (Error "JSON object requested, multiple (or no) rows returned")
      end
  end.

(** [storage.from('documents').download(path)] *)
Definition download (path : string) : M Blob :=
  let* ext := externals in
  match db_fault ext DownloadFile with
  | Some downloadError => throw downloadError
  | None =>
      match storage ext path with
      | Some fileData => ret fileData
      | None => throw (Error "Object not found")
      end
  end.

(** [getDocumentProxy] and [extractText] of unpdf. *)
Definition extract (fileData : Blob) : M (Z * text) :=
  match fileData with
  | Pdf totalPages extracted => ret (totalPages, extracted)
  | Unreadable e => throw e
  end.

(** [chunk.content.split(' ').length] *)
Definition count_tokens (s : text) : Z :=
  1 + len (filter (fun c => c = SPACE) s).

(** [from('document_chunks').insert(row)], the row's id being generated
    by the database; the column [created_at] is left out. *)
Definition insert_chunk (documentId : string) (document : Document)
    (i : Z) (chunk : PagedChunk) (values : list Q) : M (option JsError) :=
  let* ext := externals in
  match db_fault ext (InsertChunk i) with
  | Some insertError => ret (Some insertError)
  | None =>
      modify (fun st =>
        set_document_chunks
          (document_chunks st ++
           [mkChunkRow (gen_random_uuid ext (length (document_chunks st)))
                       documentId (doc_user_id document) (p_content chunk)
                       (page chunk) i (Some values)
                       (count_tokens (p_content chunk))])
          st);;
      ret None
  end.

(** The body of the loop over [chunks]: embed and store chunk [i]; every
    failure is caught and the loop continues. *)
Definition process_chunk (documentId : string) (document : Document)
    (i : Z) (chunk : PagedChunk) : M unit :=
  try_catch
    (let* embeddingResponse := fetch_embedding in
     if negb (ok embeddingResponse) then ret tt     (* continue *)
     else
       let* embedding := read_json embeddingResponse in
       match embedding with
       | None => ret tt                              (* continue *)
       | Some values =>
           let* insertError := insert_chunk documentId document i chunk values in
           match insertError with
           | Some e => throw e
           | None => ret tt
           end
       end)
    (fun chunkError => ret tt).                      (* continue *)

Fixpoint process_chunks (documentId : string) (document : Document)
    (i : Z) (remaining : list PagedChunk) : M unit :=
  match remaining with
  | [] => ret tt
  | chunk :: rest =>
      process_chunk documentId document i chunk;;
      process_chunks documentId document (i + 1) rest
  end.

(** The table after [update(change).eq('id', documentId)]. *)
Definition updated (documentId : string) (change : Document -> Document)
    (table : list Document) : list Document :=
  map (fun d => if bool_decide (doc_id d = documentId) then change d else d)
      table.

(** The constraint of the table:
    [CHECK (status IN ('uploading', 'processing', 'completed', 'error'))]. *)
Definition check_status (d : Document) : bool :=
  bool_decide (doc_status d ∈ ["uploading"; "processing"; "completed"; "error"]).

(** [from('documents').update(change).eq('id', documentId)]; an update
    that breaks the constraint changes no row, and its error is returned
    like any other. *)
Definition update_document (documentId : string) (change : Document -> Document)
    : M (option JsError) :=
  let* ext := externals in
  match db_fault ext UpdateDocument with
  | Some updateError => ret (Some updateError)
  | None =>
      let* st := get in
      if forallb (fun d => negb (bool_decide (doc_id d = documentId))
                           || check_status (change d))
                 (documents st)
      then
        modify (set_documents (updated documentId change (documents st)));;
        ret None
      else
        ret (Some (Error "new row violates check constraint documents_status_check"))
  end.

Definition mark_completed (totalChunks totalPages : Z) (d : Document) : Document :=
  mkDocument (doc_id d) (doc_user_id d) (doc_name d) (file_path d)
             "completed" (Some totalPages) (Some totalChunks) (error_message d).

Definition mark_failed (d : Document) : Document :=
  mkDocument (doc_id d) (doc_user_id d) (doc_name d) (file_path d)
             "failed" (total_pages d) (total_chunks d) (error_message d).

(** The [try] block of [serve]. *)
Definition process (req : Request) : M Response :=
  let* documentId := req_json (body req) in
  let* document := select_document documentId in
  let* fileData := download (file_path document) in
  let* extraction := extract fileData in
  let totalPages := fst extraction in
  let extracted := snd extraction in
  if bool_decide (len extracted < 10) then
    throw (Error "No readable text found in PDF. The PDF may be image-based or corrupted.")
  else
  let chunks := paged_chunks extracted totalPages in
  let* ext := externals in
  if negb (configured (GOOGLE_GEMINI_API_KEY ext)) then
    throw (Error "Google Gemini API key not configured")
  else
  process_chunks documentId document 0 chunks;;
  let* updateError :=
    update_document documentId
      (mark_completed (Z.of_nat (length chunks)) totalPages) in
  match updateError with
  | Some e => throw e
  | None =>
      ret (mkResponse 200
             (Success (Z.of_nat (length chunks)) totalPages (len extracted)))
  end.

(** The [catch] block of [serve]: "try to update document status to
    failed", reading the request body again. *)
Definition report_failure (req : Request) (error : JsError) : M Response :=
  try_catch
    (let* documentId := req_json (body req) in
     update_document documentId mark_failed;;
     ret tt)
    (fun updateError => ret tt);;
  ret (mkResponse 500 (Failure (message error))).

Definition serve (req : Request) : M Response :=
  if String.eqb (method req) "OPTIONS" then ret (mkResponse 200 NoContent)
  else try_catch (process req) (report_failure req).

End ProcessDocument.

(* ===================================================================== *)
(** * 8. Retrieval ([match_documents], SQL migration) *)
(* ===================================================================== *)

Module Retrieval.

(** A row of the [RETURNS TABLE]; the [jsonb] column [documents] is kept
    as its three keys. *)
Record MatchRow := mkMatchRow {
  id : string;
  m_document_id : string;
  m_content : text;
  m_page_number : Z;
  m_chunk_index : Z;
  similarity : Q;
  documents_id : string;
  documents_name : string;
  documents_user_id : string
}.

(** What PostgreSQL raises instead of returning rows, by its [SQLSTATE]. *)
Inductive SqlError :=
  | ambiguous_column (name : string)       (* 42702 *)
  | undefined_column (name : string)       (* 42703 *)
  | undefined_table (name : string)        (* 42P01 *)
  | invalid_row_count_in_limit.            (* 2201W *)

(** ** The names of the query

    The function is written in PL/pgSQL, which hands its query to the SQL
    parser at the first [RETURN QUERY] of a session. A column reference
    of the query is looked up among the columns of the [FROM] clause and
    among the variables of the function. The function has no
    [#variable_conflict] line and the repository sets no
    [plpgsql.variable_conflict], so a name found on both sides is refused,
    as is a bare name that two tables of the [FROM] clause have. *)

(** The parameters of the function (l.3-6). *)
Definition parameters : list string :=
  ["query_embedding"; "match_threshold"; "match_count"; "user_id"].

(** The columns of [RETURNS TABLE] (l.9-15); they are variables of the
    function body as well. *)
Definition returned_columns : list string :=
  ["id"; "document_id"; "content"; "page_number"; "chunk_index"; "similarity";
   "documents"].

Definition variables : list string := parameters ++ returned_columns.

(** [FROM document_chunks dc JOIN documents d] (l.35-36): the two aliases
    with the columns of their [CREATE TABLE] (l.115-125 and l.74-88). *)
Definition from_clause : list (string * list string) :=
  [ ("dc", ["id"; "document_id"; "user_id"; "content"; "page_number";
            "chunk_index"; "embedding"; "token_count"; "created_at"]);
    ("d", ["id"; "user_id"; "name"; "original_name"; "file_path"; "file_size";
           "mime_type"; "status"; "total_pages"; "total_chunks";
           "error_message"; "created_at"; "updated_at"]) ].

Inductive ColumnRef :=
  | Unqualified (name : string)
  | Qualified (qualifier name : string).

(** What a reference stands for once it is resolved. *)
Inductive Target :=
  | OfTable (alias name : string)
  | OfFunction (name : string).

(** The aliases of the [FROM] clause whose table has a column [name]. *)
Definition tables_with (name : string) : list string :=
  map fst (List.filter (fun t => bool_decide (name ∈ snd t)) from_clause).

Definition resolve (ref : ColumnRef) : SqlError + Target :=
  match ref with
  | Unqualified name =>
      match tables_with name with
      | [] =>
          if bool_decide (name ∈ variables) then inr (OfFunction name)
          else inl (undefined_column name)
      | [alias] =>
          if bool_decide (name ∈ variables) then inl (ambiguous_column name)
          else inr (OfTable alias name)
      | _ :: _ :: _ => inl (ambiguous_column name)
      end
  | Qualified qualifier name =>
      match List.filter (fun t => bool_decide (fst t = qualifier)) from_clause with
      | t :: _ =>
          if bool_decide (name ∈ snd t) then inr (OfTable qualifier name)
          else inl (undefined_column name)
      | [] =>
          if bool_decide (qualifier = "match_documents")
             && bool_decide (name ∈ variables)
          then inr (OfFunction name)
          else inl (undefined_table qualifier)
      end
  end.

(** The column references of the query, in the order the parser meets
    them: the [FROM] clause with its [ON], the select list, [WHERE],
    [ORDER BY], [LIMIT]. *)
Definition references : list ColumnRef :=
  [ Qualified "dc" "document_id"; Qualified "d" "id";                 (* l.36 *)
    Qualified "dc" "id"; Qualified "dc" "document_id";                (* l.24-25 *)
    Qualified "dc" "content"; Qualified "dc" "page_number";           (* l.26-27 *)
    Qualified "dc" "chunk_index";                                     (* l.28 *)
    Qualified "dc" "embedding"; Unqualified "query_embedding";        (* l.29 *)
    Qualified "d" "id"; Qualified "d" "name"; Qualified "d" "user_id"; (* l.31-33 *)
    Unqualified "user_id";                                            (* l.38 *)
    Qualified "d" "user_id"; Qualified "match_documents" "user_id";   (* l.38 *)
    Qualified "d" "status";                                           (* l.39 *)
    Qualified "dc" "embedding"; Unqualified "query_embedding";        (* l.40 *)
    Unqualified "match_threshold";                                    (* l.40 *)
    Qualified "dc" "embedding"; Unqualified "query_embedding";        (* l.41 *)
    Unqualified "match_count" ].                                      (* l.42 *)

(** The error of the first reference that does not resolve, if any. *)
Fixpoint analyse (refs : list ColumnRef) : option SqlError :=
  match refs with
  | [] => None
  | ref :: refs =>
      match resolve ref with
      | inl e => Some e
      | inr _ => analyse refs
      end
  end.

(** ** The rows of the query *)

(** [x > y] on rationals, as a boolean. *)
Definition Qgtb (x y : Q) : bool := negb (Qle_bool x y).

(** A row of the join with the value of [dc.embedding <=> query_embedding]. *)
Definition Joined : Type := ChunkRow * Document * Q.

Definition distance_of (row : Joined) : Q := snd row.

(** [ORDER BY dc.embedding <=> query_embedding], ascending. Rows at the
    same distance come in an order PostgreSQL leaves open; the sort below
    is one such order. *)
Definition by_distance : relation Joined :=
  fun x y => (distance_of x <= distance_of y)%Q.

#[global] Instance by_distance_dec : RelDecision by_distance.
Proof.
  intros x y. unfold by_distance.
  destruct (Qlt_le_dec (distance_of y) (distance_of x)) as [H|H].
  - right. apply Qlt_not_le, H.
  - left. exact H.
Defined.

Section match_documents.

(** pgvector's cosine distance operator [<=>], which the function is
    taken to find on its search path. *)
Variable cosine_distance : list Q -> list Q -> Q.

(** [FROM document_chunks dc JOIN documents d ON dc.document_id = d.id];
    a [NULL] embedding makes the distance, and with it the [WHERE] clause,
    [NULL], so such a row is never selected. *)
Definition join (documents : list Document) (document_chunks : list ChunkRow)
    (query_embedding : list Q) : list Joined :=
  flat_map (fun dc =>
    flat_map (fun d =>
      if bool_decide (document_id dc = doc_id d) then
        match embedding dc with
        | Some e => [(dc, d, cosine_distance e query_embedding)]
        | None => []
        end
      else [])
    documents)
  document_chunks.

(** The [WHERE] clause (l.38-40). [user_id_ref] is what the bare
    [user_id] of [user_id IS NULL] stands for: the parameter, which is
    [NULL] or not, or a column [user_id], which is [NOT NULL] in both
    tables. The [user_id] of the comparison is qualified: it is the
    parameter, and a comparison with [NULL] is not true. Only the owner of
    the document is compared, never the [user_id] of the chunk. *)
Definition where_clause (user_id_ref : Target) (match_threshold : Q)
    (user_id : option string) (row : Joined) : bool :=
  let '(dc, d, distance) := row in
  ((match user_id_ref with
    | OfFunction _ => bool_decide (user_id = None)
    | OfTable _ _ => false
    end)
   || match user_id with
      | Some u => bool_decide (doc_user_id d = u)
      | None => false
      end)
  && bool_decide (doc_status d = "completed")
  && Qgtb (1 - distance) match_threshold.

Definition select_row (row : Joined) : MatchRow :=
  let '(dc, d, distance) := row in
  {| id := chunk_id dc;
     m_document_id := document_id dc;
     m_content := chunk_content dc;
     m_page_number := page_number dc;
     m_chunk_index := chunk_index dc;
     similarity := 1 - distance;
     documents_id := doc_id d;
     documents_name := doc_name d;
     documents_user_id := doc_user_id d |}.

(** A call of the function over the two tables: the query is analysed,
    and run if every reference resolves. A negative [LIMIT] is an error
    of the run. *)
Definition match_documents (documents : list Document)
    (document_chunks : list ChunkRow) (query_embedding : list Q)
    (match_threshold : Q) (match_count : Z) (user_id : option string)
    : SqlError + list MatchRow :=
  match analyse references with
  | Some e => inl e
  | None =>
      match resolve (Unqualified "user_id") with
      | inl e => inl e
      | inr user_id_ref =>
          if bool_decide (match_count < 0) then inl invalid_row_count_in_limit
          else
            inr (map select_row
                   (take (Z.to_nat match_count)
                      (merge_sort by_distance
                         (List.filter
                            (where_clause user_id_ref match_threshold user_id)
                            (join documents document_chunks query_embedding)))))
      end
  end.

End match_documents.

End Retrieval.

(* ===================================================================== *)
(** * 8a. The chunker of the batch version ([chunkText], process-document) *)
(* ===================================================================== *)

(** The version of process-document that embeds the chunks in batches
    cuts the text with a chunker of its own,
    [chunkText(text, maxTokens)]. *)
Module BatchProcessDocument.

Definition FULL_STOP : code_unit := 46%N.

(** [s.split(/[.!?]+/)]: a separator is a maximal run of sentence-terminal
    punctuation. [piece] is the piece being read, [in_sep] tells that a
    separator is being skipped. *)
Fixpoint split_terminal_from (piece : text) (in_sep : bool) (s : text)
    : list text :=
  match s with
  | [] => [piece]
  | c :: s' =>
      if is_terminal c then
        if in_sep then split_terminal_from [] true s'
        else piece :: split_terminal_from [] true s'
      else split_terminal_from (piece ++ [c]) false s'
  end.

Definition split_terminal : text -> list text := split_terminal_from [] false.

Definition sentences (t : text) : list text :=
  filter (fun s => 0 < len (trim s)) (split_terminal t).

(** One iteration of [for (const sentence of sentences)]; the state is
    the pair of [chunks] and [currentChunk]. *)
Definition chunk_step (maxTokens : Z) (st : list text * text) (sentence : text)
    : list text * text :=
  let currentChunk := snd st in
  let potentialChunk := currentChunk ++ sentence ++ [FULL_STOP; SPACE] in
  if bool_decide (len potentialChunk > maxTokens /\ len currentChunk > 0) then
    (fst st ++ [trim currentChunk], sentence ++ [FULL_STOP; SPACE])
  else (fst st, potentialChunk).

(** [chunkText(text, maxTokens)], each chunk as its [text]. *)
Definition chunkText (t : text) (maxTokens : Z) : list text :=
  let st := fold_left (chunk_step maxTokens) (sentences t) ([], []) in
  if bool_decide (len (trim (snd st)) > 0) then fst st ++ [trim (snd st)]
  else fst st.

End BatchProcessDocument.

(* ===================================================================== *)
(** * 9. Vocabulary of the statements *)
(* ===================================================================== *)

(** The last [k] code units of [s] (all of [s] when it is shorter). *)
Definition last_chars (k : Z) (s : text) : text :=
  drop (length s - Z.to_nat k) s.

(** [s] is not empty and its last code unit is not white space. *)
Definition ends_nonws (s : text) : Prop :=
  exists s' c, s = s' ++ [c] /\ is_ws c = false.

(** Every two neighbours of a chunk list are related by [P]. *)
Definition neighbours (P : Chunk -> Chunk -> Prop) (l : list Chunk) : Prop :=
  forall i a b, l !! i = Some a -> l !! S i = Some b -> P a b.

(** The tail of [a], leading white space apart, starts [b]. *)
Definition overlap_seeds (overlap : Z) (a b : Chunk) : Prop :=
  trimStart (last_chars overlap (content a)) `prefix_of` content b.

(** The invariant of the chunking loop. *)
Record chunk_inv (overlap : Z) (st : ChunkLoop) : Prop := {
  inv_cur : currentChunk st = [] \/ ends_nonws (currentChunk st);
  inv_chunks : neighbours (overlap_seeds overlap) (chunks st);
  inv_seed : forall a, last (chunks st) = Some a ->
    trimStart (last_chars overlap (content a))
      `prefix_of` trimStart (currentChunk st)
}.

(** The state after the pause that precedes a retry: one draw of
    [Math.random], one delay waited for. *)
Definition after_backoff (baseDelay : Q) (attempt : nat) (ext : Externals)
    (st : State) : State :=
  let st1 := set_random_calls (S (random_calls st)) st in
  set_timeouts
    (timeouts st1
     ++ [backoff_delay baseDelay attempt (random ext (random_calls st))])
    st1.

(** A computation keeps the field [f] of the state. *)
Definition same {A} (f : State -> A) : relation State :=
  fun st st' => f st' = f st.

(** A computation does not decrease the counter [f] of the state. *)
Definition calls_grow (f : State -> nat) : relation State :=
  fun st st' => (f st <= f st')%nat.


(** ** The chunker *)

(** [s] occurs in [l] as a run of neighbours. *)
Definition infix (s l : text) : Prop := exists a b, l = a ++ s ++ b.

(** The first code unit of [s] is not white space. *)
Definition head_nonws (s : text) : Prop :=
  exists c r, s = c :: r /\ is_ws c = false.

(** The earlier chunk starts the later one. *)
Definition chunk_prefix (a b : Chunk) : Prop :=
  content a `prefix_of` content b.

(** The offsets of a chunk bracket its content. *)
Definition offsets_ok (c : Chunk) : Prop :=
  0 <= startIndex c /\ startIndex c + len (content c) <= endIndex c.

(** The white space of [s] is single spaces; [after_space] tells that [s]
    follows a space. *)
Fixpoint normal_from (after_space : bool) (s : text) : Prop :=
  match s with
  | [] => True
  | c :: s' =>
      if is_ws c then c = SPACE /\ after_space = false /\ normal_from true s'
      else normal_from false s'
  end.

(** Invariant of the loop: nothing built so far is longer than [B]. *)
Definition sized (B : Z) (st : ChunkLoop) : Prop :=
  len (currentChunk st) <= B /\
  Forall (fun c => len (content c) <= B) (chunks st).

(** Invariant of the loop when the overlap is 0: every finished chunk
    starts the later ones and the chunk being built. *)
Record cumulative (st : ChunkLoop) : Prop := {
  cum_cur : currentChunk st = [] \/ ends_nonws (currentChunk st);
  cum_sorted : StronglySorted chunk_prefix (chunks st);
  cum_seed : Forall (fun a => content a `prefix_of` trimStart (currentChunk st))
                    (chunks st)
}.

(** [x] is held by a finished chunk or by the chunk being built. *)
Definition kept (x : text) (st : ChunkLoop) : Prop :=
  (exists c, c ∈ chunks st /\ infix x (content c)) \/
  infix x (trimStart (currentChunk st)).

(** The room a list of sentences takes in the text they are split from:
    each with the white space that separates it from the next one. *)
Definition room (ss : list text) : Z :=
  fold_right (fun s n => len (trim s) + 1 + n) 0 ss.

(** Invariant of the loop: the offsets stay within a text of length [B]
    that has room for the sentences still to come. *)
Definition bounded (B : Z) (rest : list text) (st : ChunkLoop) : Prop :=
  0 <= currentStartIndex st /\
  currentStartIndex st + len (currentChunk st) + room rest
    <= B + (if bool_decide (currentChunk st = []) then 1 else 0) /\
  Forall (fun c => endIndex c <= B) (chunks st).

(** The only white space of [s] is the space. *)
Definition spaces_only (s : text) : Prop :=
  Forall (fun c => is_ws c = true -> c = SPACE) s.

(** A chunk whose content is trimmed and has no white space but
    spaces. *)
Definition clean_chunk (c : Chunk) : Prop :=
  trim (content c) = content c /\ spaces_only (content c).

(** Invariant of the loop: the chunks built from [n] sentences are [n] at
    most, the one being built included. *)
Definition counted (n : nat) (st : ChunkLoop) : Prop :=
  (length (chunks st) + (if bool_decide (currentChunk st = []) then 0 else 1)
   <= n)%nat.

(** ** The chunker of the batch version *)

(** The only sentence-terminal punctuation of [s] is the full stop. *)
Definition only_full_stops (s : text) : Prop :=
  Forall (fun c => is_terminal c = true -> c = BatchProcessDocument.FULL_STOP) s.

(** The chunk being built is empty or ends a sentence with a full stop and
    a space. *)
Definition stopped (cur : text) : Prop :=
  cur = [] \/
  exists z, cur = z ++ [BatchProcessDocument.FULL_STOP; SPACE] /\
            only_full_stops z.

(** What a chunk of the batch version is: it ends with a full stop, has
    no other sentence-terminal punctuation and no white space around. *)
Definition full_stopped (c : text) : Prop :=
  last c = Some BatchProcessDocument.FULL_STOP /\ only_full_stops c /\
  trim c = c.

(** ** Retries and requests *)

(** The [n] delays of a retried call that starts with retry [attempt] and
    with the [r0]-th random draw. *)
Fixpoint pauses (baseDelay : Q) (ext : Externals) (r0 attempt n : nat)
    : list Q :=
  match n with
  | O => []
  | S n' =>
      backoff_delay baseDelay attempt (random ext r0)
      :: pauses baseDelay ext (S r0) (S attempt) n'
  end.

(** The sum of delays. *)
Definition total (delays : list Q) : Q := fold_right Qplus 0%Q delays.

(** [Math.random] keeps to its range. *)
Definition random_in_range (ext : Externals) : Prop :=
  forall k, (0 <= random ext k)%Q /\ (random ext k < 1)%Q.

(** What a call changes of the counters and of the delays: at most so
    many requests to each endpoint, and delays of at most [wait]
    milliseconds in all. *)
Definition within (embeddings geminis openais : nat) (wait : Q)
    : relation State :=
  fun st st' =>
    (embedding_calls st <= embedding_calls st'
     <= embedding_calls st + embeddings)%nat /\
    (gemini_calls st <= gemini_calls st' <= gemini_calls st + geminis)%nat /\
    (openai_calls st <= openai_calls st' <= openai_calls st + openais)%nat /\
    exists delays,
      timeouts st' = timeouts st ++ delays /\ (total delays <= wait)%Q.

(** What no request to a provider changes. *)
Definition tables_kept : relation State :=
  fun st st' =>
    documents st' = documents st /\ document_chunks st' = document_chunks st /\
    chat_messages st' = chat_messages st /\ bodyUsed st' = bodyUsed st.

(** ** The chat function *)

(** The response of the [catch] block of the chat function. *)
Definition chat_failure (error : JsError) : ChatWithDocuments.Response :=
  ChatWithDocuments.mkResponse 500 None None None
    (Some (if String.eqb (message error) EmptyString
           then "An unexpected error occurred" else message error)).

(** The [context] built from the chunks. *)
Definition context_of (chunks : list RetrievedChunk) : string :=
  String.concat (ChatWithDocuments.nl +:+ ChatWithDocuments.nl)
                (map r_content chunks).

(** The row the chat function records for an answer. *)
Definition assistant_message (json : ChatWithDocuments.Body) (text : string)
    (sources : list Source) : ChatMessage :=
  mkChatMessage (ChatWithDocuments.sessionId json) "assistant" text sources.

(** The paths through the chat function: what a request comes to, with
    the calls made on the way. *)
Inductive chat_run (req : ChatWithDocuments.Request) (ext : Externals)
    (st st' : State) : ChatWithDocuments.Response -> Prop :=
  | chat_preflight :
      ChatWithDocuments.method req = "OPTIONS" -> st' = st ->
      chat_run req ext st st' (ChatWithDocuments.mkResponse 200 None None None None)
  | chat_bad_request e :
      req_json (ChatWithDocuments.body req) ext st = (Thrown e, st') ->
      chat_run req ext st st' (chat_failure e)
  | chat_not_configured json :
      req_json (ChatWithDocuments.body req) ext st = (Returned json, st') ->
      configured (GOOGLE_GEMINI_API_KEY ext) = false ->
      chat_run req ext st st'
        (chat_failure (Error "Google Gemini API key not configured"))
  | chat_embedding_failed json st1 e :
      req_json (ChatWithDocuments.body req) ext st = (Returned json, st1) ->
      configured (GOOGLE_GEMINI_API_KEY ext) = true ->
      retryWithBackoff ChatWithDocuments.embedding_operation 3 1000 ext st1
        = (Thrown e, st') ->
      chat_run req ext st st' (chat_failure e)
  | chat_no_chunks json st1 q :
      req_json (ChatWithDocuments.body req) ext st = (Returned json, st1) ->
      configured (GOOGLE_GEMINI_API_KEY ext) = true ->
      retryWithBackoff ChatWithDocuments.embedding_operation 3 1000 ext st1
        = (Returned q, st') ->
      ChatWithDocuments.retrieve q (ChatWithDocuments.userId json) ext st'
        = (Returned [], st') ->
      chat_run req ext st st'
        (ChatWithDocuments.mkResponse 200
           (Some ChatWithDocuments.no_documents_response) (Some []) None None)
  | chat_no_context json st1 st2 q chunks saveError :
      req_json (ChatWithDocuments.body req) ext st = (Returned json, st1) ->
      configured (GOOGLE_GEMINI_API_KEY ext) = true ->
      retryWithBackoff ChatWithDocuments.embedding_operation 3 1000 ext st1
        = (Returned q, st2) ->
      ChatWithDocuments.retrieve q (ChatWithDocuments.userId json) ext st2
        = (Returned chunks, st2) ->
      chunks <> [] -> context_of chunks = EmptyString ->
      ChatWithDocuments.insert_chat_message
        (assistant_message json ChatWithDocuments.generalResponse []) ext st2
        = (Returned saveError, st') ->
      chat_run req ext st st'
        (ChatWithDocuments.mkResponse 200
           (Some ChatWithDocuments.generalResponse) (Some []) None None)
  | chat_apology json st1 st2 st3 q chunks e saveError :
      req_json (ChatWithDocuments.body req) ext st = (Returned json, st1) ->
      configured (GOOGLE_GEMINI_API_KEY ext) = true ->
      retryWithBackoff ChatWithDocuments.embedding_operation 3 1000 ext st1
        = (Returned q, st2) ->
      ChatWithDocuments.retrieve q (ChatWithDocuments.userId json) ext st2
        = (Returned chunks, st2) ->
      chunks <> [] -> context_of chunks <> EmptyString ->
      generateAIResponse
        (ChatWithDocuments.build_prompt (context_of chunks)
           (ChatWithDocuments.body_message json)) ext st2
        = (Thrown e, st3) ->
      ChatWithDocuments.insert_chat_message
        (assistant_message json (ChatWithDocuments.apology e) []) ext st3
        = (Returned saveError, st') ->
      chat_run req ext st st'
        (ChatWithDocuments.mkResponse 200 (Some (ChatWithDocuments.apology e))
           (Some []) None (Some "AI_SERVICE_UNAVAILABLE"))
  | chat_answer json st1 st2 st3 q chunks result saveError :
      req_json (ChatWithDocuments.body req) ext st = (Returned json, st1) ->
      configured (GOOGLE_GEMINI_API_KEY ext) = true ->
      retryWithBackoff ChatWithDocuments.embedding_operation 3 1000 ext st1
        = (Returned q, st2) ->
      ChatWithDocuments.retrieve q (ChatWithDocuments.userId json) ext st2
        = (Returned chunks, st2) ->
      chunks <> [] -> context_of chunks <> EmptyString ->
      generateAIResponse
        (ChatWithDocuments.build_prompt (context_of chunks)
           (ChatWithDocuments.body_message json)) ext st2
        = (Returned result, st3) ->
      ChatWithDocuments.insert_chat_message
        (assistant_message json (response result)
           (map ChatWithDocuments.source_of chunks)) ext st3
        = (Returned saveError, st') ->
      chat_run req ext st st'
        (ChatWithDocuments.mkResponse 200 (Some (response result))
           (Some (map ChatWithDocuments.source_of chunks))
           (Some (provider result)) None).

(** ** The ingestion function *)

(** The embedding loop of the ingestion changes the number of embedding
    requests and the stored chunks, nothing else. *)
Definition embeds_only : relation State :=
  fun st st' =>
    gemini_calls st' = gemini_calls st /\ openai_calls st' = openai_calls st /\
    random_calls st' = random_calls st /\ timeouts st' = timeouts st /\
    bodyUsed st' = bodyUsed st /\ documents st' = documents st /\
    chat_messages st' = chat_messages st.

(** [row] stores [chunk], the [i]-th chunk of the document. *)
Definition row_for (documentId : string) (document : Document) (i : Z)
    (chunk : ProcessDocument.PagedChunk) (row : ChunkRow) : Prop :=
  document_id row = documentId /\
  chunk_user_id row = doc_user_id document /\
  chunk_content row = ProcessDocument.p_content chunk /\
  page_number row = ProcessDocument.page chunk /\
  chunk_index row = i /\
  is_Some (embedding row) /\
  token_count row = ProcessDocument.count_tokens (ProcessDocument.p_content chunk).

(** The embedding an answer of the embedding endpoint carries, as the
    loop of the ingestion reads it. *)
Definition embedded (answer : FetchOutcome (list Q)) : option (list Q) :=
  match answer with
  | FetchResolved r =>
      if ok r then
        match json_field r with
        | Present values => Some values
        | _ => None
        end
      else None
  | FetchRejected _ => None
  end.

(** What a location adds to an upper bound of the number it places: 1
    when the number lies above the mantissa, 0 when it is the mantissa. *)
Definition inexact (l : SpecFloat.location) : Z :=
  match l with SpecFloat.loc_Exact => 0 | SpecFloat.loc_Inexact _ => 1 end.

(* ===================================================================== *)
(** * 10. Concrete inputs *)
(* ===================================================================== *)

(** Two sentences of 900 and 301 code units; the 200 code units that end
    the first one start with a space. *)
Definition split_example : text :=
  replicate 700 97%N ++ [SPACE] ++ replicate 198 98%N ++ str ". "
  ++ replicate 300 99%N ++ str ".".

Definition unreachable {A} : nat -> FetchOutcome A :=
  fun _ => FetchRejected (Error "connection refused").

Definition always {A} (code : Z) (raw : string) (field : JsonField A)
    : nat -> FetchOutcome A :=
  fun _ => FetchResolved (mkResponse code raw field).

(** [failures] answers with status 503, then status 200. *)
Definition flaky {A} (failures : nat) (a : A) : nat -> FetchOutcome A :=
  fun n =>
    if (n <? failures)%nat
    then FetchResolved (mkResponse 503 "Service Unavailable" Absent)
    else FetchResolved (mkResponse 200 EmptyString (Present a)).

Definition no_rows : QueryResult := mkQueryResult (Some []) None.

Definition world (gemini_key openai_key : option string)
    (embeddings : nat -> FetchOutcome (list Q))
    (gemini openai : nat -> FetchOutcome string)
    (files : string -> option Blob) : Externals :=
  mkExternals gemini_key openai_key embeddings gemini openai
              (fun _ => 1 # 2) (fun n => pretty n) files (fun _ => None)
              (fun _ _ => no_rows) (fun _ => no_rows).

(** The state a request meets: nothing called, the body unread. *)
Definition fresh (table : list Document) : State :=
  mkState 0 0 0 0 [] false table [] [].

Definition rejected_key_world : Externals :=
  world (Some "key") None (always 400 "API key not valid" Absent)
        unreachable unreachable (fun _ => None).

Definition flaky_embedding_world : Externals :=
  world (Some "key") None (flaky 2 [1 # 2; 1 # 3]) unreachable unreachable
        (fun _ => None).

Definition embedding_down_world : Externals :=
  world (Some "key") None (always 503 "Service Unavailable" Absent)
        unreachable unreachable (fun _ => None).

Definition primary_overloaded_world : Externals :=
  world (Some "gemini-key") (Some "openai-key") unreachable
        (always 503 "The model is overloaded" Absent)
        (always 200 EmptyString (Present "Forty-two.")) (fun _ => None).

Definition both_down_world : Externals :=
  world (Some "gemini-key") (Some "openai-key") unreachable
        (always 503 "The model is overloaded" Absent)
        (always 401 "Incorrect API key" Absent) (fun _ => None).

(** The embedding endpoint refuses the first request with status 400,
    naming a limit of 1500 tokens, and answers the second. *)
Definition token_limit_world : Externals :=
  world (Some "key") None
        (fun n => if (n =? 0)%nat
                  then FetchResolved
                         (mkResponse 400 "Request exceeds 1500 tokens" Absent)
                  else FetchResolved
                         (mkResponse 200 EmptyString (Present [1 # 2; 1 # 3]%Q)))
        unreachable unreachable (fun _ => None).

(** The primary answers 503 twice, then answers. *)
Definition flaky_primary_world : Externals :=
  world (Some "gemini-key") None unreachable (flaky 2 "Forty-two.")
        unreachable (fun _ => None).

(** The search answers, with no row. *)
Definition empty_library_world : Externals :=
  world (Some "key") None (always 200 EmptyString (Present [1 # 2; 1 # 3]))
        unreachable unreachable (fun _ => None).

Definition question : ChatWithDocuments.Request :=
  ChatWithDocuments.mkRequest "POST"
    (Some (ChatWithDocuments.mkBody "s1" "What is the refund policy?" "u1")).

Definition pending_document : Document :=
  mkDocument "d1" "u1" "report" "u1/1.pdf" "processing" None (Some 0) None.

Definition upload : ProcessDocument.Request :=
  ProcessDocument.mkRequest "POST" (Some "d1").

(** The stored file is a scan: four characters of text. *)
Definition scanned_pdf_world : Externals :=
  world (Some "key") None (always 200 EmptyString (Present [1 # 2])) unreachable
        unreachable (fun _ => Some (Pdf 1 (str "scan"))).

(** The first chunk is embedded, the second is answered with 503. *)
Definition partial_ingest_world : Externals :=
  world (Some "key") None
        (fun n => if (n =? 0)%nat
                  then FetchResolved (mkResponse 200 EmptyString (Present [1 # 2]))
                  else FetchResolved (mkResponse 503 "overloaded" Absent))
        unreachable unreachable (fun _ => Some (Pdf 3 split_example)).

(** A distance to run [match_documents] with: the sum of the squared
    differences. *)
Definition squared_distance (a b : list Q) : Q :=
  fold_right Qplus 0%Q (zip_with (fun x y => ((x - y) * (x - y))%Q) a b).

Definition library : list Document :=
  [ mkDocument "d1" "u1" "report" "u1/1.pdf" "completed" (Some 3) (Some 2) None;
    mkDocument "d2" "u2" "notes" "u2/1.pdf" "completed" (Some 1) (Some 1) None;
    mkDocument "d3" "u1" "draft" "u1/2.pdf" "processing" None (Some 0) None ].

Definition library_chunks : list ChunkRow :=
  [ mkChunkRow "c1" "d1" "u1" (str "alpha") 1 0 (Some [1%Q; 0%Q]) 1;
    mkChunkRow "c2" "d1" "u1" (str "beta") 2 1 (Some [1 # 2; 1 # 2]) 1;
    mkChunkRow "c3" "d2" "u2" (str "gamma") 1 0 (Some [3 # 4; 0%Q]) 1;
    mkChunkRow "c4" "d3" "u1" (str "delta") 1 0 (Some [1%Q; 0%Q]) 1 ].

(** A page of white space only. *)
Definition blank_page : text := [SPACE; NEWLINE; SPACE; SPACE].

(** A chunk the search returns. *)
Definition refund_chunk : RetrievedChunk :=
  mkRetrieved "Refunds are made within 30 days." 4 (Some "policy.pdf").

(** A world whose embedding endpoint answers and whose search returns
    [refund_chunk]. *)
Definition library_world (gemini openai : nat -> FetchOutcome string)
    : Externals :=
  mkExternals (Some "gemini-key") (Some "openai-key")
              (always 200 EmptyString (Present [1 # 2; 1 # 3]%Q)) gemini openai
              (fun _ => 1 # 2) (fun n => pretty n) (fun _ => None)
              (fun _ => None)
              (fun _ _ => mkQueryResult (Some [refund_chunk]) None)
              (fun _ => no_rows).

(** The primary answers. *)
Definition answering_world : Externals :=
  library_world (always 200 EmptyString (Present "Within 30 days."))
                unreachable.

(** The primary is overloaded and the secondary rejects its key. *)
Definition degraded_world : Externals :=
  library_world (always 503 "The model is overloaded" Absent)
                (always 401 "Incorrect API key" Absent).

(** Only the key of the secondary is configured. *)
Definition secondary_only_world : Externals :=
  world None (Some "openai-key") unreachable unreachable
        (always 200 EmptyString (Present "Forty-two.")) (fun _ => None).

(** Every chunk of the stored file is embedded. *)
Definition embedding_world : Externals :=
  world (Some "key") None (always 200 EmptyString (Present [1 # 2]%Q))
        unreachable unreachable (fun _ => Some (Pdf 3 split_example)).

(** Three sentences, two of them not closed by a full stop. *)
Definition three_sentences : text := str "Hi! Why? Ok.".


(* ===================================================================== *)
(** * 11. Properties of the chunker *)
(* ===================================================================== *)

Section trimming.

Lemma trimStart_head s c r : trimStart s = c :: r -> is_ws c = false.
Proof.
  induction s as [|d s IH]; simpl; [discriminate|].
  destruct (is_ws d) eqn:E; [exact IH|]. intros [= <- <-]. exact E.
Qed.

Lemma trimStart_nonws c s : is_ws c = false -> trimStart (c :: s) = c :: s.
Proof. intros H. simpl. by rewrite H. Qed.

Lemma trimStart_all_ws w s :
  forallb is_ws w = true -> trimStart (w ++ s) = trimStart s.
Proof.
  induction w as [|c w IH]; simpl; [done|].
  intros [Hc Hw]%andb_true_iff. rewrite Hc. auto.
Qed.

Lemma trimStart_split s :
  exists w, s = w ++ trimStart s /\ forallb is_ws w = true.
Proof.
  induction s as [|c s (w & Hs & Hw)]; simpl.
  - by exists [].
  - destruct (is_ws c) eqn:E.
    + exists (c :: w). simpl. rewrite E, Hw. split; [by f_equal|done].
    + by exists [].
Qed.

Lemma prefix_trimStart a b :
  a `prefix_of` b -> trimStart a `prefix_of` trimStart b.
Proof.
  intros [k ->]. induction a as [|c a IH]; simpl.
  - apply prefix_nil.
  - destruct (is_ws c); [exact IH|]. by apply prefix_cons, prefix_app_r.
Qed.

Lemma trimEnd_ends_nonws s : ends_nonws s -> trimEnd s = s.
Proof.
  intros (s' & c & -> & Hc). unfold trimEnd.
  rewrite reverse_snoc, trimStart_nonws by done.
  by rewrite reverse_cons, reverse_involutive.
Qed.

Lemma trimStart_ends_nonws s : ends_nonws s -> ends_nonws (trimStart s).
Proof.
  induction s as [|d s IH]; [done|].
  intros (s' & c & Hs & Hc). simpl. destruct (is_ws d) eqn:E.
  - apply IH. destruct s' as [|d' s'']; simplify_eq/=; [congruence|].
    by exists s'', c.
  - by exists s', c.
Qed.

Lemma trim_ends_nonws s : ends_nonws s -> trim s = trimStart s.
Proof.
  intros H. unfold trim. by apply trimEnd_ends_nonws, trimStart_ends_nonws.
Qed.

Lemma trim_nonempty_ends_nonws s : trim s <> [] -> ends_nonws (trim s).
Proof.
  unfold trim, trimEnd. intros H.
  destruct (trimStart (reverse (trimStart s))) as [|c r] eqn:E; [done|].
  exists (reverse r), c. split; [by rewrite reverse_cons|].
  by eapply trimStart_head.
Qed.

Lemma ends_nonws_app s1 s2 : ends_nonws s2 -> ends_nonws (s1 ++ s2).
Proof.
  intros (s' & c & -> & Hc). exists (s1 ++ s'), c. by rewrite (assoc_L (++)).
Qed.

Lemma slice_neg_last_chars s k : 0 < k -> slice s (- k) = last_chars k s.
Proof.
  intros Hk. unfold slice, last_chars, len.
  destruct (Z.ltb_spec (- k) 0); [|lia]. f_equal. lia.
Qed.

Lemma last_chars_0 s : last_chars 0 s = [].
Proof. unfold last_chars. simpl. rewrite Nat.sub_0_r. apply drop_all. Qed.

(** Trimming a chunk does not change what its tail seeds, leading white
    space apart. *)
Lemma trimStart_last_chars_trim k s :
  ends_nonws s ->
  trimStart (last_chars k (trim s)) = trimStart (last_chars k s).
Proof.
  intros Hs. rewrite trim_ends_nonws by done.
  destruct (trimStart_split s) as (w & Hw & Hall).
  pose proof (trimStart_ends_nonws _ Hs) as Ht.
  set (t := trimStart s) in *. clearbody t. subst s.
  unfold last_chars. rewrite length_app.
  destruct (decide (Z.to_nat k <= length t)%nat) as [Hle|Hgt].
  - rewrite drop_app_ge by lia. do 2 f_equal. lia.
  - replace (length t - Z.to_nat k)%nat with 0%nat by lia.
    rewrite drop_app_le by lia. rewrite trimStart_all_ws; [by rewrite drop_0|].
    rewrite <- (take_drop (length w + length t - Z.to_nat k) w), forallb_app
      in Hall.
    by apply andb_true_iff in Hall as [_ Hall].
Qed.

End trimming.

Section chunk_loop.

Lemma neighbours_snoc P l b :
  neighbours P l -> (forall a, last l = Some a -> P a b) ->
  neighbours P (l ++ [b]).
Proof.
  intros Hl Hlast i a c Ha Hc.
  assert (S i < length (l ++ [b]))%nat as Hlt by (by eapply lookup_lt_Some).
  rewrite length_app in Hlt. simpl in Hlt.
  rewrite lookup_app_l in Ha by lia.
  destruct (decide (S i < length l)%nat).
  - rewrite lookup_app_l in Hc by lia. eauto.
  - rewrite lookup_app_r in Hc by lia.
    replace (S i - length l)%nat with 0%nat in Hc by lia. simplify_eq/=.
    apply Hlast. rewrite last_lookup, <- Ha. f_equal. lia.
Qed.

Lemma len_nil_not_pos : ~ len [] > 0.
Proof. unfold len. simpl. lia. Qed.

Lemma chunk_inv_init overlap : chunk_inv overlap (mkChunkLoop [] [] 0).
Proof. split; simpl; [by left| by intros [] ??| done]. Qed.

Lemma chunk_inv_step m overlap st s :
  0 <= overlap -> 0 < len (trim s) ->
  chunk_inv overlap st -> chunk_inv overlap (chunk_step m overlap st s).
Proof.
  intros Hov Hs [Hcur Hch Hseed].
  assert (ends_nonws (trim s)) as Hsent.
  { apply trim_nonempty_ends_nonws. intros E. rewrite E in Hs.
    pose proof len_nil_not_pos. lia. }
  unfold chunk_step. case_bool_decide as Hsplit; split;
    cbn [chunks currentChunk currentStartIndex content].
  - right. by apply ends_nonws_app, ends_nonws_app.
  - destruct Hsplit as [_ Hpos].
    destruct Hcur as [E|Hcur]; [rewrite E in Hpos; by apply len_nil_not_pos in Hpos|].
    apply neighbours_snoc; [done|]. intros a Ha. unfold overlap_seeds. simpl.
    rewrite trim_ends_nonws by done. auto.
  - destruct Hsplit as [_ Hpos].
    destruct Hcur as [E|Hcur]; [rewrite E in Hpos; by apply len_nil_not_pos in Hpos|].
    intros a. rewrite last_snoc. intros [= <-]. simpl.
    destruct (decide (overlap = 0)) as [->|].
    { rewrite last_chars_0. apply prefix_nil. }
    rewrite trimStart_last_chars_trim by done.
    rewrite <- slice_neg_last_chars by lia.
    apply prefix_trimStart. by apply prefix_app_r.
  - right. by apply ends_nonws_app, ends_nonws_app.
  - done.
  - intros a Ha. etrans; [by apply Hseed|].
    apply prefix_trimStart. by apply prefix_app_r.
Qed.

Lemma chunk_inv_fold m overlap ss st :
  0 <= overlap -> Forall (fun s => 0 < len (trim s)) ss ->
  chunk_inv overlap st ->
  chunk_inv overlap (fold_left (chunk_step m overlap) ss st).
Proof.
  intros Hov Hss. revert st.
  induction Hss as [|s ss Hs _ IH]; simpl; [done|].
  intros st Hst. by apply IH, chunk_inv_step.
Qed.

Lemma sentences_nonempty clean :
  Forall (fun s => 0 < len (trim s)) (sentences clean).
Proof.
  unfold sentences. apply Forall_forall.
  by intros s [? _]%list_elem_of_filter.
Qed.

Lemma accumulated_neighbours clean m overlap :
  0 <= overlap ->
  neighbours (overlap_seeds overlap) (accumulated_chunks clean m overlap).
Proof.
  intros Hov. unfold accumulated_chunks.
  pose proof (chunk_inv_fold m overlap (sentences clean) _ Hov
                (sentences_nonempty clean) (chunk_inv_init overlap))
    as [Hcur Hch Hseed].
  unfold push_last. case_bool_decide as Hlast; [|done].
  apply neighbours_snoc; [done|]. intros a Ha. unfold overlap_seeds. simpl.
  destruct Hcur as [E|Hcur].
  { rewrite E in Hlast. by apply len_nil_not_pos in Hlast. }
  rewrite trim_ends_nonws by done. auto.
Qed.

(** The three ways [chunkText] returns. *)
Lemma chunkText_cases t m o :
  chunkText t m o = [] \/
  (len (cleanText t) <= m /\
   chunkText t m o = [mkChunk (cleanText t) 0 (len (cleanText t))]) \/
  (m < len (cleanText t) /\
   chunkText t m o = filter (fun chunk => len (content chunk) > 50)
                            (accumulated_chunks (cleanText t) m o)).
Proof.
  unfold chunkText. case_bool_decide; [by left|]. right.
  case_bool_decide; [left | right]; split; (lia || done).
Qed.

End chunk_loop.

(** After [s.replace(/\s+/g, ' ')] no newline is left, so the second
    replacement of [cleanText] changes nothing. *)
Lemma remove_empty_lines_no_newline s :
  Forall (fun c => c <> NEWLINE) s -> remove_empty_lines s = s.
Proof.
  unfold remove_empty_lines. induction 1 as [|c s Hc _ IH]; simpl; [done|].
  apply N.eqb_neq in Hc. rewrite Hc. by f_equal.
Qed.

Lemma collapse_ws_no_newline b s :
  Forall (fun c => c <> NEWLINE) (collapse_ws_from b s).
Proof.
  revert b. induction s as [|c s IH]; intros b; simpl; [constructor|].
  destruct (is_ws c) eqn:E.
  - destruct b; [apply IH|]. constructor; [done|apply IH].
  - constructor; [|apply IH]. intros ->. done.
Qed.

Lemma cleanText_collapse t : cleanText t = trim (collapse_ws t).
Proof.
  unfold cleanText. f_equal.
  apply remove_empty_lines_no_newline, collapse_ws_no_newline.
Qed.

(** C4: every chunk of the output of [chunkText] has a content of at least
    50 code units (the filter keeps the contents longer than 50), unless
    the normalised input fits in [maxChunkSize]: then the output is that
    input as a single chunk, whatever its length. *)
Theorem chunkText_min_length (t : text) (maxChunkSize overlap : Z) (c : Chunk) :
  c ∈ chunkText t maxChunkSize overlap ->
  50 <= len (content c) \/
  (len (cleanText t) <= maxChunkSize /\
   chunkText t maxChunkSize overlap =
     [mkChunk (cleanText t) 0 (len (cleanText t))]).
Proof.
  destruct (chunkText_cases t maxChunkSize overlap) as [E|[[Hle E]|[Hlt E]]];
    rewrite E.
  - by intros ?%elem_of_nil.
  - intros _. by right.
  - intros [Hlen _]%list_elem_of_filter. left. lia.
Qed.

Lemma chunkText_min_length_witness :
  50 <= len (content (mkChunk (replicate 700 97%N ++ [SPACE]
                                 ++ replicate 198 98%N ++ str ".") 0 900)) \/
  (len (cleanText split_example) <= 1000 /\
   chunkText split_example 1000 200 =
     [mkChunk (cleanText split_example) 0 (len (cleanText split_example))]).
Proof.
  apply (chunkText_min_length split_example 1000 200).
  vm_compute. left.
Defined.

(** The exception of C4 is met: a short document is one short chunk. *)
Example chunkText_short_document :
  chunkText (str "Hi.") 1000 200 = [mkChunk (str "Hi.") 0 3].
Proof. reflexivity. Qed.

(** C5, as the code has it: for an overlap that is not negative, the
    output of [chunkText] is one chunk at most or the accumulated chunks
    longer than 50; and of two neighbours of the accumulated chunks, the
    last [overlap] code units of the first one, leading white space
    removed, are a prefix of the second one. *)
Theorem chunkText_overlap_prefix (t : text) (maxChunkSize overlap : Z) :
  0 <= overlap ->
  ((length (chunkText t maxChunkSize overlap) <= 1)%nat \/
   chunkText t maxChunkSize overlap =
     filter (fun chunk => len (content chunk) > 50)
            (accumulated_chunks (cleanText t) maxChunkSize overlap)) /\
  forall i a b,
    accumulated_chunks (cleanText t) maxChunkSize overlap !! i = Some a ->
    accumulated_chunks (cleanText t) maxChunkSize overlap !! S i = Some b ->
    trimStart (last_chars overlap (content a)) `prefix_of` content b.
Proof.
  intros Hov. split.
  - destruct (chunkText_cases t maxChunkSize overlap) as [E|[[_ E]|[_ E]]];
      rewrite E; simpl; auto.
  - apply accumulated_neighbours, Hov.
Qed.

Lemma chunkText_overlap_prefix_witness :
  trimStart (last_chars 200 (replicate 700 97%N ++ [SPACE]
                               ++ replicate 198 98%N ++ str "."))
    `prefix_of` (replicate 198 98%N ++ str ". " ++ replicate 300 99%N ++ str ".").
Proof.
  assert (0 <= 200) as H by (by vm_compute).
  exact (proj2 (chunkText_overlap_prefix split_example 1000 200 H) 0%nat
           (mkChunk (replicate 700 97%N ++ [SPACE] ++ replicate 198 98%N
                       ++ str ".") 0 900)
           (mkChunk (replicate 198 98%N ++ str ". " ++ replicate 300 99%N
                       ++ str ".") 700 1202)
           eq_refl eq_refl).
Defined.

(** C5 as stated fails: with the sizes of the call site, the first chunk
    is closed by a split, both chunks are in the output, and the last 200
    code units of the first start with a space that the second, being
    trimmed, does not have. *)
Lemma chunkText_overlap_counterexample :
  exists c1 c2,
    chunks (fold_left (chunk_step 1000 200) (sentences (cleanText split_example))
                      (mkChunkLoop [] [] 0)) = [c1] /\
    chunkText split_example 1000 200 = [c1; c2] /\
    ~ last_chars 200 (content c1) `prefix_of` content c2.
Proof.
  eexists _, _. split; [vm_compute; reflexivity|].
  split; [vm_compute; reflexivity|].
  apply (bool_decide_unpack _). vm_compute. exact I.
Qed.

(* ===================================================================== *)
(** * 12. Properties of the retry policy *)
(* ===================================================================== *)

Section retry_loop_equations.
Context {T : Type} (operation : M T) (maxRetries : nat) (baseDelay : Q).

Lemma retry_loop_returned it attempt lastError ext st v st' :
  operation ext st = (Returned v, st') ->
  retry_loop operation maxRetries baseDelay (S it) attempt lastError ext st
  = (Returned v, st').
Proof. intros H. simpl. unfold try_catch. by rewrite H. Qed.

Lemma retry_loop_last it lastError ext st e st' :
  operation ext st = (Thrown e, st') ->
  retry_loop operation maxRetries baseDelay (S it) maxRetries lastError ext st
  = (Thrown e, st').
Proof.
  intros H. simpl. unfold try_catch. rewrite H.
  by rewrite Nat.eqb_refl.
Qed.

Lemma retry_loop_not_retryable it attempt lastError ext st e st' :
  operation ext st = (Thrown e, st') -> isRetryable e = false ->
  retry_loop operation maxRetries baseDelay (S it) attempt lastError ext st
  = (Thrown e, st').
Proof.
  intros H Hr. simpl. unfold try_catch. rewrite H, Hr.
  by destruct (attempt =? maxRetries)%nat.
Qed.

Lemma retry_loop_retry it attempt lastError ext st e st' :
  operation ext st = (Thrown e, st') -> isRetryable e = true ->
  attempt <> maxRetries ->
  retry_loop operation maxRetries baseDelay (S it) attempt lastError ext st
  = retry_loop operation maxRetries baseDelay it (S attempt) (Some e) ext
      (after_backoff baseDelay attempt ext st').
Proof.
  intros H Hr Hne. simpl. unfold try_catch. rewrite H, Hr.
  apply Nat.eqb_neq in Hne. rewrite Hne. reflexivity.
Qed.

End retry_loop_equations.

(** A relation that every attempt and every pause respects is respected
    by the whole retried call. *)
Section retry_frames.
Context {T : Type} (operation : M T) (R : relation State) `{!PreOrder R}.
Hypothesis operation_R :
  forall ext st r st', operation ext st = (r, st') -> R st st'.
Hypothesis backoff_R : forall b k ext st, R st (after_backoff b k ext st).

Lemma retry_loop_rel maxRetries baseDelay it attempt lastError ext st r st' :
  retry_loop operation maxRetries baseDelay it attempt lastError ext st
  = (r, st') ->
  R st st'.
Proof.
  revert attempt lastError st.
  induction it as [|it IH]; intros attempt lastError st; simpl.
  - unfold throw. by intros [= _ <-].
  - unfold try_catch. destruct (operation ext st) as [[v|e] st1] eqn:E.
    + intros [= _ <-]. eauto.
    + apply operation_R in E.
      destruct (attempt =? maxRetries)%nat; [unfold throw; by intros [= _ <-]|].
      destruct (isRetryable e); simpl; [|unfold throw; by intros [= _ <-]].
      intros H. apply IH in H. etrans; [exact E|]. etrans; [|exact H].
      apply backoff_R.
Qed.

Lemma retryWithBackoff_rel maxRetries baseDelay ext st r st' :
  retryWithBackoff operation maxRetries baseDelay ext st = (r, st') -> R st st'.
Proof. apply retry_loop_rel. Qed.

End retry_frames.

#[global] Instance same_preorder {A} (f : State -> A) : PreOrder (same f).
Proof. split; unfold same; [done|]. intros x y z H1 H2. congruence. Qed.

#[global] Instance calls_grow_preorder (f : State -> nat) :
  PreOrder (calls_grow f).
Proof. split; unfold calls_grow; [by intros x|]. intros x y z ??. lia. Qed.

Section message_tests.

Lemma prefix_append needle a b :
  String.prefix needle a = true -> String.prefix needle (a +:+ b) = true.
Proof.
  revert a. induction needle as [|c needle IH]; intros a.
  { intros _. by destruct (a +:+ b). }
  destruct a as [|d a]; simpl; [done|].
  destruct (Ascii.ascii_dec c d); [apply IH|done].
Qed.

Lemma includes_append hay needle tail :
  includes hay needle = true -> includes (hay +:+ tail) needle = true.
Proof.
  induction hay as [|c hay IH]; simpl.
  - rewrite orb_false_r. intros H. destruct needle; [|done].
    by destruct tail.
  - intros [H|H]%orb_true_iff; apply orb_true_iff.
    + left. by apply (prefix_append needle (String c hay)).
    + right. auto.
Qed.

(** A 503 of the embedding endpoint is retried, whatever its body. *)
Lemma embedding_failure_retryable (raw : string) :
  isRetryable (Error ("Embedding API failed: " +:+ pretty 503 +:+ " - " +:+ raw))
  = true.
Proof.
  unfold isRetryable, message. apply orb_true_iff; left.
  apply orb_true_iff; left. apply orb_true_iff; left. apply orb_true_iff; left.
  change ("Embedding API failed: " +:+ pretty 503 +:+ " - " +:+ raw)
    with ("Embedding API failed: 503 - " +:+ raw).
  by apply includes_append.
Qed.

End message_tests.

Section operations.

Lemma embedding_operation_status ext st code raw field :
  embedding_endpoint ext (embedding_calls st)
    = FetchResolved (mkResponse code raw field) ->
  (200 <=? code) && (code <=? 299) = false ->
  ChatWithDocuments.embedding_operation ext st
  = (Thrown (Error ("Embedding API failed: " +:+ pretty code +:+ " - " +:+ raw)),
     set_embedding_calls (S (embedding_calls st)) st).
Proof.
  intros H Hok.
  unfold ChatWithDocuments.embedding_operation, bind, fetch_embedding.
  rewrite H. unfold ok. simpl. by rewrite Hok.
Qed.

Lemma embedding_operation_values ext st code raw values :
  embedding_endpoint ext (embedding_calls st)
    = FetchResolved (mkResponse code raw (Present values)) ->
  (200 <=? code) && (code <=? 299) = true ->
  ChatWithDocuments.embedding_operation ext st
  = (Returned values, set_embedding_calls (S (embedding_calls st)) st).
Proof.
  intros H Hok.
  unfold ChatWithDocuments.embedding_operation, bind, fetch_embedding.
  rewrite H. unfold ok. simpl. by rewrite Hok.
Qed.

(** An attempt changes the call counter of its endpoint, nothing else. *)
Lemma embedding_operation_frame ext st r st' :
  ChatWithDocuments.embedding_operation ext st = (r, st') ->
  st' = set_embedding_calls (S (embedding_calls st)) st.
Proof.
  unfold ChatWithDocuments.embedding_operation, bind, fetch_embedding.
  destruct (embedding_endpoint ext (embedding_calls st)) as [e|resp];
    [by intros [= _ <-]|].
  destruct (negb (ok resp)); [by intros [= _ <-]|].
  unfold read_json. destruct (json_field resp) as [e| |a]; simpl;
    by intros [= _ <-].
Qed.

Lemma gemini_operation_frame ext st r st' :
  gemini_operation ext st = (r, st') ->
  st' = set_gemini_calls (S (gemini_calls st)) st.
Proof.
  unfold gemini_operation, bind, fetch_gemini.
  destruct (gemini_endpoint ext (gemini_calls st)) as [e|resp];
    [by intros [= _ <-]|].
  destruct (negb (ok resp)).
  - destruct (status resp =? 503); [by intros [= _ <-]|].
    destruct (status resp =? 429); by intros [= _ <-].
  - unfold read_json. destruct (json_field resp) as [e| |a]; simpl;
      try by intros [= _ <-].
    destruct (String.eqb a EmptyString); by intros [= _ <-].
Qed.

End operations.

(** C7, as the code has it: an error is retryable when its message
    contains 503, 429, 500, overloaded or network, wherever in the message
    and whatever the status of the answer. When the first attempt of a
    retried operation throws an error that [isRetryable] rejects, the
    retried call is that one attempt: it throws the same error and ends
    in the state the attempt ended in, with no further attempt, random
    draw or delay. *)
Theorem retry_surfaces_non_retryable {T} (operation : M T) (maxRetries : nat)
    (baseDelay : Q) (ext : Externals) (st st' : State) (e : JsError) :
  operation ext st = (Thrown e, st') ->
  isRetryable e = false ->
  retryWithBackoff operation maxRetries baseDelay ext st = (Thrown e, st').
Proof. intros H Hr. by apply retry_loop_not_retryable. Qed.

Lemma retry_surfaces_non_retryable_witness :
  retryWithBackoff ChatWithDocuments.embedding_operation 3 1000
    rejected_key_world (fresh [])
  = (Thrown (Error "Embedding API failed: 400 - API key not valid"),
     set_embedding_calls 1 (fresh [])).
Proof.
  apply retry_surfaces_non_retryable; reflexivity.
Defined.

(** C7 as stated fails: the first request for an embedding is answered
    with status 400, which is none of 429, 500 and 503, and the body names
    neither an overload nor the network; but it names a limit of 1500
    tokens, and the message of the error contains 500. The error is not
    surfaced: after a pause a second request is sent, and the retried
    call returns its embedding. *)
Lemma retry_surfaces_non_retryable_counterexample :
  embedding_endpoint token_limit_world 0
  = FetchResolved (mkResponse 400 "Request exceeds 1500 tokens" Absent) /\
  ChatWithDocuments.embedding_operation token_limit_world (fresh [])
  = (Thrown (Error "Embedding API failed: 400 - Request exceeds 1500 tokens"),
     set_embedding_calls 1 (fresh [])) /\
  let run := retryWithBackoff ChatWithDocuments.embedding_operation 3 1000
               token_limit_world (fresh []) in
  fst run = Returned [1 # 2; 1 # 3]%Q /\
  embedding_calls (snd run) = 2%nat /\
  length (timeouts (snd run)) = 1%nat.
Proof. repeat split; vm_compute; reflexivity. Qed.

(** C8, as the code has it: a failure is retryable when the message of
    its error passes [isRetryable], which a 503 of the embedding endpoint
    always does, its message carrying the status. With a budget of 3
    retries, (1) two retryable failures followed by a success make the
    retried call return that success; (2) an embedding endpoint that
    answers 503 twice and then succeeds makes the retried embedding call
    return the embedding after three requests, and no generation provider
    is contacted; (3) when all four attempts fail, the error of the last
    attempt is thrown as it is. *)
Theorem retry_budget_of_three :
  (forall T (operation : M T) baseDelay ext st0 e1 st1 e2 st2 v st3,
     operation ext st0 = (Thrown e1, st1) -> isRetryable e1 = true ->
     operation ext (after_backoff baseDelay 0 ext st1) = (Thrown e2, st2) ->
     isRetryable e2 = true ->
     operation ext (after_backoff baseDelay 1 ext st2) = (Returned v, st3) ->
     retryWithBackoff operation 3 baseDelay ext st0 = (Returned v, st3))
  /\
  (forall ext st raw1 field1 raw2 field2 raw3 values,
     embedding_endpoint ext (embedding_calls st)
       = FetchResolved (mkResponse 503 raw1 field1) ->
     embedding_endpoint ext (S (embedding_calls st))
       = FetchResolved (mkResponse 503 raw2 field2) ->
     embedding_endpoint ext (S (S (embedding_calls st)))
       = FetchResolved (mkResponse 200 raw3 (Present values)) ->
     exists st',
       retryWithBackoff ChatWithDocuments.embedding_operation 3 1000 ext st
         = (Returned values, st') /\
       embedding_calls st' = (embedding_calls st + 3)%nat /\
       gemini_calls st' = gemini_calls st /\
       openai_calls st' = openai_calls st)
  /\
  (forall T (operation : M T) baseDelay ext st0 e1 st1 e2 st2 e3 st3 e4 st4,
     operation ext st0 = (Thrown e1, st1) -> isRetryable e1 = true ->
     operation ext (after_backoff baseDelay 0 ext st1) = (Thrown e2, st2) ->
     isRetryable e2 = true ->
     operation ext (after_backoff baseDelay 1 ext st2) = (Thrown e3, st3) ->
     isRetryable e3 = true ->
     operation ext (after_backoff baseDelay 2 ext st3) = (Thrown e4, st4) ->
     retryWithBackoff operation 3 baseDelay ext st0 = (Thrown e4, st4)).
Proof.
  split; [|split].
  - intros T operation baseDelay ext st0 e1 st1 e2 st2 v st3 H1 R1 H2 R2 H3.
    unfold retryWithBackoff.
    rewrite (retry_loop_retry _ _ _ _ _ _ _ _ _ _ H1 R1) by lia.
    rewrite (retry_loop_retry _ _ _ _ _ _ _ _ _ _ H2 R2) by lia.
    by apply retry_loop_returned.
  - intros ext st raw1 field1 raw2 field2 raw3 values H1 H2 H3.
    eexists. split.
    + unfold retryWithBackoff.
      erewrite retry_loop_retry;
        [| eapply embedding_operation_status; [exact H1|done]
         | apply embedding_failure_retryable | lia].
      erewrite retry_loop_retry;
        [| eapply embedding_operation_status; [exact H2|done]
         | apply embedding_failure_retryable | lia].
      apply retry_loop_returned.
      eapply embedding_operation_values; [exact H3|done].
    + simpl. repeat split; lia.
  - intros T operation baseDelay ext st0 e1 st1 e2 st2 e3 st3 e4 st4
      H1 R1 H2 R2 H3 R3 H4.
    unfold retryWithBackoff.
    rewrite (retry_loop_retry _ _ _ _ _ _ _ _ _ _ H1 R1) by lia.
    rewrite (retry_loop_retry _ _ _ _ _ _ _ _ _ _ H2 R2) by lia.
    rewrite (retry_loop_retry _ _ _ _ _ _ _ _ _ _ H3 R3) by lia.
    by apply retry_loop_last.
Qed.

Lemma retry_budget_of_three_witness :
  (exists st',
     retryWithBackoff ChatWithDocuments.embedding_operation 3 (1 # 10)
       flaky_embedding_world (fresh []) = (Returned [1 # 2; 1 # 3]%Q, st')) /\
  (exists st',
     retryWithBackoff ChatWithDocuments.embedding_operation 3 1000
       flaky_embedding_world (fresh []) = (Returned [1 # 2; 1 # 3]%Q, st') /\
     embedding_calls st' = 3%nat /\ gemini_calls st' = 0%nat /\
     openai_calls st' = 0%nat) /\
  (exists st',
     retryWithBackoff ChatWithDocuments.embedding_operation 3 1000
       embedding_down_world (fresh [])
     = (Thrown (Error "Embedding API failed: 503 - Service Unavailable"), st')
     /\ embedding_calls st' = 4%nat).
Proof.
  destruct retry_budget_of_three as (Hgeneric & Hembed & Hlast).
  split; [|split].
  - eexists.
    eapply (Hgeneric _ ChatWithDocuments.embedding_operation (1 # 10)%Q
              flaky_embedding_world (fresh [])); lazy; reflexivity.
  - apply (Hembed flaky_embedding_world (fresh []) "Service Unavailable" Absent
             "Service Unavailable" Absent EmptyString); reflexivity.
  - eexists. split.
    + eapply (Hlast _ ChatWithDocuments.embedding_operation 1000%Q
                embedding_down_world (fresh [])); lazy; reflexivity.
    + reflexivity.
Defined.

(** C8 as stated fails for the generation call, whose budget is 3: the
    primary answers 503, 503 and then 200, so the operation fails on its
    first two attempts and succeeds on the third; but a 503 is thrown as
    [GEMINI_OVERLOADED:] followed by the body, a message that contains
    none of the words [isRetryable] looks for unless the body does. The
    retried call throws the first error after one request. *)
Lemma retry_budget_of_three_counterexample :
  gemini_endpoint flaky_primary_world 0
  = FetchResolved (mkResponse 503 "Service Unavailable" Absent) /\
  gemini_endpoint flaky_primary_world 1
  = FetchResolved (mkResponse 503 "Service Unavailable" Absent) /\
  gemini_endpoint flaky_primary_world 2
  = FetchResolved (mkResponse 200 EmptyString (Present "Forty-two.")) /\
  gemini_operation flaky_primary_world (set_gemini_calls 2 (fresh []))
  = (Returned "Forty-two.", set_gemini_calls 3 (fresh [])) /\
  retryWithBackoff gemini_operation 3 1000 flaky_primary_world (fresh [])
  = (Thrown (Error "GEMINI_OVERLOADED: Service Unavailable"),
     set_gemini_calls 1 (fresh [])).
Proof. repeat split; vm_compute; reflexivity. Qed.

(** C9, as the code has it: the delay before retry [k] (counted from 0)
    is [baseDelay * 2^k] plus a jitter that is [Math.random() * 1000],
    so at least 0 and below 1000 milliseconds whatever [baseDelay] is;
    and it is the delay the loop waits for after a retryable failure of
    attempt [k], with the value [Math.random()] returns then. *)
Theorem backoff_delay_jitter (baseDelay : Q) (k : nat) (r : Q) :
  (0 <= r)%Q -> (r < 1)%Q ->
  let jitter := (backoff_delay baseDelay k r - baseDelay * 2 ^ Z.of_nat k)%Q in
  ((jitter == r * 1000)%Q /\ (0 <= jitter)%Q /\ (jitter < 1000)%Q) /\
  forall T (operation : M T) maxRetries it lastError ext st e st1,
    operation ext st = (Thrown e, st1) -> isRetryable e = true ->
    k <> maxRetries ->
    exists st2,
      retry_loop operation maxRetries baseDelay (S it) k lastError ext st
      = retry_loop operation maxRetries baseDelay it (S k) (Some e) ext st2 /\
      timeouts st2
      = timeouts st1
        ++ [backoff_delay baseDelay k (random ext (random_calls st1))].
Proof.
  intros H0 H1. simpl. split.
  - assert (backoff_delay baseDelay k r - baseDelay * 2 ^ Z.of_nat k
            == r * 1000)%Q as E.
    { unfold backoff_delay. rewrite Zpower_Qpower by lia.
      change (inject_Z 2) with 2%Q. generalize (2 ^ Z.of_nat k)%Q.
      intros p. ring. }
    rewrite E. split; [reflexivity|]. split; lra.
  - intros T operation maxRetries it lastError ext st e st1 H Hr Hk.
    exists (after_backoff baseDelay k ext st1). split; [|done].
    exact (retry_loop_retry operation maxRetries baseDelay it k lastError ext
             st e st1 H Hr Hk).
Qed.

Lemma backoff_delay_jitter_witness :
  let jitter := (backoff_delay 1000 2 (1 # 4) - 1000 * 2 ^ Z.of_nat 2)%Q in
  (jitter == (1 # 4) * 1000)%Q /\ (0 <= jitter)%Q /\ (jitter < 1000)%Q.
Proof.
  apply (backoff_delay_jitter 1000 2 (1 # 4)); by vm_compute.
Defined.

(** C9 as stated fails: with a base delay of 1 and a draw of 1/2 the
    jitter is 500, more than one base delay. *)
Lemma backoff_delay_jitter_counterexample :
  (0 <= 1 # 2)%Q /\ (1 # 2 < 1)%Q /\
  ~ (backoff_delay 1 0 (1 # 2) - 1 * 2 ^ Z.of_nat 0 <= 1)%Q.
Proof. repeat split; [done..|]. vm_compute. intros H. by apply H. Qed.

(* ===================================================================== *)
(** * 13. Properties of the generation client *)
(* ===================================================================== *)

(** The primary never contacts the secondary. *)
Lemma callGeminiAPI_openai_calls prompt key ext st r st' :
  callGeminiAPI prompt key ext st = (r, st') ->
  openai_calls st' = openai_calls st.
Proof.
  apply (retryWithBackoff_rel gemini_operation (same openai_calls)).
  - intros ???? ->%gemini_operation_frame. done.
  - done.
Qed.

(** A call of the primary sends at least one request to it. *)
Lemma callGeminiAPI_gemini_calls prompt key ext st r st' :
  callGeminiAPI prompt key ext st = (r, st') ->
  (gemini_calls st < gemini_calls st')%nat.
Proof.
  unfold callGeminiAPI, retryWithBackoff.
  destruct (gemini_operation ext st) as [[v|e] st1] eqn:E.
  { rewrite (retry_loop_returned _ _ _ _ _ _ _ _ _ _ E). intros [= _ <-].
    apply gemini_operation_frame in E as ->. simpl. lia. }
  destruct (isRetryable e) eqn:Hr.
  2:{ rewrite (retry_loop_not_retryable _ _ _ _ _ _ _ _ _ _ E Hr).
      intros [= _ <-]. apply gemini_operation_frame in E as ->. simpl. lia. }
  rewrite (retry_loop_retry _ _ _ _ _ _ _ _ _ _ E Hr) by lia.
  intros H.
  apply (retry_loop_rel gemini_operation (calls_grow gemini_calls)) in H.
  - apply gemini_operation_frame in E as ->.
    unfold calls_grow in H. simpl in H. lia.
  - intros ???? ->%gemini_operation_frame. unfold calls_grow. simpl. lia.
  - intros. unfold calls_grow. simpl. lia.
Qed.

(** [generateAIResponse] when the key of the primary is configured. *)
Lemma generateAIResponse_primary prompt ext st :
  configured (GOOGLE_GEMINI_API_KEY ext) = true ->
  generateAIResponse prompt ext st =
  match callGeminiAPI prompt (default EmptyString (GOOGLE_GEMINI_API_KEY ext)) ext st with
  | (Returned r, st1) => (Returned (mkAIResult r "Gemini"), st1)
  | (Thrown e, st1) =>
      if overloaded_or_rate_limited e && configured (OPENAI_API_KEY ext) then
        match callOpenAIFallback prompt (default EmptyString (OPENAI_API_KEY ext)) ext st1
        with
        | (Returned r2, st2) => (Returned (mkAIResult r2 "OpenAI (fallback)"), st2)
        | (Thrown _, st2) => (Thrown e, st2)
        end
      else (Thrown e, st1)
  end.
Proof.
  intros Hk. unfold generateAIResponse, bind at 1, externals. rewrite Hk.
  unfold try_catch at 1, bind at 1.
  destruct (callGeminiAPI _ _ ext st) as [[r|e] st1]; [done|].
  destruct (overloaded_or_rate_limited e); [|done]. simpl.
  destruct (configured (OPENAI_API_KEY ext)); [|done].
  unfold try_catch, bind.
  by destruct (callOpenAIFallback _ _ ext st1) as [[r2|e2] st2].
Qed.

(** C6, as the code has it: when the key of the primary is configured,
    (0) the primary is called first: its call sends at least one request
    to the primary and none to the secondary. (1) If the primary answers,
    the answer is returned marked [Gemini]. (2) If it fails with an error
    that names GEMINI_OVERLOADED or GEMINI_RATE_LIMITED and the secondary
    is configured, the secondary is called, and an answer of the secondary
    is returned marked [OpenAI (fallback)]; (3) when the secondary fails
    too, the error of the primary is thrown. (4) Any other failure of the
    primary is thrown as it is, in the state the primary left. *)
Theorem generateAIResponse_failover (prompt : string) (ext : Externals)
    (st : State) :
  configured (GOOGLE_GEMINI_API_KEY ext) = true ->
  let primary := callGeminiAPI prompt (default EmptyString (GOOGLE_GEMINI_API_KEY ext)) in
  let secondary := callOpenAIFallback prompt (default EmptyString (OPENAI_API_KEY ext)) in
  (forall r st1, primary ext st = (r, st1) ->
     (gemini_calls st < gemini_calls st1)%nat /\
     openai_calls st1 = openai_calls st)
  /\
  (forall r st1, primary ext st = (Returned r, st1) ->
     generateAIResponse prompt ext st = (Returned (mkAIResult r "Gemini"), st1))
  /\
  (forall e st1 r2 st2, primary ext st = (Thrown e, st1) ->
     overloaded_or_rate_limited e = true ->
     configured (OPENAI_API_KEY ext) = true ->
     secondary ext st1 = (Returned r2, st2) ->
     generateAIResponse prompt ext st
       = (Returned (mkAIResult r2 "OpenAI (fallback)"), st2))
  /\
  (forall e st1 e2 st2, primary ext st = (Thrown e, st1) ->
     overloaded_or_rate_limited e = true ->
     configured (OPENAI_API_KEY ext) = true ->
     secondary ext st1 = (Thrown e2, st2) ->
     generateAIResponse prompt ext st = (Thrown e, st2))
  /\
  (forall e st1, primary ext st = (Thrown e, st1) ->
     overloaded_or_rate_limited e = false ->
     generateAIResponse prompt ext st = (Thrown e, st1)).
Proof.
  intros Hk primary secondary. subst primary secondary.
  pose proof (generateAIResponse_primary prompt ext st Hk) as G.
  split; [|split; [|split; [|split]]].
  - intros r st1 H. split.
    + by eapply callGeminiAPI_gemini_calls.
    + by eapply callGeminiAPI_openai_calls.
  - intros r st1 H. by rewrite G, H.
  - intros e st1 r2 st2 H Hc Ho H2. rewrite G, H, Hc, Ho. simpl. by rewrite H2.
  - intros e st1 e2 st2 H Hc Ho H2. rewrite G, H, Hc, Ho. simpl. by rewrite H2.
  - intros e st1 H Hc. by rewrite G, H, Hc.
Qed.

Lemma generateAIResponse_failover_witness :
  exists st2,
    generateAIResponse "What is the refund policy?" primary_overloaded_world
      (fresh [])
    = (Returned (mkAIResult "Forty-two." "OpenAI (fallback)"), st2).
Proof.
  assert (configured (GOOGLE_GEMINI_API_KEY primary_overloaded_world) = true)
    as Hk by reflexivity.
  destruct (generateAIResponse_failover "What is the refund policy?"
              primary_overloaded_world (fresh []) Hk) as (_ & _ & Hfallback & _).
  eexists. eapply Hfallback; lazy; reflexivity.
Defined.

(** C6 as stated fails: the primary is overloaded, a secondary is
    configured, and no answer comes from the secondary, which fails too;
    the caller gets the error of the primary. *)
Lemma generateAIResponse_counterexample :
  configured (GOOGLE_GEMINI_API_KEY both_down_world) = true /\
  configured (OPENAI_API_KEY both_down_world) = true /\
  exists e st1 st2,
    callGeminiAPI "What is the refund policy?" "gemini-key" both_down_world
      (fresh []) = (Thrown e, st1) /\
    overloaded_or_rate_limited e = true /\
    generateAIResponse "What is the refund policy?" both_down_world (fresh [])
    = (Thrown e, st2).
Proof.
  split; [reflexivity|]. split; [reflexivity|].
  eexists _, _, _. split; [vm_compute; reflexivity|].
  split; vm_compute; reflexivity.
Qed.

(* ===================================================================== *)
(** * 14. Properties of the chat function *)
(* ===================================================================== *)

Lemma not_options (m : string) :
  m <> "OPTIONS" -> String.eqb m "OPTIONS" = false.
Proof. intros H. by apply String.eqb_neq. Qed.

Section request_body.
Context {B : Type}.

Lemma req_json_fresh (b : B) ext st :
  bodyUsed st = false ->
  req_json (Some b) ext st = (Returned b, set_bodyUsed true st).
Proof. intros H. unfold req_json, bind, get. by rewrite H. Qed.

(** A second [req.json()] throws. *)
Lemma req_json_used (body : option B) ext st :
  bodyUsed st = true ->
  req_json body ext st = (Thrown (Error "Body already consumed."), st).
Proof. intros H. unfold req_json, bind, get. by rewrite H. Qed.

Lemma req_json_frame (body : option B) ext st r st' :
  req_json body ext st = (r, st') ->
  bodyUsed st' = true /\ documents st' = documents st /\
  (forall b, r = Returned b -> body = Some b).
Proof.
  unfold req_json, bind, get. destruct (bodyUsed st) eqn:E.
  - intros [= <- <-]. done.
  - destruct body; intros [= <- <-]; repeat split; try done. by intros ? [= ->].
Qed.

End request_body.

Lemma embedding_retry_chat_messages n b ext st r st' :
  retryWithBackoff ChatWithDocuments.embedding_operation n b ext st = (r, st') ->
  chat_messages st' = chat_messages st.
Proof.
  apply (retryWithBackoff_rel _ (same chat_messages)).
  - intros ???? ->%embedding_operation_frame. done.
  - done.
Qed.

(** C1, what the code does: when the query is embedded and the retrieval
    step yields no chunk, [serve] returns, without throwing, status 200
    with the fixed "no relevant documents" response and no source; the
    table of chat messages is left as it was, no assistant message being
    recorded on this path. *)
Theorem serve_no_chunks_records_nothing (req : ChatWithDocuments.Request)
    (ext : Externals) (st st1 : State) (json : ChatWithDocuments.Body)
    (queryEmbedding : list Q) :
  ChatWithDocuments.method req <> "OPTIONS" ->
  bodyUsed st = false ->
  ChatWithDocuments.body req = Some json ->
  configured (GOOGLE_GEMINI_API_KEY ext) = true ->
  retryWithBackoff ChatWithDocuments.embedding_operation 3 1000 ext
    (set_bodyUsed true st) = (Returned queryEmbedding, st1) ->
  ChatWithDocuments.retrieve queryEmbedding (ChatWithDocuments.userId json)
    ext st1 = (Returned [], st1) ->
  ChatWithDocuments.serve req ext st
  = (Returned (ChatWithDocuments.mkResponse 200
                 (Some ChatWithDocuments.no_documents_response) (Some [])
                 None None), st1) /\
  chat_messages st1 = chat_messages st.
Proof.
  intros Hm Hu Hb Hk He Hr. split.
  - unfold ChatWithDocuments.serve. rewrite not_options by done.
    unfold try_catch. unfold bind at 1. rewrite Hb, req_json_fresh by done.
    unfold bind at 1, externals. rewrite Hk. cbn [negb].
    unfold bind at 1. rewrite He. unfold bind at 1. rewrite Hr.
    by rewrite bool_decide_eq_true_2.
  - by apply embedding_retry_chat_messages in He.
Qed.

Lemma serve_no_chunks_records_nothing_witness :
  ChatWithDocuments.serve question empty_library_world (fresh [])
  = (Returned (ChatWithDocuments.mkResponse 200
                 (Some ChatWithDocuments.no_documents_response) (Some [])
                 None None),
     set_embedding_calls 1 (set_bodyUsed true (fresh []))) /\
  chat_messages (set_embedding_calls 1 (set_bodyUsed true (fresh [])))
  = chat_messages (fresh []).
Proof.
  apply (serve_no_chunks_records_nothing question empty_library_world (fresh [])
           _ (ChatWithDocuments.mkBody "s1" "What is the refund policy?" "u1")
           [1 # 2; 1 # 3]%Q);
    first [reflexivity | discriminate].
Defined.

(** The neighbouring path does record its message: chunks whose contents
    are all empty give the "no document content" response and one
    assistant message. *)
Example serve_empty_context_records :
  let ext := mkExternals (Some "key") None
               (always 200 EmptyString (Present [1 # 2]%Q)) unreachable unreachable
               (fun _ => 0%Q) (fun n => pretty n) (fun _ => None)
               (fun _ => None)
               (fun _ _ => mkQueryResult (Some [mkRetrieved EmptyString 1 None]) None)
               (fun _ => no_rows) in
  exists st',
    ChatWithDocuments.serve question ext (fresh [])
    = (Returned (ChatWithDocuments.mkResponse 200
                   (Some ChatWithDocuments.generalResponse) (Some [])
                   None None), st') /\
    chat_messages st'
    = [mkChatMessage "s1" "assistant" ChatWithDocuments.generalResponse []].
Proof. eexists. split; vm_compute; reflexivity. Qed.

(* ===================================================================== *)
(** * 15. Properties of the ingestion function *)
(* ===================================================================== *)

Section ingestion.
Import ProcessDocument.




(** The request body being read already, the [catch] block changes
    nothing. *)
Lemma report_failure_used req error ext st :
  bodyUsed st = true ->
  report_failure req error ext st
  = (Returned (mkResponse 500 (Failure (message error))), st).
Proof.
  intros H. unfold report_failure, bind, try_catch.
  by rewrite (req_json_used _ _ _ H).
Qed.

Lemma length_paged_chunks extracted totalPages :
  length (paged_chunks extracted totalPages)
  = length (chunkText extracted 1000 200).
Proof. unfold paged_chunks. apply length_imap. Qed.

(** Marking a document completed satisfies the constraint on [status]. *)
Lemma mark_completed_checked documentId n p (table : list Document) :
  forallb (fun d => negb (bool_decide (doc_id d = documentId))
                    || check_status (mark_completed n p d)) table = true.
Proof. apply forallb_forall. intros d _. apply orb_true_r. Qed.

(** Marking a document failed does not: [failed] is none of the four
    values of the constraint. *)
Lemma mark_failed_rejected d : check_status (mark_failed d) = false.
Proof. reflexivity. Qed.




End ingestion.




(** Why the row is not touched in that run: the [catch] block reads the
    request body a second time, which throws; and the update it is after
    would be refused by the constraint on [status]. *)
Example failure_handler_slips :
  req_json (ProcessDocument.body upload) scanned_pdf_world
    (set_bodyUsed true (fresh [pending_document]))
  = (Thrown (Error "Body already consumed."),
     set_bodyUsed true (fresh [pending_document])) /\
  ProcessDocument.update_document "d1" ProcessDocument.mark_failed
    scanned_pdf_world (fresh [pending_document])
  = (Returned
       (Some (Error "new row violates check constraint documents_status_check")),
     fresh [pending_document]).
Proof. split; reflexivity. Qed.



(* ===================================================================== *)
(** * 16. Properties of retrieval *)
(* ===================================================================== *)

(** C3: a call of [match_documents] returns no rows. Whatever the distance
    operator, the two tables, the query embedding, the threshold, the
    limit and the caller ([NULL] included), it raises the error 42702:
    the bare [user_id] of its [WHERE] clause is a parameter of the
    function and a column of both tables of the [FROM] clause, so the
    reference is ambiguous. It is the only reference of the query that
    does not resolve, and the [user_id] that the same line qualifies with
    the name of the function is the parameter. *)
Theorem match_documents_raises (cosine_distance : list Q -> list Q -> Q)
    (documents : list Document) (document_chunks : list ChunkRow)
    (query_embedding : list Q) (match_threshold : Q) (match_count : Z)
    (user_id : option string) :
  Retrieval.match_documents cosine_distance documents document_chunks
    query_embedding match_threshold match_count user_id
  = inl (Retrieval.ambiguous_column "user_id") /\
  Retrieval.resolve (Retrieval.Unqualified "user_id")
  = inl (Retrieval.ambiguous_column "user_id") /\
  Retrieval.resolve (Retrieval.Qualified "match_documents" "user_id")
  = inr (Retrieval.OfFunction "user_id") /\
  Forall (fun ref => ref = Retrieval.Unqualified "user_id" \/
                     exists target, Retrieval.resolve ref = inr target)
         Retrieval.references.
Proof.
  split; [reflexivity|]. split; [reflexivity|]. split; [reflexivity|].
  unfold Retrieval.references.
  repeat (apply Forall_cons; split;
          [first [by left | right; eexists; reflexivity]|]).
  apply Forall_nil_2.
Qed.

(** The call of the chat function for the user [u1], over a library in
    which [u1] has a completed document with two chunks. *)
Example match_documents_library :
  Retrieval.match_documents squared_distance library library_chunks
    [1; 0]%Q (1 # 2) 5 (Some "u1")
  = inl (Retrieval.ambiguous_column "user_id").
Proof. vm_compute. reflexivity. Qed.

(* ===================================================================== *)
(** * 17. More properties of the chunker *)
(* ===================================================================== *)

Section lengths.

Lemma len_app (a b : text) : len (a ++ b) = len a + len b.
Proof. unfold len. rewrite length_app. lia. Qed.

Lemma len_nonneg (a : text) : 0 <= len a.
Proof. unfold len. lia. Qed.

Lemma len_pos_nonempty (s : text) : ~ len s > 0 -> s = [].
Proof. destruct s; [done|]. unfold len. simpl. lia. Qed.

Lemma len_slice_neg s k : 0 < k -> len (slice s (- k)) = Z.min k (len s).
Proof.
  intros Hk. rewrite slice_neg_last_chars by done.
  unfold last_chars, len. rewrite length_drop. lia.
Qed.

(** [s.slice(-0)] is [s.slice(0)]: all of [s]. *)
Lemma slice_zero s : slice s (- 0) = s.
Proof.
  unfold slice. simpl. rewrite Z.min_l by apply len_nonneg. apply drop_0.
Qed.

Lemma length_trimStart s : (length (trimStart s) <= length s)%nat.
Proof.
  induction s as [|c s IH]; simpl; [lia|]. destruct (is_ws c); simpl; lia.
Qed.

Lemma len_trim s : len (trim s) <= len s.
Proof.
  unfold trim, trimEnd, len. rewrite length_reverse.
  pose proof (length_trimStart (reverse (trimStart s))) as H1.
  rewrite length_reverse in H1. pose proof (length_trimStart s). lia.
Qed.

End lengths.

Section infixes.

Lemma infix_prefix x a b : infix x a -> a `prefix_of` b -> infix x b.
Proof.
  intros (l & r & ->) [k ->]. exists l, (r ++ k). by rewrite <- !(assoc_L (++)).
Qed.

Lemma infix_suffix x a : x `suffix_of` a -> infix x a.
Proof. intros [k ->]. exists k, []. by rewrite (right_id_L [] (++)). Qed.

Lemma infix_app_r x a k : infix x a -> infix x (k ++ a).
Proof. intros (l & r & ->). exists (k ++ l), r. by rewrite <- (assoc_L (++)). Qed.

Lemma infix_trans x y z : infix x y -> infix y z -> infix x z.
Proof.
  intros (l & r & ->) (l' & r' & ->). exists (l' ++ l), (r ++ r').
  by rewrite <- !(assoc_L (++)).
Qed.

Lemma infix_len x a : infix x a -> len x <= len a.
Proof.
  intros (l & r & ->). rewrite !len_app.
  pose proof (len_nonneg l). pose proof (len_nonneg r). lia.
Qed.

Lemma infix_nil_inv x : infix x [] -> x = [].
Proof.
  intros (l & r & H). symmetry in H.
  apply app_eq_nil in H as [_ H]. by apply app_eq_nil in H as [? _].
Qed.

End infixes.

Section trim_shape.

Lemma trimEnd_prefix x : trimEnd x `prefix_of` x.
Proof.
  unfold trimEnd. destruct (trimStart_split (reverse x)) as (w & Hx & _).
  exists (reverse w).
  rewrite <- reverse_app, <- Hx. by rewrite reverse_involutive.
Qed.

Lemma trimStart_suffix x : trimStart x `suffix_of` x.
Proof. destruct (trimStart_split x) as (w & Hx & _). by exists w. Qed.

Lemma trim_infix x : infix (trim x) x.
Proof.
  unfold trim. destruct (trimEnd_prefix (trimStart x)) as [k Hk].
  destruct (trimStart_suffix x) as [w Hw].
  exists w, k. by rewrite <- Hk.
Qed.

Lemma trim_head s : trim s <> [] -> head_nonws (trim s).
Proof.
  intros Hne. unfold trim in *.
  destruct (trimEnd_prefix (trimStart s)) as [k Hk].
  destruct (trimEnd (trimStart s)) as [|c r] eqn:E; [done|].
  exists c, r. split; [done|]. simpl in Hk.
  by eapply trimStart_head.
Qed.

Lemma suffix_trimStart_app a b :
  head_nonws b -> b `suffix_of` trimStart (a ++ b).
Proof.
  intros (c & r & -> & Hc). induction a as [|d a IH]; simpl.
  - by rewrite Hc.
  - destruct (is_ws d); [exact IH|]. by exists (d :: a).
Qed.

Lemma trim_idemp x : trim (trim x) = trim x.
Proof.
  destruct (decide (trim x = [])) as [E|Hne]; [by rewrite E|].
  pose proof (trim_nonempty_ends_nonws _ Hne) as He.
  destruct (trim_head _ Hne) as (c & r & Hc & Hws).
  rewrite (trim_ends_nonws _ He), Hc. by apply trimStart_nonws.
Qed.

Lemma trimStart_app_nonws y k :
  ends_nonws y -> trimStart (y ++ k) = trimStart y ++ k.
Proof.
  intros (y' & c & -> & Hc). induction y' as [|d y' IH]; simpl.
  - by rewrite Hc.
  - destruct (is_ws d); [apply IH|done].
Qed.

Lemma trimEnd_snoc_ws a w : is_ws w = true -> trimEnd (a ++ [w]) = trimEnd a.
Proof.
  intros Hw. unfold trimEnd. rewrite reverse_app. simpl.
  change (reverse [w]) with [w]. simpl. by rewrite Hw.
Qed.

End trim_shape.

(** ** White space only *)

Lemma collapse_ws_run s :
  forallb is_ws s = true -> collapse_ws_from true s = [].
Proof.
  induction s as [|c s IH]; simpl; [done|].
  intros [Hc Hs]%andb_true_iff. rewrite Hc. auto.
Qed.

Lemma cleanText_blank t :
  t <> [] -> forallb is_ws t = true -> cleanText t = [].
Proof.
  destruct t as [|c t]; [done|]. intros _. simpl.
  intros [Hc Ht]%andb_true_iff.
  unfold cleanText, collapse_ws. simpl. rewrite Hc, collapse_ws_run by done.
  reflexivity.
Qed.

(** X1: a text that is not empty and holds white space only is not
    turned into an empty list of chunks: for every chunk size that is not
    negative, [chunkText] returns one chunk, whose content is the empty
    string. *)
Theorem chunkText_blank (t : text) (maxChunkSize overlap : Z) :
  t <> [] -> forallb is_ws t = true -> 0 <= maxChunkSize ->
  chunkText t maxChunkSize overlap = [mkChunk [] 0 0].
Proof.
  intros Ht Hws Hm. unfold chunkText.
  rewrite bool_decide_eq_false_2.
  2:{ destruct t; [done|]. unfold len. simpl. lia. }
  rewrite cleanText_blank by done.
  by rewrite bool_decide_eq_true_2.
Qed.

Lemma chunkText_blank_witness :
  chunkText blank_page 1000 200 = [mkChunk [] 0 0].
Proof.
  apply chunkText_blank; [discriminate | reflexivity | lia].
Defined.

(** ** No sentence is lost *)

Section kept_sentences.
Context (m o : Z).

Lemma sentence_shape s :
  0 < len (trim s) -> ends_nonws (trim s) /\ head_nonws (trim s).
Proof.
  intros Hs. assert (trim s <> []) as Hne.
  { intros E. rewrite E in Hs. pose proof len_nil_not_pos. lia. }
  split; [by apply trim_nonempty_ends_nonws|by apply trim_head].
Qed.

Lemma chunk_step_cur st s :
  0 < len (trim s) ->
  ends_nonws (currentChunk (chunk_step m o st s)) /\
  trim s `suffix_of` trimStart (currentChunk (chunk_step m o st s)).
Proof.
  intros [He Hh]%sentence_shape. unfold chunk_step.
  case_bool_decide; cbn [currentChunk].
  - split; [by apply ends_nonws_app, ends_nonws_app|].
    rewrite (assoc_L (++)). by apply suffix_trimStart_app.
  - split; [by apply ends_nonws_app, ends_nonws_app|].
    rewrite (assoc_L (++)). by apply suffix_trimStart_app.
Qed.

Lemma chunk_step_kept st s x :
  currentChunk st = [] \/ ends_nonws (currentChunk st) ->
  kept x st -> kept x (chunk_step m o st s).
Proof.
  intros Hcur [(c & Hc & Hx)|Hx]; unfold chunk_step, kept;
    case_bool_decide as Hsplit; cbn [chunks currentChunk].
  - left. exists c. split; [|done]. apply elem_of_app. by left.
  - left. by exists c.
  - left. destruct Hsplit as [_ Hpos].
    destruct Hcur as [E|Hcur];
      [rewrite E in Hpos; by apply len_nil_not_pos in Hpos|].
    eexists. split; [apply elem_of_app; right; apply list_elem_of_here|].
    simpl. by rewrite trim_ends_nonws.
  - right. eapply infix_prefix; [exact Hx|].
    apply prefix_trimStart. by apply prefix_app_r.
Qed.

Lemma fold_kept ss st :
  Forall (fun s => 0 < len (trim s)) ss ->
  currentChunk st = [] \/ ends_nonws (currentChunk st) ->
  let st' := fold_left (chunk_step m o) ss st in
  (currentChunk st' = [] \/ ends_nonws (currentChunk st')) /\
  (forall x, kept x st -> kept x st') /\
  (forall s, s ∈ ss -> kept (trim s) st').
Proof.
  intros Hss. revert st. induction Hss as [|s ss Hs _ IH]; intros st Hcur; simpl.
  - split; [done|]. split; [done|]. by intros s ?%elem_of_nil.
  - destruct (chunk_step_cur st s Hs) as [He Hsuf].
    destruct (IH (chunk_step m o st s) (or_intror He)) as (Hcur' & Hold & Hnew).
    split; [done|]. split.
    + intros x Hx. by apply Hold, chunk_step_kept.
    + intros s' [->|Hs']%elem_of_cons; [|by apply Hnew].
      apply Hold. right. by apply infix_suffix.
Qed.

Lemma push_last_kept st x :
  currentChunk st = [] \/ ends_nonws (currentChunk st) ->
  x <> [] -> kept x st ->
  exists c, c ∈ push_last st /\ infix x (content c).
Proof.
  intros Hcur Hx [(c & Hc & Hin)|Hin]; unfold push_last.
  - exists c. split; [|done]. case_bool_decide; [|done].
    apply elem_of_app. by left.
  - destruct Hcur as [E|Hcur].
    { rewrite E in Hin. by apply infix_nil_inv in Hin. }
    rewrite bool_decide_eq_true_2.
    2:{ rewrite trim_ends_nonws by done.
        apply trimStart_ends_nonws in Hcur as (s' & c & -> & _).
        rewrite len_app. pose proof (len_nonneg s').
        change (len [c]) with 1. lia. }
    eexists. split; [apply elem_of_app; right; apply list_elem_of_here|].
    simpl. by rewrite trim_ends_nonws.
Qed.

Lemma accumulated_keeps clean s :
  s ∈ sentences clean ->
  exists c, c ∈ accumulated_chunks clean m o /\ infix (trim s) (content c).
Proof.
  intros Hs. unfold accumulated_chunks.
  destruct (fold_kept (sentences clean) (mkChunkLoop [] [] 0)
              (sentences_nonempty clean) (or_introl eq_refl))
    as (Hcur & _ & Hnew).
  apply push_last_kept; [done| |by apply Hnew].
  pose proof (sentences_nonempty clean) as Hne.
  eapply Forall_forall in Hne; [|exact Hs]. simpl in Hne.
  intros E. rewrite E in Hne. pose proof len_nil_not_pos. lia.
Qed.

End kept_sentences.

Lemma split_sentences_infix s piece prev in_sep p :
  (in_sep = true -> piece = []) ->
  p ∈ split_sentences_from piece prev in_sep s -> infix p (piece ++ s).
Proof.
  revert piece prev in_sep.
  induction s as [|c s IH]; intros piece prev in_sep Hsep; simpl.
  - intros ->%list_elem_of_singleton. exists [], [].
    by rewrite !(right_id_L [] (++)).
  - destruct (is_ws c).
    + destruct in_sep.
      * rewrite (Hsep eq_refl). intros Hp. apply IH in Hp; [|done].
        simpl in *. by apply (infix_app_r _ _ [c]).
      * destruct (from_option is_terminal false prev).
        -- intros [->|Hp]%elem_of_cons.
           ++ exists [], (c :: s). done.
           ++ apply IH in Hp; [|done]. simpl in Hp.
              by apply (infix_app_r _ _ (piece ++ [c])) in Hp;
                rewrite <- (assoc_L (++)) in Hp.
        -- intros Hp. apply IH in Hp; [|done].
           by rewrite <- (assoc_L (++)) in Hp.
    + intros Hp. apply IH in Hp; [|done]. by rewrite <- (assoc_L (++)) in Hp.
Qed.

(** X2: no long sentence is lost. Whatever the chunk size and the
    overlap, every sentence of the normalised text whose trimmed length
    exceeds 50 occurs, trimmed and unbroken, in the content of a chunk of
    the output. *)
Theorem chunkText_keeps_long_sentences (t : text) (maxChunkSize overlap : Z)
    (s : text) :
  s ∈ sentences (cleanText t) -> 50 < len (trim s) ->
  exists c, c ∈ chunkText t maxChunkSize overlap /\ infix (trim s) (content c).
Proof.
  intros Hs Hlong. unfold chunkText.
  case_bool_decide as Ht.
  { assert (t = []) as -> by (apply len_pos_nonempty; lia).
    vm_compute in Hs. by apply elem_of_nil in Hs. }
  case_bool_decide as Hfit.
  - eexists. split; [apply list_elem_of_here|]. simpl.
    eapply infix_trans; [apply trim_infix|].
    apply list_elem_of_filter in Hs as [_ Hs].
    by apply split_sentences_infix in Hs.
  - destruct (accumulated_keeps maxChunkSize overlap (cleanText t) s Hs)
      as (c & Hc & Hin).
    exists c. split; [|done]. apply list_elem_of_filter. split; [|done].
    apply infix_len in Hin. lia.
Qed.

Lemma chunkText_keeps_long_sentences_witness :
  exists c,
    c ∈ chunkText split_example 1000 200 /\
    infix (trim (replicate 300 99%N ++ str ".")) (content c).
Proof.
  apply (chunkText_keeps_long_sentences split_example 1000 200
           (replicate 300 99%N ++ str ".")).
  - vm_compute. right. left.
  - by vm_compute.
Defined.

(** ** The normalised text *)

Section normal_form.

Lemma collapse_normal b s : normal_from b (collapse_ws_from b s).
Proof.
  revert b. induction s as [|c s IH]; intros b; simpl; [done|].
  destruct (is_ws c) eqn:E.
  - destruct b; [apply IH|]. simpl. split; [done|]. split; [done|apply IH].
  - simpl. rewrite E. apply IH.
Qed.

Lemma normal_prefix b x y : normal_from b (x ++ y) -> normal_from b x.
Proof.
  revert b. induction x as [|c x IH]; intros b; simpl; [done|].
  destruct (is_ws c); [|apply IH]. intros (? & ? & ?). eauto.
Qed.

Lemma normal_trimStart b s : normal_from b s -> normal_from false (trimStart s).
Proof.
  revert b. induction s as [|c s IH]; intros b; simpl; [done|].
  destruct (is_ws c) eqn:E.
  - intros (_ & _ & H). eauto.
  - intros H. simpl. by rewrite E.
Qed.

Lemma normal_trim s : normal_from false s -> normal_from false (trim s).
Proof.
  intros H%normal_trimStart. unfold trim.
  destruct (trimEnd_prefix (trimStart s)) as [k Hk]. rewrite Hk in H.
  by eapply normal_prefix.
Qed.

Lemma collapse_normal_id b s : normal_from b s -> collapse_ws_from b s = s.
Proof.
  revert b. induction s as [|c s IH]; intros b; simpl; [done|].
  destruct (is_ws c).
  - intros (-> & -> & H). f_equal. auto.
  - intros H. f_equal. auto.
Qed.

Lemma normal_spaces b s :
  normal_from b s -> Forall (fun c => is_ws c = true -> c = SPACE) s.
Proof.
  revert b. induction s as [|c s IH]; intros b; simpl; [constructor|].
  destruct (is_ws c) eqn:E.
  - intros (-> & _ & H). constructor; [done|eauto].
  - intros H. constructor; [congruence|eauto].
Qed.

Lemma normal_no_double b s i c d :
  normal_from b s -> s !! i = Some c -> s !! S i = Some d ->
  is_ws c = true -> is_ws d = false.
Proof.
  revert b i. induction s as [|x s IH]; intros b i; [done|].
  destruct i as [|i]; simpl.
  - intros H [= ->] Hd Hc. rewrite Hc in H. destruct H as (_ & _ & H).
    destruct s as [|y s]; simplify_eq/=.
    destruct (is_ws d); [|done]. by destruct H as (_ & ? & _).
  - destruct (is_ws x).
    + intros (_ & _ & H). by apply (IH true).
    + by apply (IH false).
Qed.

Lemma length_collapse b s : (length (collapse_ws_from b s) <= length s)%nat.
Proof.
  revert b. induction s as [|c s IH]; intros b; simpl; [lia|].
  pose proof (IH true). pose proof (IH false).
  destruct (is_ws c); [destruct b|]; simpl; lia.
Qed.

Lemma cleanText_normal t : normal_from false (cleanText t).
Proof. rewrite cleanText_collapse. apply normal_trim, collapse_normal. Qed.

Lemma cleanText_idemp t : cleanText (cleanText t) = cleanText t.
Proof.
  rewrite (cleanText_collapse (cleanText t)). unfold collapse_ws.
  rewrite collapse_normal_id by apply cleanText_normal.
  rewrite cleanText_collapse. apply trim_idemp.
Qed.

Lemma len_cleanText t : len (cleanText t) <= len t.
Proof.
  rewrite cleanText_collapse. etrans; [apply len_trim|].
  unfold len, collapse_ws. pose proof (length_collapse false t). lia.
Qed.

End normal_form.

(** X3: the text the chunker works on is in normal form. The second
    replacement of [cleanText], that of empty lines, never changes
    anything: the first has left no newline. Normalising is idempotent
    and never makes the text longer; the result has no white space at
    either end, its only white space is the space, and no two spaces are
    neighbours. *)
Theorem cleanText_normal_form (t : text) :
  cleanText t = trim (collapse_ws t) /\
  cleanText (cleanText t) = cleanText t /\
  len (cleanText t) <= len t /\
  trim (cleanText t) = cleanText t /\
  Forall (fun c => is_ws c = true -> c = SPACE) (cleanText t) /\
  forall i c d, cleanText t !! i = Some c -> cleanText t !! S i = Some d ->
                is_ws c = true -> is_ws d = false.
Proof.
  pose proof (cleanText_normal t) as Hn.
  split; [|split; [|split; [|split; [|split]]]].
  - apply cleanText_collapse.
  - apply cleanText_idemp.
  - apply len_cleanText.
  - rewrite cleanText_collapse. apply trim_idemp.
  - by eapply normal_spaces.
  - intros i c d. by apply normal_no_double with (b := false).
Qed.

(** X4: the chunks depend on the normalised text only: a text whose
    normal form is not empty and that normal form give the same chunks,
    with the same offsets. *)
Theorem chunkText_of_cleanText (t : text) (maxChunkSize overlap : Z) :
  cleanText t <> [] ->
  chunkText (cleanText t) maxChunkSize overlap = chunkText t maxChunkSize overlap.
Proof.
  intros Hne. unfold chunkText. rewrite cleanText_idemp.
  rewrite (bool_decide_eq_false_2 (len (cleanText t) = 0)).
  2:{ intros Ht. apply Hne. apply len_pos_nonempty. lia. }
  rewrite (bool_decide_eq_false_2 (len t = 0)); [done|].
  intros Ht. apply Hne. assert (t = []) as -> by (apply len_pos_nonempty; lia).
  reflexivity.
Qed.

Lemma chunkText_of_cleanText_witness :
  chunkText (cleanText (str "  Hi.   Ho. ")) 1000 200
  = chunkText (str "  Hi.   Ho. ") 1000 200.
Proof.
  apply chunkText_of_cleanText. by vm_compute.
Defined.

(** ** Offsets *)

Section offsets.

Lemma chunk_step_offsets m o st s :
  0 <= currentStartIndex st -> Forall offsets_ok (chunks st) ->
  0 <= currentStartIndex (chunk_step m o st s) /\
  Forall offsets_ok (chunks (chunk_step m o st s)).
Proof.
  intros H0 Hc. unfold chunk_step. case_bool_decide; simpl; [|done].
  split; [lia|]. apply Forall_app. split; [done|].
  constructor; [|done]. unfold offsets_ok. simpl.
  pose proof (len_trim (currentChunk st)). lia.
Qed.

Lemma fold_offsets m o ss st :
  0 <= currentStartIndex st -> Forall offsets_ok (chunks st) ->
  0 <= currentStartIndex (fold_left (chunk_step m o) ss st) /\
  Forall offsets_ok (chunks (fold_left (chunk_step m o) ss st)).
Proof.
  revert st. induction ss as [|s ss IH]; intros st H0 Hc; simpl; [done|].
  destruct (chunk_step_offsets m o st s H0 Hc). by apply IH.
Qed.

Lemma chunk_offsets t m o c : c ∈ chunkText t m o -> offsets_ok c.
Proof.
  destruct (chunkText_cases t m o) as [E|[[_ E]|[_ E]]]; rewrite E.
  - by intros ?%elem_of_nil.
  - intros ->%list_elem_of_singleton. unfold offsets_ok. simpl. lia.
  - intros [_ Hc]%list_elem_of_filter. revert c Hc. apply Forall_forall.
    unfold accumulated_chunks, push_last.
    destruct (fold_offsets m o (sentences (cleanText t))
                (mkChunkLoop [] [] 0)) as [H0 Hc]; [done|constructor|].
    case_bool_decide; [|done]. apply Forall_app. split; [done|].
    constructor; [|done]. unfold offsets_ok. simpl.
    pose proof (len_trim (currentChunk (fold_left (chunk_step m o)
                  (sentences (cleanText t)) (mkChunkLoop [] [] 0)))). lia.
Qed.

Lemma room_nonneg ss : 0 <= room ss.
Proof.
  induction ss as [|s ss IH]; simpl; [lia|].
  pose proof (len_nonneg (trim s)). lia.
Qed.

Lemma room_split piece prev in_sep s :
  fold_right (fun p n => len p + 1 + n) 0
             (split_sentences_from piece prev in_sep s)
  <= len piece + len s + 1.
Proof.
  revert piece prev in_sep. induction s as [|c s IH]; intros piece prev in_sep.
  - simpl. unfold len. simpl. lia.
  - cbn [split_sentences_from].
    assert (len (c :: s) = len s + 1) as -> by (unfold len; simpl; lia).
    destruct (is_ws c).
    + destruct in_sep.
      * specialize (IH piece (Some c) true). lia.
      * destruct (from_option is_terminal false prev).
        -- cbn [fold_right]. specialize (IH [] (Some c) true).
           change (len []) with 0 in IH. lia.
        -- specialize (IH (piece ++ [c]) (Some c) false).
           rewrite len_app in IH. change (len [c]) with 1 in IH. lia.
    + specialize (IH (piece ++ [c]) (Some c) false).
      rewrite len_app in IH. change (len [c]) with 1 in IH. lia.
Qed.

Lemma room_filter (P : text -> Prop) `{!forall x, Decision (P x)} ps :
  room (filter P ps) <= fold_right (fun p n => len p + 1 + n) 0 ps.
Proof.
  induction ps as [|p ps IH]; simpl; [done|].
  pose proof (len_trim p). pose proof (len_nonneg p).
  rewrite filter_cons. destruct (decide (P p)); simpl; lia.
Qed.

Lemma room_sentences clean : room (sentences clean) <= len clean + 1.
Proof.
  unfold sentences. etrans; [apply room_filter|].
  pose proof (room_split [] None false clean) as H.
  change (len []) with 0 in H. unfold split_sentences. lia.
Qed.

Lemma chunk_step_bounded m o B rest st s :
  0 < o -> 0 < len (trim s) ->
  bounded B (s :: rest) st -> bounded B rest (chunk_step m o st s).
Proof.
  intros Ho Hs (Hstart & Hroom & Hends). unfold bounded, chunk_step.
  pose proof (room_nonneg rest) as Hrest. cbn [room fold_right] in Hroom.
  fold (room rest) in Hroom.
  pose proof (len_nonneg (currentChunk st)) as Hcur.
  assert (trim s <> []) as Hne.
  { intros E. rewrite E in Hs. unfold len in Hs. simpl in Hs. lia. }
  destruct (decide (currentChunk st = [])) as [Hnil|Hnil].
  - rewrite bool_decide_eq_true_2 in Hroom by done. rewrite Hnil in *.
    rewrite (bool_decide_eq_true_2 (@nil code_unit = [])) by done.
    rewrite bool_decide_eq_false_2
      by (intros [_ H]; by apply len_nil_not_pos in H).
    cbn [chunks currentChunk currentStartIndex app].
    split; [done|]. split; [|done].
    rewrite bool_decide_eq_false_2 by done. change (len []) with 0 in Hroom.
    lia.
  - rewrite bool_decide_eq_false_2 in Hroom by done.
    rewrite (bool_decide_eq_false_2 (currentChunk st = [])) by done.
    case_bool_decide as Hpush; cbn [chunks currentChunk currentStartIndex].
    + split; [lia|]. split.
      * rewrite bool_decide_eq_false_2 by (by destruct (slice _ _)).
        rewrite !len_app, len_slice_neg by done.
        change (len [SPACE]) with 1. lia.
      * apply Forall_app. split; [done|]. constructor; [|constructor].
        simpl. lia.
    + split; [done|]. split; [|done].
      rewrite bool_decide_eq_false_2 by (by destruct (currentChunk st)).
      rewrite !len_app. change (len [SPACE]) with 1. lia.
Qed.

Lemma fold_bounded m o B ss st :
  0 < o -> Forall (fun s => 0 < len (trim s)) ss ->
  bounded B ss st -> bounded B [] (fold_left (chunk_step m o) ss st).
Proof.
  intros Ho Hss. revert st. induction Hss as [|s ss Hs Hss IH]; intros st Hst.
  - done.
  - simpl. apply IH. by apply chunk_step_bounded.
Qed.

Lemma accumulated_end_bound clean m o c :
  0 < o -> c ∈ accumulated_chunks clean m o -> endIndex c <= len clean.
Proof.
  intros Ho. unfold accumulated_chunks.
  assert (bounded (len clean) (sentences clean) (mkChunkLoop [] [] 0)) as Hinit.
  { split; [done|]. split; [|constructor]. simpl.
    pose proof (room_sentences clean). change (len []) with 0. lia. }
  apply (fold_bounded m o) in Hinit as (Hstart & Hroom & Hends);
    [|done|apply sentences_nonempty].
  set (st := fold_left _ _ _) in *. clearbody st.
  unfold push_last.
  destruct (decide (currentChunk st = [])) as [Hnil|Hnil].
  - rewrite Hnil. rewrite bool_decide_eq_false_2 by apply len_nil_not_pos.
    intros Hc. by eapply Forall_forall in Hends.
  - rewrite bool_decide_eq_false_2 in Hroom by done.
    pose proof (room_nonneg []) as Hrest.
    case_bool_decide as Hlast.
    + rewrite elem_of_app, list_elem_of_singleton. intros [Hc| ->].
      * by eapply Forall_forall in Hends.
      * simpl. simpl in Hroom. lia.
    + intros Hc. by eapply Forall_forall in Hends.
Qed.

Lemma chunkText_end_bound t m o c :
  0 < o -> c ∈ chunkText t m o -> endIndex c <= len (cleanText t).
Proof.
  intros Ho.
  destruct (chunkText_cases t m o) as [E|[[_ E]|[_ E]]]; rewrite E.
  - by intros ?%elem_of_nil.
  - intros ->%list_elem_of_singleton. done.
  - intros [_ Hc]%list_elem_of_filter. by apply accumulated_end_bound in Hc.
Qed.

(** The offsets of a chunk of the call site. *)
Lemma chunk_span t m o c :
  0 < o -> c ∈ chunkText t m o ->
  0 <= startIndex c /\ startIndex c + len (content c) <= endIndex c /\
  endIndex c <= len (cleanText t) /\ len (cleanText t) <= len t.
Proof.
  intros Ho Hc. destruct (chunk_offsets _ _ _ _ Hc) as [H1 H2].
  pose proof (chunkText_end_bound _ _ _ _ Ho Hc). pose proof (len_cleanText t).
  done.
Qed.

End offsets.

(** X5: the offsets of a chunk bracket its content: [startIndex] is not
    negative and [endIndex] is at least [startIndex] plus the length of
    the content. When the overlap is positive they stay within the text:
    [endIndex] is at most the length of the normalised text, which is at
    most the length of the text. *)
Theorem chunkText_offsets (t : text) (maxChunkSize overlap : Z) (c : Chunk) :
  c ∈ chunkText t maxChunkSize overlap ->
  0 <= startIndex c /\
  startIndex c + len (content c) <= endIndex c /\
  (0 < overlap -> endIndex c <= len (cleanText t) <= len t).
Proof.
  intros Hc. destruct (chunk_offsets _ _ _ _ Hc) as [H1 H2].
  split; [done|]. split; [done|]. intros Ho.
  by destruct (chunk_span _ _ _ _ Ho Hc) as (_ & _ & ? & ?).
Qed.

Lemma chunkText_offsets_witness :
  0 <= 700 /\ 700 + len (replicate 198 98%N ++ str ". " ++ replicate 300 99%N
                          ++ str ".") <= 1202 /\
  (0 < 200 -> 1202 <= len (cleanText split_example) <= len split_example).
Proof.
  apply (chunkText_offsets split_example 1000 200
           (mkChunk (replicate 198 98%N ++ str ". " ++ replicate 300 99%N
                       ++ str ".") 700 1202)).
  vm_compute. right. left.
Defined.

(** ** Sizes *)

Section sizes.

Lemma chunk_step_sized m o L st s :
  0 < o -> len (trim s) <= L ->
  sized (Z.max m (o + 1 + L)) st ->
  sized (Z.max m (o + 1 + L)) (chunk_step m o st s).
Proof.
  intros Ho Hs [Hcur Hch]. unfold chunk_step, sized.
  pose proof (len_nonneg (trim s)).
  case_bool_decide as Hsplit; cbn [chunks currentChunk currentStartIndex].
  - split.
    + rewrite !len_app, len_slice_neg by done.
      change (len [SPACE]) with 1. lia.
    + apply Forall_app. split; [done|]. constructor; [|done]. simpl.
      pose proof (len_trim (currentChunk st)). lia.
  - split; [|done].
    destruct (decide (len (currentChunk st) > 0)) as [Hpos|Hnil].
    + assert (~ len (currentChunk st ++
                (if bool_decide (currentChunk st = []) then [] else [SPACE])
                ++ trim s) > m) by tauto. lia.
    + apply len_pos_nonempty in Hnil. rewrite Hnil. simpl. lia.
Qed.

Lemma fold_sized m o L ss st :
  0 < o -> Forall (fun s => len (trim s) <= L) ss ->
  sized (Z.max m (o + 1 + L)) st ->
  sized (Z.max m (o + 1 + L)) (fold_left (chunk_step m o) ss st).
Proof.
  intros Ho Hss. revert st. induction Hss as [|s ss Hs _ IH]; simpl; [done|].
  intros st Hst. by apply IH, chunk_step_sized.
Qed.

End sizes.

(** X6: [maxChunkSize] is not a bound of the chunks, but there is one.
    When the overlap is positive and no trimmed sentence is longer than
    [L], the content of a chunk has at most
    [max maxChunkSize (overlap + 1 + L)] code units: a chunk exceeds
    [maxChunkSize] only by a sentence that does not fit beside the
    overlap. *)
Theorem chunkText_size_bound (t : text) (maxChunkSize overlap L : Z)
    (c : Chunk) :
  0 < overlap ->
  Forall (fun s => len (trim s) <= L) (sentences (cleanText t)) ->
  c ∈ chunkText t maxChunkSize overlap ->
  len (content c) <= Z.max maxChunkSize (overlap + 1 + L).
Proof.
  intros Ho HL.
  destruct (chunkText_cases t maxChunkSize overlap) as [E|[[Hfit E]|[_ E]]];
    rewrite E.
  - by intros ?%elem_of_nil.
  - intros ->%list_elem_of_singleton. simpl. lia.
  - intros [_ Hc]%list_elem_of_filter. revert c Hc. apply Forall_forall.
    unfold accumulated_chunks, push_last.
    destruct (sentences (cleanText t)) as [|s0 ss] eqn:Ess.
    { simpl. constructor. }
    assert (0 <= L) as HL0.
    { apply Forall_cons in HL as [Hs _]. pose proof (len_nonneg (trim s0)).
      lia. }
    destruct (fold_sized maxChunkSize overlap L (s0 :: ss)
                (mkChunkLoop [] [] 0) Ho HL) as [Hcur Hch].
    { split; [|constructor]. simpl. change (len []) with 0. lia. }
    set (st := fold_left _ _ _) in *. clearbody st.
    case_bool_decide; [|done]. apply Forall_app. split; [done|].
    constructor; [|done]. cbn [content].
    pose proof (len_trim (currentChunk st)). lia.
Qed.

Lemma chunkText_size_bound_witness :
  len (replicate 198 98%N ++ str ". " ++ replicate 300 99%N ++ str ".")
  <= Z.max 400 (200 + 1 + 900).
Proof.
  apply (chunkText_size_bound split_example 400 200 900
           (mkChunk (replicate 198 98%N ++ str ". " ++ replicate 300 99%N
                       ++ str ".") 700 1202)).
  - lia.
  - vm_compute. repeat constructor; discriminate.
  - vm_compute. right. left.
Defined.

(** ** An overlap of 0 *)

Section no_overlap.

Lemma chunk_step_cumulative m st s :
  0 < len (trim s) -> cumulative st -> cumulative (chunk_step m 0 st s).
Proof.
  intros Hs [Hcur Hsorted Hseed].
  assert (ends_nonws (trim s)) as Hsent.
  { apply trim_nonempty_ends_nonws. intros E. rewrite E in Hs.
    pose proof len_nil_not_pos. lia. }
  assert (forall k, Forall (fun a => content a `prefix_of`
                                trimStart (currentChunk st ++ k)) (chunks st))
    as Hgrow.
  { intros k. eapply Forall_impl; [exact Hseed|]. intros a Ha. simpl in Ha.
    etrans; [exact Ha|]. apply prefix_trimStart. by apply prefix_app_r. }
  unfold chunk_step. case_bool_decide as Hsplit; split;
    cbn [chunks currentChunk currentStartIndex content].
  - right. by apply ends_nonws_app, ends_nonws_app.
  - destruct Hsplit as [_ Hpos].
    destruct Hcur as [E|Hcur];
      [rewrite E in Hpos; by apply len_nil_not_pos in Hpos|].
    apply StronglySorted_app_2; [|done|repeat constructor].
    intros x1 x2 Hx1 ->%list_elem_of_singleton. unfold chunk_prefix. simpl.
    rewrite trim_ends_nonws by done.
    by eapply Forall_forall in Hseed.
  - destruct Hsplit as [_ Hpos].
    destruct Hcur as [E|Hcur];
      [rewrite E in Hpos; by apply len_nil_not_pos in Hpos|].
    rewrite slice_zero.
    apply Forall_app. split; [apply Hgrow|]. constructor; [|done]. simpl.
    rewrite trim_ends_nonws by done. apply prefix_trimStart.
    by apply prefix_app_r.
  - right. by apply ends_nonws_app, ends_nonws_app.
  - done.
  - apply Hgrow.
Qed.

Lemma fold_cumulative m ss st :
  Forall (fun s => 0 < len (trim s)) ss -> cumulative st ->
  cumulative (fold_left (chunk_step m 0) ss st).
Proof.
  intros Hss. revert st. induction Hss as [|s ss Hs _ IH]; simpl; [done|].
  intros st Hst. by apply IH, chunk_step_cumulative.
Qed.

Lemma StronglySorted_filter {A} (R : relation A) (P : A -> Prop)
    `{!forall x, Decision (P x)} (l : list A) :
  StronglySorted R l -> StronglySorted R (filter P l).
Proof.
  induction 1 as [|x l Hl IH Hx]; [constructor|].
  rewrite filter_cons. case_decide; [|done].
  constructor; [done|]. apply Forall_forall.
  intros y [_ Hy]%list_elem_of_filter.
  by eapply Forall_forall in Hx.
Qed.

End no_overlap.

(** X7: an overlap of 0 does not give chunks without overlap.
    [currentChunk.slice(-0)] is all of [currentChunk], so every chunk is
    carried over whole into the next one: with overlap 0 the content of
    every chunk of the output is a prefix of the content of every later
    chunk. *)
Theorem chunkText_zero_overlap (t : text) (maxChunkSize : Z) :
  StronglySorted chunk_prefix (chunkText t maxChunkSize 0).
Proof.
  destruct (chunkText_cases t maxChunkSize 0) as [E|[[_ E]|[_ E]]]; rewrite E.
  - constructor.
  - repeat constructor.
  - apply StronglySorted_filter. unfold accumulated_chunks, push_last.
    destruct (fold_cumulative maxChunkSize (sentences (cleanText t))
                (mkChunkLoop [] [] 0) (sentences_nonempty _))
      as [Hcur Hsorted Hseed].
    { split; simpl; [by left|constructor|constructor]. }
    case_bool_decide as Hlast; [|done].
    apply StronglySorted_app_2; [|done|repeat constructor].
    intros x1 x2 Hx1 ->%list_elem_of_singleton. unfold chunk_prefix. simpl.
    destruct Hcur as [E'|Hcur].
    { rewrite E' in Hlast. by apply len_nil_not_pos in Hlast. }
    rewrite trim_ends_nonws by done. by eapply Forall_forall in Hseed.
Qed.

(** ** How many chunks, and what is in them *)

Section counting.

Lemma chunk_step_counted m o n st s :
  counted n st -> counted (S n) (chunk_step m o st s).
Proof.
  unfold counted, chunk_step. intros Hn.
  destruct (decide (currentChunk st = [])) as [Hnil|Hnil].
  - rewrite Hnil in *.
    rewrite bool_decide_eq_false_2
      by (intros [_ H]; by apply len_nil_not_pos in H).
    cbn [chunks currentChunk]. rewrite bool_decide_eq_true_2 in Hn by done.
    match goal with |- context [if ?b then 0%nat else 1%nat] => destruct b end;
      lia.
  - rewrite (bool_decide_eq_false_2 (currentChunk st = [])) in Hn by done.
    case_bool_decide as Hpush; cbn [chunks currentChunk];
      [rewrite length_app; simpl|];
      match goal with |- context [if ?b then 0%nat else 1%nat] =>
        destruct b end; lia.
Qed.

Lemma fold_counted m o ss n st :
  counted n st ->
  counted (n + length ss) (fold_left (chunk_step m o) ss st).
Proof.
  revert n st. induction ss as [|s ss IH]; intros n st Hn; simpl.
  - by rewrite Nat.add_0_r.
  - replace (n + S (length ss))%nat with (S n + length ss)%nat by lia.
    by apply IH, chunk_step_counted.
Qed.

Lemma length_accumulated clean m o :
  (length (accumulated_chunks clean m o) <= length (sentences clean))%nat.
Proof.
  unfold accumulated_chunks, push_last.
  pose proof (fold_counted m o (sentences clean) 0 (mkChunkLoop [] [] 0)) as H.
  unfold counted in H at 1. simpl in H. specialize (H ltac:(lia)).
  unfold counted in H. set (st := fold_left _ _ _) in *. clearbody st.
  destruct (decide (currentChunk st = [])) as [Hnil|Hnil].
  - rewrite Hnil. rewrite bool_decide_eq_false_2 by apply len_nil_not_pos.
    rewrite Hnil, bool_decide_eq_true_2 in H by done. lia.
  - rewrite bool_decide_eq_false_2 in H by done.
    case_bool_decide; [rewrite length_app; simpl|]; lia.
Qed.

End counting.

(** X25: there is at most one chunk for each sentence: the output of
    [chunkText] has no more chunks than the normalised text has
    sentences, and one chunk at most when it has none. *)
Theorem chunkText_count (t : text) (maxChunkSize overlap : Z) :
  (length (chunkText t maxChunkSize overlap)
   <= Nat.max 1 (length (sentences (cleanText t))))%nat.
Proof.
  destruct (chunkText_cases t maxChunkSize overlap) as [E|[[_ E]|[_ E]]];
    rewrite E; simpl; try lia.
  etrans; [apply length_filter|].
  pose proof (length_accumulated (cleanText t) maxChunkSize overlap). lia.
Qed.

Section clean_contents.

Lemma spaces_only_infix x a : infix x a -> spaces_only a -> spaces_only x.
Proof.
  intros (l & r & ->) H. unfold spaces_only in *.
  apply Forall_app in H as [_ H]. by apply Forall_app in H as [H _].
Qed.

Lemma spaces_only_trim s : spaces_only s -> spaces_only (trim s).
Proof. apply spaces_only_infix, trim_infix. Qed.

Lemma spaces_only_slice s k : spaces_only s -> spaces_only (slice s k).
Proof. unfold slice, spaces_only. apply Forall_drop. Qed.

Lemma spaces_only_space : spaces_only [SPACE].
Proof. by constructor. Qed.

Lemma chunk_step_spaces m o st s :
  spaces_only s ->
  spaces_only (currentChunk st) -> Forall clean_chunk (chunks st) ->
  spaces_only (currentChunk (chunk_step m o st s)) /\
  Forall clean_chunk (chunks (chunk_step m o st s)).
Proof.
  intros Hs%spaces_only_trim Hcur Hchunks. unfold chunk_step.
  case_bool_decide; cbn [chunks currentChunk].
  - split.
    + apply Forall_app. split; [by apply spaces_only_slice|].
      apply Forall_app. split; [apply spaces_only_space|done].
    + apply Forall_app. split; [done|]. constructor; [|constructor].
      split; [apply trim_idemp|by apply spaces_only_trim].
  - split; [|done]. apply Forall_app. split; [done|].
    apply Forall_app. split; [|done].
    case_bool_decide; [constructor|apply spaces_only_space].
Qed.

Lemma fold_spaces m o ss st :
  Forall spaces_only ss ->
  spaces_only (currentChunk st) -> Forall clean_chunk (chunks st) ->
  spaces_only (currentChunk (fold_left (chunk_step m o) ss st)) /\
  Forall clean_chunk (chunks (fold_left (chunk_step m o) ss st)).
Proof.
  intros Hss. revert st. induction Hss as [|s ss Hs _ IH]; intros st Hcur Hch.
  - done.
  - simpl. destruct (chunk_step_spaces m o st s Hs Hcur Hch). by apply IH.
Qed.

Lemma sentences_spaces clean :
  spaces_only clean -> Forall spaces_only (sentences clean).
Proof.
  intros Hclean. apply Forall_forall. intros s [_ Hs]%list_elem_of_filter.
  apply split_sentences_infix in Hs; [|done].
  by eapply spaces_only_infix.
Qed.

End clean_contents.

(** X26: the content of every chunk is clean: it has no white space at
    either end, and its only white space is the space. *)
Theorem chunkText_contents (t : text) (maxChunkSize overlap : Z) (c : Chunk) :
  c ∈ chunkText t maxChunkSize overlap ->
  trim (content c) = content c /\
  Forall (fun u => is_ws u = true -> u = SPACE) (content c).
Proof.
  assert (spaces_only (cleanText t)) as Hclean
    by (eapply normal_spaces, cleanText_normal).
  destruct (chunkText_cases t maxChunkSize overlap) as [E|[[_ E]|[_ E]]];
    rewrite E.
  - by intros ?%elem_of_nil.
  - intros ->%list_elem_of_singleton. simpl. split; [|done].
    rewrite cleanText_collapse. apply trim_idemp.
  - intros [_ Hc]%list_elem_of_filter. revert c Hc. apply Forall_forall.
    unfold accumulated_chunks, push_last.
    destruct (fold_spaces maxChunkSize overlap (sentences (cleanText t))
                (mkChunkLoop [] [] 0)) as [Hcur Hchunks];
      [by apply sentences_spaces|constructor|constructor|].
    set (st := fold_left _ _ _) in *. clearbody st.
    case_bool_decide; [|done]. apply Forall_app. split; [done|].
    constructor; [|constructor].
    split; [apply trim_idemp|by apply spaces_only_trim].
Qed.

Lemma chunkText_contents_witness :
  trim (replicate 198 98%N ++ str ". " ++ replicate 300 99%N ++ str ".")
  = replicate 198 98%N ++ str ". " ++ replicate 300 99%N ++ str "." /\
  Forall (fun u => is_ws u = true -> u = SPACE)
         (replicate 198 98%N ++ str ". " ++ replicate 300 99%N ++ str ".").
Proof.
  apply (chunkText_contents split_example 1000 200
           (mkChunk (replicate 198 98%N ++ str ". " ++ replicate 300 99%N
                       ++ str ".") 700 1202)).
  vm_compute. right. left.
Defined.


(* ===================================================================== *)
(** * 18. More properties of the retry policy and of the generation client *)
(* ===================================================================== *)

Section retry_trace.
Context {T : Type} (operation : M T) (f : State -> nat).
Hypothesis operation_step :
  forall ext st r st', operation ext st = (r, st') ->
    f st' = S (f st) /\ timeouts st' = timeouts st /\
    random_calls st' = random_calls st.
Hypothesis backoff_keeps :
  forall b k ext st, f (after_backoff b k ext st) = f st.

(** The loop from retry [attempt] on, [f] counting the attempts. *)
Lemma retry_loop_trace maxRetries baseDelay it attempt lastError ext st r st' :
  (attempt + it = maxRetries)%nat ->
  retry_loop operation maxRetries baseDelay (S it) attempt lastError ext st
  = (r, st') ->
  exists n, (n <= it)%nat /\ f st' = (f st + S n)%nat /\
    timeouts st'
    = timeouts st ++ pauses baseDelay ext (random_calls st) attempt n /\
    random_calls st' = (random_calls st + n)%nat.
Proof.
  revert attempt lastError st.
  induction it as [|it IH]; intros attempt lastError st Hit.
  - destruct (operation ext st) as [[v|e] st1] eqn:E.
    + rewrite (retry_loop_returned _ _ _ _ _ _ _ _ _ _ E). intros [= _ <-].
      apply operation_step in E as (Hf & Ht & Hr).
      exists 0%nat. rewrite Hf, Ht, Hr. simpl. rewrite (right_id_L [] (++)).
      repeat split; lia.
    + replace attempt with maxRetries by lia.
      rewrite (retry_loop_last _ _ _ _ _ _ _ _ _ E). intros [= _ <-].
      apply operation_step in E as (Hf & Ht & Hr).
      exists 0%nat. rewrite Hf, Ht, Hr. simpl. rewrite (right_id_L [] (++)).
      repeat split; lia.
  - destruct (operation ext st) as [[v|e] st1] eqn:E.
    + rewrite (retry_loop_returned _ _ _ _ _ _ _ _ _ _ E). intros [= _ <-].
      apply operation_step in E as (Hf & Ht & Hr).
      exists 0%nat. rewrite Hf, Ht, Hr. simpl. rewrite (right_id_L [] (++)).
      repeat split; lia.
    + destruct (isRetryable e) eqn:Hretry.
      * rewrite (retry_loop_retry _ _ _ _ _ _ _ _ _ _ E Hretry) by lia.
        intros H. apply IH in H as (n & Hn & Hf' & Ht' & Hr'); [|lia].
        apply operation_step in E as (Hf & Ht & Hr).
        exists (S n). rewrite Hf', Ht', Hr', backoff_keeps, Hf. simpl.
        rewrite Ht, Hr, <- (assoc_L (++)). simpl. repeat split; lia.
      * rewrite (retry_loop_not_retryable _ _ _ _ _ _ _ _ _ _ E Hretry).
        intros [= _ <-]. apply operation_step in E as (Hf & Ht & Hr).
        exists 0%nat. rewrite Hf, Ht, Hr. simpl. rewrite (right_id_L [] (++)).
        repeat split; lia.
Qed.

End retry_trace.

(** X8: what a retried call does, for every operation that counts its
    attempts in [f] and neither waits nor draws random numbers itself.
    The call makes [n + 1] attempts for some [n] that is at most
    [maxRetries], waits exactly [n] times, once before each retry, for
    [baseDelay * 2^k + 1000 * random] milliseconds before retry [k]
    (counted from 0), [random] being the next value of [Math.random],
    and draws no other random number. *)
Theorem retryWithBackoff_trace {T} (operation : M T) (f : State -> nat)
    (maxRetries : nat) (baseDelay : Q) (ext : Externals) (st st' : State)
    (r : Outcome T) :
  (forall ext st r st', operation ext st = (r, st') ->
     f st' = S (f st) /\ timeouts st' = timeouts st /\
     random_calls st' = random_calls st) ->
  (forall b k ext st, f (after_backoff b k ext st) = f st) ->
  retryWithBackoff operation maxRetries baseDelay ext st = (r, st') ->
  exists n, (n <= maxRetries)%nat /\ f st' = (f st + S n)%nat /\
    timeouts st' = timeouts st ++ pauses baseDelay ext (random_calls st) 0 n /\
    random_calls st' = (random_calls st + n)%nat.
Proof.
  intros Hop Hb H. unfold retryWithBackoff in H.
  by apply (retry_loop_trace operation f Hop Hb) in H.
Qed.

Lemma retryWithBackoff_trace_witness :
  exists n st',
    retryWithBackoff ChatWithDocuments.embedding_operation 3 1000
      flaky_embedding_world (fresh []) = (Returned [1 # 2; 1 # 3]%Q, st') /\
    (n <= 3)%nat /\ embedding_calls st' = (0 + S n)%nat /\
    timeouts st' = [] ++ pauses 1000 flaky_embedding_world 0 0 n /\
    random_calls st' = (0 + n)%nat.
Proof.
  eassert (retryWithBackoff ChatWithDocuments.embedding_operation 3 1000
             flaky_embedding_world (fresh []) = (Returned [1 # 2; 1 # 3]%Q, _))
    as E by (vm_compute; reflexivity).
  destruct (retryWithBackoff_trace ChatWithDocuments.embedding_operation
              embedding_calls 3 1000 flaky_embedding_world (fresh []) _ _
              ltac:(by intros ???? ->%embedding_operation_frame)
              ltac:(done) E) as (n & Hn).
  exists n. eexists. split; [exact E|exact Hn].
Defined.

Section waiting.

Lemma total_app a b : (total (a ++ b) == total a + total b)%Q.
Proof.
  induction a as [|x a IH]; simpl; [ring|]. rewrite IH. ring.
Qed.

Lemma total_pauses_3 ext r0 n :
  random_in_range ext -> (n <= 3)%nat ->
  (total (pauses 1000 ext r0 0 n) <= 10000)%Q.
Proof.
  intros Hrange Hn.
  destruct (Hrange r0), (Hrange (S r0)), (Hrange (S (S r0))).
  destruct n as [|[|[|[|n]]]]; [..|lia]; unfold total, pauses, backoff_delay;
    simpl fold_right;
    change (inject_Z (2 ^ Z.of_nat 0)) with 1%Q;
    change (inject_Z (2 ^ Z.of_nat 1)) with 2%Q;
    change (inject_Z (2 ^ Z.of_nat 2)) with 4%Q; lra.
Qed.

Lemma total_pauses_2 ext r0 n :
  random_in_range ext -> (n <= 2)%nat ->
  (total (pauses 1000 ext r0 0 n) <= 5000)%Q.
Proof.
  intros Hrange Hn.
  destruct (Hrange r0), (Hrange (S r0)).
  destruct n as [|[|[|n]]]; [..|lia]; unfold total, pauses, backoff_delay;
    simpl fold_right;
    change (inject_Z (2 ^ Z.of_nat 0)) with 1%Q;
    change (inject_Z (2 ^ Z.of_nat 1)) with 2%Q; lra.
Qed.

Lemma within_refl st : within 0 0 0 0 st st.
Proof.
  unfold within. repeat split; try lia. exists [].
  split; [by rewrite (right_id_L [] (++))|]. simpl. lra.
Qed.

Lemma within_trans e1 g1 o1 w1 e2 g2 o2 w2 st1 st2 st3 :
  within e1 g1 o1 w1 st1 st2 -> within e2 g2 o2 w2 st2 st3 ->
  within (e1 + e2) (g1 + g2) (o1 + o2) (w1 + w2) st1 st3.
Proof.
  intros (He & Hg & Ho & d1 & Hd1 & Hw1) (He' & Hg' & Ho' & d2 & Hd2 & Hw2).
  unfold within. repeat split; try lia.
  exists (d1 ++ d2). split; [by rewrite Hd2, Hd1, (assoc_L (++))|].
  rewrite total_app. lra.
Qed.

Lemma within_weaken e1 g1 o1 w1 e2 g2 o2 w2 st st' :
  (e1 <= e2)%nat -> (g1 <= g2)%nat -> (o1 <= o2)%nat -> (w1 <= w2)%Q ->
  within e1 g1 o1 w1 st st' -> within e2 g2 o2 w2 st st'.
Proof.
  intros ???? (He & Hg & Ho & d & Hd & Hw). unfold within.
  repeat split; try lia. exists d. split; [done|lra].
Qed.

End waiting.

#[global] Instance tables_kept_preorder : PreOrder tables_kept.
Proof.
  split; unfold tables_kept; [done|].
  intros x y z (?&?&?&?) (?&?&?&?). repeat split; congruence.
Qed.

Section provider_calls.

Lemma openai_operation_frame ext st r st' :
  openai_operation ext st = (r, st') ->
  st' = set_openai_calls (S (openai_calls st)) st.
Proof.
  unfold openai_operation, bind, fetch_openai.
  destruct (openai_endpoint ext (openai_calls st)) as [e|resp];
    [by intros [= _ <-]|].
  destruct (negb (ok resp)); [by intros [= _ <-]|].
  unfold read_json. destruct (json_field resp) as [e| |a]; simpl;
    try by intros [= _ <-].
  destruct (String.eqb a EmptyString); by intros [= _ <-].
Qed.

(** A retried call returns what an attempt returned. *)
Lemma retry_loop_returns {T} (operation : M T) (P : T -> Prop) ext :
  (forall st v st', operation ext st = (Returned v, st') -> P v) ->
  forall maxRetries baseDelay it attempt lastError st v st',
    retry_loop operation maxRetries baseDelay it attempt lastError ext st
    = (Returned v, st') -> P v.
Proof.
  intros Hop maxRetries baseDelay it.
  induction it as [|it IH]; intros attempt lastError st v st'; simpl.
  - by unfold throw.
  - unfold try_catch. destruct (operation ext st) as [[v1|e] st1] eqn:E.
    + intros [= <- _]. by eapply Hop.
    + destruct (attempt =? maxRetries)%nat; [by unfold throw|].
      destruct (negb (isRetryable e)); [by unfold throw|].
      unfold bind at 1, Math_random. unfold bind at 1, sleep, modify.
      apply IH.
Qed.

Lemma gemini_operation_answer ext st v st' :
  gemini_operation ext st = (Returned v, st') -> v <> EmptyString.
Proof.
  unfold gemini_operation, bind, fetch_gemini.
  destruct (gemini_endpoint ext (gemini_calls st)) as [e|resp]; [done|].
  destruct (negb (ok resp)).
  - destruct (status resp =? 503); [done|]. by destruct (status resp =? 429).
  - unfold read_json. destruct (json_field resp) as [e| |a]; simpl; try done.
    destruct (String.eqb a EmptyString) eqn:Ea; [done|].
    intros [= <- _]. by apply String.eqb_neq.
Qed.

Lemma openai_operation_answer ext st v st' :
  openai_operation ext st = (Returned v, st') -> v <> EmptyString.
Proof.
  unfold openai_operation, bind, fetch_openai.
  destruct (openai_endpoint ext (openai_calls st)) as [e|resp]; [done|].
  destruct (negb (ok resp)); [done|].
  unfold read_json. destruct (json_field resp) as [e| |a]; simpl; try done.
  destruct (String.eqb a EmptyString) eqn:Ea; [done|].
  intros [= <- _]. by apply String.eqb_neq.
Qed.

(** The requests and the pauses of the three retried calls. *)
Lemma embedding_retry_within ext st r st' :
  retryWithBackoff ChatWithDocuments.embedding_operation 3 1000 ext st
  = (r, st') ->
  (embedding_calls st < embedding_calls st')%nat /\
  gemini_calls st' = gemini_calls st /\ openai_calls st' = openai_calls st /\
  tables_kept st st' /\
  (random_in_range ext -> within 4 0 0 10000 st st').
Proof.
  intros H.
  pose proof H as Htrace. unfold retryWithBackoff in Htrace.
  apply (retry_loop_trace _ embedding_calls) in Htrace
    as (n & Hn & Hf & Ht & _);
    [|by intros ???? ->%embedding_operation_frame|done|lia].
  pose proof H as Hg%(retryWithBackoff_rel _ (same gemini_calls));
    [|by intros ???? ->%embedding_operation_frame|done].
  pose proof H as Ho%(retryWithBackoff_rel _ (same openai_calls));
    [|by intros ???? ->%embedding_operation_frame|done].
  apply (retryWithBackoff_rel _ tables_kept) in H;
    [|by intros ???? ->%embedding_operation_frame|done].
  unfold same in *. split; [lia|]. do 3 (split; [done|]).
  intros Hrange. unfold within. rewrite Hg, Ho.
  repeat split; try lia. eexists. split; [done|]. by apply total_pauses_3.
Qed.

Lemma callGeminiAPI_within prompt key ext st r st' :
  callGeminiAPI prompt key ext st = (r, st') ->
  (gemini_calls st < gemini_calls st')%nat /\
  embedding_calls st' = embedding_calls st /\
  openai_calls st' = openai_calls st /\
  tables_kept st st' /\
  (random_in_range ext -> within 0 4 0 10000 st st').
Proof.
  intros H. unfold callGeminiAPI in H.
  pose proof H as Htrace. unfold retryWithBackoff in Htrace.
  apply (retry_loop_trace _ gemini_calls) in Htrace
    as (n & Hn & Hf & Ht & _);
    [|by intros ???? ->%gemini_operation_frame|done|lia].
  pose proof H as Hg%(retryWithBackoff_rel _ (same embedding_calls));
    [|by intros ???? ->%gemini_operation_frame|done].
  pose proof H as Ho%(retryWithBackoff_rel _ (same openai_calls));
    [|by intros ???? ->%gemini_operation_frame|done].
  apply (retryWithBackoff_rel _ tables_kept) in H;
    [|by intros ???? ->%gemini_operation_frame|done].
  unfold same in *. split; [lia|]. do 3 (split; [done|]).
  intros Hrange. unfold within. rewrite Hg, Ho.
  repeat split; try lia. eexists. split; [done|]. by apply total_pauses_3.
Qed.

Lemma callOpenAIFallback_within prompt key ext st r st' :
  callOpenAIFallback prompt key ext st = (r, st') ->
  (openai_calls st < openai_calls st' <= openai_calls st + 3)%nat /\
  embedding_calls st' = embedding_calls st /\
  gemini_calls st' = gemini_calls st /\
  tables_kept st st' /\
  (random_in_range ext -> within 0 0 3 5000 st st').
Proof.
  intros H. unfold callOpenAIFallback in H.
  pose proof H as Htrace. unfold retryWithBackoff in Htrace.
  apply (retry_loop_trace _ openai_calls) in Htrace
    as (n & Hn & Hf & Ht & _);
    [|by intros ???? ->%openai_operation_frame|done|lia].
  pose proof H as Hg%(retryWithBackoff_rel _ (same embedding_calls));
    [|by intros ???? ->%openai_operation_frame|done].
  pose proof H as Ho%(retryWithBackoff_rel _ (same gemini_calls));
    [|by intros ???? ->%openai_operation_frame|done].
  apply (retryWithBackoff_rel _ tables_kept) in H;
    [|by intros ???? ->%openai_operation_frame|done].
  unfold same in *. split; [lia|]. do 3 (split; [done|]).
  intros Hrange. unfold within. rewrite Hg, Ho.
  repeat split; try lia. eexists. split; [done|]. by apply total_pauses_2.
Qed.

(** [generateAIResponse] when the key of the primary is not configured. *)
Lemma generateAIResponse_secondary prompt ext st :
  configured (GOOGLE_GEMINI_API_KEY ext) = false ->
  generateAIResponse prompt ext st =
  if configured (OPENAI_API_KEY ext) then
    match callOpenAIFallback prompt (default EmptyString (OPENAI_API_KEY ext))
            ext st with
    | (Returned r, st1) => (Returned (mkAIResult r "OpenAI"), st1)
    | (Thrown e, st1) => (Thrown e, st1)
    end
  else (Thrown (Error "No AI API keys configured"), st).
Proof.
  intros Hk. unfold generateAIResponse, bind at 1, externals. rewrite Hk.
  destruct (configured (OPENAI_API_KEY ext)); [|done].
  unfold try_catch, bind.
  by destruct (callOpenAIFallback _ _ ext st) as [[r2|e2] st2].
Qed.

Lemma generateAIResponse_within prompt ext st r st' :
  random_in_range ext ->
  generateAIResponse prompt ext st = (r, st') ->
  within 0 4 3 15000 st st' /\ tables_kept st st'.
Proof.
  intros Hrange.
  destruct (configured (GOOGLE_GEMINI_API_KEY ext)) eqn:Hk.
  - rewrite (generateAIResponse_primary _ _ _ Hk).
    destruct (callGeminiAPI _ _ ext st) as [[v|e] st1] eqn:E1;
      apply callGeminiAPI_within in E1 as (_ & _ & _ & K1 & W1);
      specialize (W1 Hrange).
    { intros [= _ <-]. split; [|done].
      eapply within_weaken; [..|exact W1]; try lia. lra. }
    destruct (overloaded_or_rate_limited e && configured (OPENAI_API_KEY ext)).
    2:{ intros [= _ <-]. split; [|done].
        eapply within_weaken; [..|exact W1]; try lia. lra. }
    destruct (callOpenAIFallback _ _ ext st1) as [[v|e2] st2] eqn:E2;
      apply callOpenAIFallback_within in E2 as (_ & _ & _ & K2 & W2);
      specialize (W2 Hrange);
      intros [= _ <-]; (split; [|by etrans]);
      pose proof (within_trans _ _ _ _ _ _ _ _ _ _ _ W1 W2) as W;
      (eapply within_weaken; [..|exact W]; [lia|lia|lia|lra]).
  - rewrite (generateAIResponse_secondary _ _ _ Hk).
    destruct (configured (OPENAI_API_KEY ext)).
    2:{ intros [= _ <-]. split; [|done].
        eapply within_weaken; [..|apply within_refl]; try lia. lra. }
    destruct (callOpenAIFallback _ _ ext st) as [[v|e2] st2] eqn:E2;
      apply callOpenAIFallback_within in E2 as (_ & _ & _ & K2 & W2);
      specialize (W2 Hrange);
      intros [= _ <-]; (split; [|done]);
      (eapply within_weaken; [..|exact W2]; [lia|lia|lia|lra]).
Qed.

(** With the key of the primary configured, what [generateAIResponse]
    leaves behind. *)
Lemma generateAIResponse_calls prompt ext st r st' :
  configured (GOOGLE_GEMINI_API_KEY ext) = true ->
  generateAIResponse prompt ext st = (r, st') ->
  (gemini_calls st < gemini_calls st')%nat /\ tables_kept st st' /\
  embedding_calls st' = embedding_calls st /\
  forall result, r = Returned result ->
    response result <> EmptyString /\
    (provider result = "Gemini" /\ openai_calls st' = openai_calls st \/
     provider result = "OpenAI (fallback)" /\
     (openai_calls st < openai_calls st')%nat).
Proof.
  intros Hk. rewrite (generateAIResponse_primary _ _ _ Hk).
  destruct (callGeminiAPI _ _ ext st) as [[v|e] st1] eqn:E1.
  { pose proof E1 as Hv. unfold callGeminiAPI, retryWithBackoff in Hv.
    apply (retry_loop_returns gemini_operation (fun v => v <> EmptyString))
      in Hv; [|apply gemini_operation_answer].
    apply callGeminiAPI_within in E1 as (Hg & He & Ho & K & _).
    intros [= <- <-]. split; [done|]. split; [done|]. split; [done|].
    intros result [= <-]. simpl. split; [done|]. by left. }
  apply callGeminiAPI_within in E1 as (Hg & He & Ho & K & _).
  destruct (overloaded_or_rate_limited e && configured (OPENAI_API_KEY ext)).
  2:{ intros [= <- <-]. split; [done|]. split; [done|]. by split. }
  destruct (callOpenAIFallback _ _ ext st1) as [[v|e2] st2] eqn:E2.
  - pose proof E2 as Hv. unfold callOpenAIFallback, retryWithBackoff in Hv.
    apply (retry_loop_returns openai_operation (fun v => v <> EmptyString))
      in Hv; [|apply openai_operation_answer].
    apply callOpenAIFallback_within in E2 as (Ho2 & He2 & Hg2 & K2 & _).
    intros [= <- <-]. split; [lia|]. split; [by etrans|].
    split; [congruence|].
    intros result [= <-]. simpl. split; [done|]. right. split; [done|lia].
  - apply callOpenAIFallback_within in E2 as (Ho2 & He2 & Hg2 & K2 & _).
    intros [= <- <-]. split; [lia|]. split; [by etrans|].
    split; [congruence|done].
Qed.

(** The tag put before the body of a 503 or 429 answer names none of the
    five words. *)
Lemma tagged_isRetryable raw :
  isRetryable (Error ("GEMINI_OVERLOADED: " +:+ raw)) = isRetryable (Error raw) /\
  isRetryable (Error ("GEMINI_RATE_LIMITED: " +:+ raw)) = isRetryable (Error raw).
Proof. split; reflexivity. Qed.

Lemma gemini_operation_rejected ext st code raw field :
  gemini_endpoint ext (gemini_calls st)
    = FetchResolved (mkResponse code raw field) ->
  code = 503 \/ code = 429 ->
  gemini_operation ext st
  = (Thrown (Error ((if code =? 503 then "GEMINI_OVERLOADED: "
                     else "GEMINI_RATE_LIMITED: ") +:+ raw)),
     set_gemini_calls (S (gemini_calls st)) st).
Proof.
  intros H Hcode. unfold gemini_operation, bind, fetch_gemini. rewrite H.
  by destruct Hcode as [-> | ->].
Qed.

End provider_calls.

(** X9: the cost of one call of [generateAIResponse], [Math.random]
    keeping to its range: at most 4 requests to the primary and 3 to the
    secondary, none to the embedding endpoint, pauses of at most 15
    seconds in all; no table and not the request body are touched. And
    the call is not free when a key is configured: with the key of the
    primary at least one request goes to the primary, whatever the
    outcome. *)
Theorem generateAIResponse_budget (prompt : string) (ext : Externals)
    (st st' : State) (r : Outcome AIResult) :
  random_in_range ext ->
  generateAIResponse prompt ext st = (r, st') ->
  within 0 4 3 15000 st st' /\ tables_kept st st' /\
  (configured (GOOGLE_GEMINI_API_KEY ext) = true ->
   (gemini_calls st < gemini_calls st')%nat).
Proof.
  intros Hrange E.
  destruct (generateAIResponse_within _ _ _ _ _ Hrange E) as [W K].
  split; [exact W|]. split; [exact K|]. intros Hk.
  by destruct (generateAIResponse_calls _ _ _ _ _ Hk E) as (Hg & _).
Qed.

Lemma generateAIResponse_budget_witness :
  exists st',
    generateAIResponse "What is the refund policy?" both_down_world (fresh [])
    = (Thrown (Error "GEMINI_OVERLOADED: The model is overloaded"), st') /\
    within 0 4 3 15000 (fresh []) st' /\ tables_kept (fresh []) st' /\
    (configured (GOOGLE_GEMINI_API_KEY both_down_world) = true ->
     (gemini_calls (fresh []) < gemini_calls st')%nat).
Proof.
  eassert (generateAIResponse "What is the refund policy?" both_down_world
             (fresh []) = (_, _)) as E by (vm_compute; reflexivity).
  eexists. split; [exact E|].
  apply (generateAIResponse_budget _ both_down_world _ _ _
           ltac:(intros k; split; by vm_compute) E).
Defined.

(** X10: whether the primary is asked again after answering 503 or 429
    is decided by the body of that answer, not by its status. The error
    the attempt throws is the body behind the tag [GEMINI_OVERLOADED: ]
    or [GEMINI_RATE_LIMITED: ], which names none of the five words of the
    retry test, and it is an error that sends [generateAIResponse] to the
    secondary. When the body names none of the five words either, the
    call ends with this error after the one request and no pause;
    otherwise the loop goes on with retry 1 after the first pause. *)
Theorem callGeminiAPI_rejected (prompt key : string) (ext : Externals)
    (st : State) (code : Z) (raw : string) (field : JsonField string) :
  gemini_endpoint ext (gemini_calls st)
    = FetchResolved (mkResponse code raw field) ->
  code = 503 \/ code = 429 ->
  let error := Error ((if code =? 503 then "GEMINI_OVERLOADED: "
                       else "GEMINI_RATE_LIMITED: ") +:+ raw) in
  let st1 := set_gemini_calls (S (gemini_calls st)) st in
  overloaded_or_rate_limited error = true /\
  callGeminiAPI prompt key ext st =
  if isRetryable (Error raw) then
    retry_loop gemini_operation 3 1000 3 1 (Some error) ext
      (after_backoff 1000 0 ext st1)
  else (Thrown error, st1).
Proof.
  intros H Hcode error st1.
  pose proof (gemini_operation_rejected _ _ _ _ _ H Hcode) as E.
  assert (isRetryable error = isRetryable (Error raw)) as Hr.
  { subst error. destruct Hcode as [-> | ->]; apply tagged_isRetryable. }
  split.
  { subst error. unfold overloaded_or_rate_limited. apply orb_true_iff.
    destruct Hcode as [-> | ->]; [left|right]; reflexivity. }
  unfold callGeminiAPI, retryWithBackoff.
  destruct (isRetryable (Error raw)).
  - by rewrite (retry_loop_retry _ _ _ _ _ _ _ _ _ _ E Hr).
  - by rewrite (retry_loop_not_retryable _ _ _ _ _ _ _ _ _ _ E Hr).
Qed.

Lemma callGeminiAPI_rejected_witness :
  let error := Error "GEMINI_RATE_LIMITED: Quota exceeded" in
  let ext := world (Some "gemini-key") None unreachable
               (always 429 "Quota exceeded" Absent) unreachable
               (fun _ => None) in
  overloaded_or_rate_limited error = true /\
  callGeminiAPI "What is the refund policy?" "gemini-key" ext (fresh [])
  = (Thrown error, set_gemini_calls 1 (fresh [])).
Proof.
  exact (callGeminiAPI_rejected "What is the refund policy?" "gemini-key"
           (world (Some "gemini-key") None unreachable
                  (always 429 "Quota exceeded" Absent) unreachable
                  (fun _ => None))
           (fresh []) 429 "Quota exceeded" Absent eq_refl
           (or_intror eq_refl)).
Defined.

(** X11: without the key of the primary, [generateAIResponse] never
    contacts the primary. With no key at all it throws
    [No AI API keys configured] and changes nothing; with the key of the
    secondary it sends between 1 and 3 requests to the secondary, and an
    answer is not empty and is marked [OpenAI]. *)
Theorem generateAIResponse_without_primary (prompt : string) (ext : Externals)
    (st st' : State) (r : Outcome AIResult) :
  configured (GOOGLE_GEMINI_API_KEY ext) = false ->
  generateAIResponse prompt ext st = (r, st') ->
  gemini_calls st' = gemini_calls st /\
  (configured (OPENAI_API_KEY ext) = false ->
   r = Thrown (Error "No AI API keys configured") /\ st' = st) /\
  (configured (OPENAI_API_KEY ext) = true ->
   (openai_calls st < openai_calls st' <= openai_calls st + 3)%nat) /\
  (forall result, r = Returned result ->
     provider result = "OpenAI" /\ response result <> EmptyString).
Proof.
  intros Hk. rewrite (generateAIResponse_secondary _ _ _ Hk).
  destruct (configured (OPENAI_API_KEY ext)).
  2:{ intros [= <- <-]. by repeat split. }
  destruct (callOpenAIFallback _ _ ext st) as [[v|e] st1] eqn:E.
  - pose proof E as Hv. unfold callOpenAIFallback, retryWithBackoff in Hv.
    apply (retry_loop_returns openai_operation (fun v => v <> EmptyString))
      in Hv; [|apply openai_operation_answer].
    apply callOpenAIFallback_within in E as (Ho & _ & Hg & _).
    intros [= <- <-]. split; [done|]. split; [done|]. split; [done|].
    by intros result [= <-].
  - apply callOpenAIFallback_within in E as (Ho & _ & Hg & _).
    intros [= <- <-]. split; [done|]. split; [done|]. split; [done|done].
Qed.

Lemma generateAIResponse_without_primary_witness :
  exists st',
    generateAIResponse "What is the refund policy?" secondary_only_world
      (fresh []) = (Returned (mkAIResult "Forty-two." "OpenAI"), st') /\
    gemini_calls st' = gemini_calls (fresh []).
Proof.
  eassert (generateAIResponse "What is the refund policy?"
             secondary_only_world (fresh []) = (_, _)) as E
    by (vm_compute; reflexivity).
  eexists. split; [exact E|].
  exact (proj1 (generateAIResponse_without_primary _ secondary_only_world
                  _ _ _ eq_refl E)).
Defined.


(* ===================================================================== *)
(** * 19. More properties of the chat function *)
(* ===================================================================== *)

Section chat_paths.
Import ChatWithDocuments.

(** Reading the request body changes [bodyUsed], nothing else. *)
Lemma req_json_state {B} (body : option B) ext st r st' :
  req_json body ext st = (r, st') ->
  st' = st \/ st' = set_bodyUsed true st.
Proof.
  unfold req_json, bind, get. destruct (bodyUsed st).
  - intros [= _ <-]. by left.
  - destruct body; intros [= _ <-]; by right.
Qed.

Lemma retrieve_returns q user ext st :
  exists chunks, retrieve q user ext st = (Returned chunks, st).
Proof.
  unfold retrieve, bind, externals.
  destruct (error (rpc_match_documents ext q user)); [|by eexists].
  destruct (error (select_recent_chunks ext user)); by eexists.
Qed.

Lemma insert_chat_message_returns row ext st :
  insert_chat_message row ext st
  = (Returned (db_fault ext InsertChatMessage),
     match db_fault ext InsertChatMessage with
     | Some _ => st
     | None => set_chat_messages (chat_messages st ++ [row]) st
     end).
Proof.
  unfold insert_chat_message, bind, externals.
  by destruct (db_fault ext InsertChatMessage).
Qed.

(** Every request takes one of the paths. *)
Lemma serve_paths req ext st :
  exists resp st',
    serve req ext st = (Returned resp, st') /\ chat_run req ext st st' resp.
Proof.
  unfold serve.
  destruct (String.eqb (method req) "OPTIONS") eqn:Hm.
  { apply String.eqb_eq in Hm. do 2 eexists. split; [done|].
    by apply chat_preflight. }
  unfold try_catch. unfold bind at 1.
  destruct (req_json (body req) ext st) as [[json|e] st1] eqn:E1.
  2:{ do 2 eexists. split; [done|]. by eapply chat_bad_request. }
  unfold bind at 1, externals.
  destruct (configured (GOOGLE_GEMINI_API_KEY ext)) eqn:Hk; cbn [negb].
  2:{ do 2 eexists. split; [done|]. by eapply chat_not_configured. }
  unfold bind at 1.
  destruct (retryWithBackoff embedding_operation 3 1000 ext st1)
    as [[q|e] st2] eqn:E2.
  2:{ do 2 eexists. split; [done|]. by eapply chat_embedding_failed. }
  unfold bind at 1.
  destruct (retrieve_returns q (userId json) ext st2) as [chunks E3].
  rewrite E3.
  case_bool_decide as Hn.
  { apply nil_length_inv in Hn as ->. do 2 eexists. split; [done|].
    by eapply chat_no_chunks. }
  assert (chunks <> []) as Hne by (by intros ->).
  change (String.concat _ (map r_content chunks)) with (context_of chunks).
  case_bool_decide as Hc.
  { assert (context_of chunks = EmptyString) as Hc'
      by (by destruct (context_of chunks)).
    unfold bind. rewrite insert_chat_message_returns.
    do 2 eexists. split; [done|].
    eapply chat_no_context; [done..|]. apply insert_chat_message_returns. }
  assert (context_of chunks <> EmptyString) as Hc'
    by (intros Heq; by rewrite Heq in Hc).
  unfold bind at 1, try_catch, bind at 1.
  destruct (generateAIResponse _ ext st2) as [[result|e] st3] eqn:E4.
  - unfold ret at 1. unfold bind. rewrite insert_chat_message_returns.
    do 2 eexists. split; [done|].
    eapply chat_answer; [done..|]. apply insert_chat_message_returns.
  - unfold bind. rewrite insert_chat_message_returns.
    do 2 eexists. split; [done|].
    eapply chat_apology; [done..|]. apply insert_chat_message_returns.
Qed.

Lemma chat_failure_message e :
  exists msg, chat_failure e = mkResponse 500 None None None (Some msg) /\
              msg <> EmptyString.
Proof.
  unfold chat_failure. destruct (String.eqb (message e) EmptyString) eqn:E.
  - by eexists.
  - eexists. split; [done|]. by apply String.eqb_neq.
Qed.

Lemma length_substring n m s : (String.length (String.substring n m s) <= m)%nat.
Proof.
  revert n m. induction s as [|a s IH]; intros n m.
  - destruct n, m; simpl; lia.
  - destruct n as [|n]; destruct m as [|m]; simpl; try lia.
    + specialize (IH 0%nat m). lia.
    + apply IH.
    + apply IH.
Qed.

Lemma length_append a b :
  String.length (a +:+ b) = (String.length a + String.length b)%nat.
Proof. induction a as [|c a IH]; simpl; [done|]. by rewrite IH. Qed.

Lemma source_of_shape chunk :
  document_title (source_of chunk) <> EmptyString /\
  (String.length (source_excerpt (source_of chunk)) <= 103)%nat /\
  source_page (source_of chunk) = r_page_number chunk.
Proof.
  unfold source_of. simpl. split; [|split; [|done]].
  - destruct (r_title chunk) as [title|]; [|done].
    destruct (String.eqb title EmptyString) eqn:E; [done|].
    by apply String.eqb_neq.
  - rewrite length_append. pose proof (length_substring 0 100 (r_content chunk)).
    simpl. lia.
Qed.

End chat_paths.

Section chat_theorems.
Import ChatWithDocuments.

(** What the steps of a path leave of the state, step by step. *)
Ltac chat_steps :=
  repeat match goal with
  | H : req_json _ _ _ = (Returned _, _) |- _ =>
      let B := fresh "Hbody" in
      pose proof (req_json_frame _ _ _ _ _ H) as (_ & _ & B);
      specialize (B _ eq_refl);
      apply req_json_state in H as [-> | ->]
  | H : req_json _ _ _ = (Thrown _, _) |- _ =>
      apply req_json_state in H as [-> | ->]
  | H : retryWithBackoff embedding_operation 3 1000 _ _ = _ |- _ =>
      apply embedding_retry_within in H as (_ & ? & ? & (? & ? & ? & ?) & _)
  | H : generateAIResponse _ _ _ = _, K : configured _ = true |- _ =>
      apply (generateAIResponse_calls _ _ _ _ _ K) in H
        as (? & (? & ? & ? & ?) & ? & ?)
  | H : insert_chat_message ?row ?ext ?st = (_, _) |- _ =>
      rewrite insert_chat_message_returns in H;
      injection H as <- <-
  end.

(** X12: the chat function always returns a response, and what it
    records is what it answers. It writes to no table but that of the
    chat messages, to which it appends nothing or one message: a message
    of the session of the request, with role [assistant], whose content
    and sources are the [response] and the [sources] of the response,
    which then has status 200. *)
Theorem serve_records_its_answer (req : Request) (ext : Externals) (st : State) :
  exists resp st',
    serve req ext st = (Returned resp, st') /\
    documents st' = documents st /\
    document_chunks st' = document_chunks st /\
    (chat_messages st' = chat_messages st \/
     exists json text sources,
       body req = Some json /\ http_status resp = 200 /\
       payload_response resp = Some text /\
       payload_sources resp = Some sources /\
       chat_messages st'
       = chat_messages st
         ++ [mkChatMessage (sessionId json) "assistant" text sources]).
Proof.
  destruct (serve_paths req ext st) as (resp & st' & E & Hrun).
  exists resp, st'. split; [exact E|]. clear E.
  destruct Hrun; chat_steps; simpl in *; subst;
    try (split; [congruence|]; split; [congruence|]; by left).
  all: destruct (db_fault ext InsertChatMessage); simpl;
    (split; [congruence|]; split; [congruence|]).
  all: first [ left; congruence
             | right; eexists _, _, _; split; [eassumption|];
               do 3 (split; [reflexivity|]); unfold assistant_message;
               simpl; congruence ].
Qed.

(** X13: a response whose status is not 200 has status 500, carries a
    non-empty error message and nothing else, and was decided before
    generation: no request went to a generation provider and no message
    was recorded. *)
Theorem serve_fails_before_generation (req : Request) (ext : Externals)
    (st st' : State) (resp : Response) :
  serve req ext st = (Returned resp, st') ->
  http_status resp <> 200 ->
  http_status resp = 500 /\
  payload_response resp = None /\ payload_sources resp = None /\
  payload_provider resp = None /\
  (exists msg, payload_error resp = Some msg /\ msg <> EmptyString) /\
  gemini_calls st' = gemini_calls st /\ openai_calls st' = openai_calls st /\
  chat_messages st' = chat_messages st.
Proof.
  intros E Hstatus.
  destruct (serve_paths req ext st) as (resp0 & st0 & E0 & Hrun).
  rewrite E in E0. injection E0 as <- <-.
  destruct Hrun; try done;
    match goal with |- context [chat_failure ?e] =>
      destruct (chat_failure_message e) as (msg & -> & Hmsg) end;
    chat_steps; simpl in *;
    (do 4 (split; [done|]); split; [by exists msg|]);
    repeat split; congruence.
Qed.

Lemma serve_fails_before_generation_witness :
  exists resp st',
    serve question embedding_down_world (fresh []) = (Returned resp, st') /\
    http_status resp = 500 /\
    payload_response resp = None /\ payload_sources resp = None /\
    payload_provider resp = None /\
    (exists msg, payload_error resp = Some msg /\ msg <> EmptyString) /\
    gemini_calls st' = gemini_calls (fresh []) /\
    openai_calls st' = openai_calls (fresh []) /\
    chat_messages st' = chat_messages (fresh []).
Proof.
  eassert (serve question embedding_down_world (fresh []) = (Returned _, _))
    as E by (vm_compute; reflexivity).
  eexists _, _. split; [exact E|].
  apply (serve_fails_before_generation _ _ _ _ _ E). discriminate.
Defined.

(** X14: a response that names a provider is an answer of that
    provider, and the provider is [Gemini] or [OpenAI (fallback)], never
    the secondary on its own: the primary was sent a request; the
    secondary was sent one exactly when it is the provider named. The
    response has status 200, no error, a text that is not empty and at
    least one source. *)
Theorem serve_names_its_provider (req : Request) (ext : Externals)
    (st st' : State) (resp : Response) (p : string) :
  serve req ext st = (Returned resp, st') ->
  payload_provider resp = Some p ->
  (p = "Gemini" /\ openai_calls st' = openai_calls st \/
   p = "OpenAI (fallback)" /\ (openai_calls st < openai_calls st')%nat) /\
  (gemini_calls st < gemini_calls st')%nat /\
  http_status resp = 200 /\ payload_error resp = None /\
  exists text sources,
    payload_response resp = Some text /\ text <> EmptyString /\
    payload_sources resp = Some sources /\ sources <> [].
Proof.
  intros E Hp.
  destruct (serve_paths req ext st) as (resp0 & st0 & E0 & Hrun).
  rewrite E in E0. injection E0 as <- <-.
  destruct Hrun; try (by unfold chat_failure in Hp); [].
  simpl in Hp. injection Hp as <-.
  chat_steps;
    (match goal with H : forall r, Returned ?x = Returned r -> _ |- _ =>
       destruct (H _ eq_refl) as (Hanswer & Hprovider) end);
    (split;
     [destruct Hprovider as [[Hp Ho]|[Hp Ho]]; [left|right];
      (split; [done|]); destruct (db_fault ext InsertChatMessage);
      simpl in *; first [congruence | lia]|]);
    (split; [destruct (db_fault ext InsertChatMessage); simpl in *; lia|]);
    do 2 (split; [done|]); eexists _, _; do 3 (split; [done|]);
    simpl;
    match goal with |- map _ ?l <> [] => by destruct l end.
Qed.

Lemma serve_names_its_provider_witness :
  exists resp st',
    serve question answering_world (fresh []) = (Returned resp, st') /\
    ("Gemini" = "Gemini" /\ openai_calls st' = openai_calls (fresh []) \/
     "Gemini" = "OpenAI (fallback)" /\
     (openai_calls (fresh []) < openai_calls st')%nat) /\
    (gemini_calls (fresh []) < gemini_calls st')%nat /\
    http_status resp = 200 /\ payload_error resp = None /\
    exists text sources,
      payload_response resp = Some text /\ text <> EmptyString /\
      payload_sources resp = Some sources /\ sources <> [].
Proof.
  eassert (serve question answering_world (fresh []) = (Returned _, _))
    as E by (vm_compute; reflexivity).
  eexists _, _. split; [exact E|].
  apply (serve_names_its_provider _ _ _ _ _ "Gemini" E). reflexivity.
Defined.

(** X15: the cost of one request to the chat function, [Math.random]
    keeping to its range: at most 4 requests to the embedding endpoint, 4
    to the primary and 3 to the secondary, and pauses of at most 25
    seconds in all. *)
Theorem serve_budget (req : Request) (ext : Externals) (st st' : State)
    (r : Outcome Response) :
  random_in_range ext ->
  serve req ext st = (r, st') ->
  within 4 4 3 25000 st st'.
Proof.
  intros Hrange E.
  destruct (serve_paths req ext st) as (resp0 & st0 & E0 & Hrun).
  rewrite E in E0. injection E0 as -> <-.
  assert (forall {B} (body : option B) s r' s',
            req_json body ext s = (r', s') -> within 0 0 0 0 s s') as Hbody.
  { intros B b s r' s' [-> | ->]%req_json_state; [apply within_refl|].
    unfold within. simpl. repeat split; try lia.
    exists []. split; [by rewrite (right_id_L [] (++))|]. simpl. lra. }
  assert (forall row s r' s',
            insert_chat_message row ext s = (r', s') -> within 0 0 0 0 s s')
    as Hinsert.
  { intros row s r' s'. rewrite insert_chat_message_returns. intros [= _ <-].
    destruct (db_fault ext InsertChatMessage); [apply within_refl|].
    unfold within. simpl. repeat split; try lia.
    exists []. split; [by rewrite (right_id_L [] (++))|]. simpl. lra. }
  destruct Hrun;
    repeat match goal with
    | H : req_json _ _ _ = _ |- _ => apply Hbody in H
    | H : insert_chat_message _ _ _ = _ |- _ => apply Hinsert in H
    | H : retryWithBackoff embedding_operation 3 1000 _ _ = _ |- _ =>
        apply embedding_retry_within in H as (_ & _ & _ & _ & H);
        specialize (H Hrange)
    | H : generateAIResponse _ _ _ = _ |- _ =>
        apply (generateAIResponse_within _ _ _ _ _ Hrange) in H as [H _]
    end.
  - subst. eapply within_weaken; [..|apply within_refl]; try lia. lra.
  - eapply within_weaken; [..|eassumption]; try lia. lra.
  - eapply within_weaken; [..|eassumption]; try lia. lra.
  - eapply within_weaken; [..|eapply within_trans; eassumption]; simpl; try lia.
    lra.
  - eapply within_weaken; [..|eapply within_trans; eassumption]; simpl; try lia.
    lra.
  - eapply within_weaken;
      [..|eapply within_trans; [eapply within_trans|]; eassumption];
      simpl; try lia. lra.
  - eapply within_weaken;
      [..|eapply within_trans; [eapply within_trans; [eapply within_trans|]|];
          eassumption];
      simpl; try lia. lra.
  - eapply within_weaken;
      [..|eapply within_trans; [eapply within_trans; [eapply within_trans|]|];
          eassumption];
      simpl; try lia. lra.
Qed.

Lemma serve_budget_witness :
  exists r st',
    serve question degraded_world (fresh []) = (r, st') /\
    within 4 4 3 25000 (fresh []) st'.
Proof.
  eassert (serve question degraded_world (fresh []) = (_, _))
    as E by (vm_compute; reflexivity).
  eexists _, _. split; [exact E|].
  apply (serve_budget _ degraded_world _ _ _
           ltac:(intros k; split; by vm_compute) E).
Defined.

(** X16: a response with status 200 that carries an error is the apology
    for a failure of generation: the error is [AI_SERVICE_UNAVAILABLE],
    the text is the apology for the error [generateAIResponse] threw, no
    source and no provider are given, and the primary was sent a
    request. *)
Theorem serve_degraded (req : Request) (ext : Externals) (st st' : State)
    (resp : Response) (err : string) :
  serve req ext st = (Returned resp, st') ->
  http_status resp = 200 ->
  payload_error resp = Some err ->
  err = "AI_SERVICE_UNAVAILABLE" /\
  payload_sources resp = Some [] /\ payload_provider resp = None /\
  (gemini_calls st < gemini_calls st')%nat /\
  exists error prompt st2 st3,
    generateAIResponse prompt ext st2 = (Thrown error, st3) /\
    payload_response resp = Some (apology error).
Proof.
  intros E Hstatus Herr.
  destruct (serve_paths req ext st) as (resp0 & st0 & E0 & Hrun).
  rewrite E in E0. injection E0 as <- <-.
  destruct Hrun; try done;
    try (by destruct (chat_failure_message e) as (? & Hf & ?);
            rewrite Hf in Hstatus).
  simpl in Herr. injection Herr as <-.
  do 3 (split; [done|]). split.
  - chat_steps; destruct (db_fault ext InsertChatMessage); simpl in *; lia.
  - by eexists _, _, _, _.
Qed.

Lemma serve_degraded_witness :
  exists resp st',
    serve question degraded_world (fresh []) = (Returned resp, st') /\
    "AI_SERVICE_UNAVAILABLE" = "AI_SERVICE_UNAVAILABLE" /\
    payload_sources resp = Some [] /\ payload_provider resp = None /\
    (gemini_calls (fresh []) < gemini_calls st')%nat /\
    exists error prompt st2 st3,
      generateAIResponse prompt degraded_world st2 = (Thrown error, st3) /\
      payload_response resp = Some (apology error).
Proof.
  eassert (serve question degraded_world (fresh []) = (Returned _, _))
    as E by (vm_compute; reflexivity).
  eexists _, _. split; [exact E|].
  apply (serve_degraded _ _ _ _ _ "AI_SERVICE_UNAVAILABLE" E); reflexivity.
Defined.

(** X17: the sources of a response are excerpts: every source has a
    title that is not empty and an excerpt of at most 103 characters (100
    of the chunk and the ellipsis); and a response that gives a source
    names a provider. *)
Theorem serve_cites_excerpts (req : Request) (ext : Externals) (st st' : State)
    (resp : Response) (sources : list Source) :
  serve req ext st = (Returned resp, st') ->
  payload_sources resp = Some sources ->
  Forall (fun s => document_title s <> EmptyString /\
                   (String.length (source_excerpt s) <= 103)%nat) sources /\
  (sources <> [] -> exists p, payload_provider resp = Some p).
Proof.
  intros E Hs.
  destruct (serve_paths req ext st) as (resp0 & st0 & E0 & Hrun).
  rewrite E in E0. injection E0 as <- <-.
  destruct Hrun; try (by unfold chat_failure in Hs); simpl in Hs;
    try discriminate; injection Hs as <-; try (split; [constructor|done]).
  split; [|by eexists].
  apply Forall_forall. intros s (chunk & -> & _)%list_elem_of_fmap.
  by destruct (source_of_shape chunk) as (? & ? & _).
Qed.

Lemma serve_cites_excerpts_witness :
  exists resp st' sources,
    serve question answering_world (fresh []) = (Returned resp, st') /\
    payload_sources resp = Some sources /\
    Forall (fun s => document_title s <> EmptyString /\
                     (String.length (source_excerpt s) <= 103)%nat) sources /\
    (sources <> [] -> exists p, payload_provider resp = Some p).
Proof.
  eassert (serve question answering_world (fresh []) = (Returned _, _))
    as E by (vm_compute; reflexivity).
  eexists _, _, _. split; [exact E|]. split; [reflexivity|].
  apply (serve_cites_excerpts _ _ _ _ _ _ E). reflexivity.
Defined.

End chat_theorems.


(* ===================================================================== *)
(** * 20. More properties of the ingestion function *)
(* ===================================================================== *)

(** ** Page numbers: the arithmetic of doubles *)

Section doubles.
Import SpecFloat ProcessDocument.

(** [iter_pos f p] applies [f] [p] times. *)
Lemma iter_pos_nat {A} (f : A -> A) p x :
  iter_pos f p x = Nat.iter (Pos.to_nat p) f x.
Proof.
  revert x. induction p as [p IH|p IH|]; intros x; cbn [iter_pos].
  - rewrite !IH, Pos2Nat.inj_xI.
    change (Nat.iter (S (2 * Pos.to_nat p)) f x)
      with (f (Nat.iter (2 * Pos.to_nat p) f x)).
    replace (2 * Pos.to_nat p)%nat with (Pos.to_nat p + Pos.to_nat p)%nat by lia.
    rewrite Nat.iter_add.
    rewrite <- (Nat.iter_succ_r (Pos.to_nat p) f x). cbn [Nat.iter nat_rect].
    by rewrite <- Nat.iter_succ_r.
  - rewrite !IH, Pos2Nat.inj_xO.
    replace (2 * Pos.to_nat p)%nat with (Pos.to_nat p + Pos.to_nat p)%nat by lia.
    by rewrite Nat.iter_add.
  - reflexivity.
Qed.

(** One shift to the right halves the mantissa; the bit shifted out
    becomes the round bit, and the sticky bit remembers the former two. *)
Lemma shr_1_spec m r s :
  0 <= m ->
  shr_1 (Build_shr_record m r s) = Build_shr_record (m / 2) (Z.odd m) (r || s).
Proof.
  intros Hm. rewrite <- Z.div2_div.
  destruct m as [|p|p]; [done| |lia].
  by destruct p.
Qed.

Lemma shr_iter n m r s :
  0 <= m ->
  let mrs := Nat.iter n shr_1 (Build_shr_record m r s) in
  shr_m mrs = m / 2 ^ Z.of_nat n /\
  (shr_r mrs || shr_s mrs = true -> m mod 2 ^ Z.of_nat n <> 0 \/ r || s = true).
Proof.
  intros Hm. induction n as [|n IH].
  - simpl. split; [by rewrite Z.div_1_r|]. auto.
  - cbv zeta in *. rewrite Nat.iter_succ. destruct IH as [IHm IHs].
    destruct (Nat.iter n shr_1 _) as [m' r' s'] eqn:E.
    cbn [shr_m shr_r shr_s] in IHm, IHs.
    assert (0 <= m') as Hm' by (subst m'; apply Z.div_pos; lia).
    rewrite shr_1_spec by done. cbn [shr_m shr_r shr_s].
    rewrite Nat2Z.inj_succ, Z.pow_succ_r by lia.
    split.
    + subst m'. rewrite Z.div_div by lia. f_equal. lia.
    + intros H.
      destruct (Z.odd m') eqn:Hodd; simpl in H.
      * left. intros Hmod.
        assert (m = 2 * 2 ^ Z.of_nat n * (m / (2 * 2 ^ Z.of_nat n))) as Hdiv.
        { pose proof (Z.div_mod m (2 * 2 ^ Z.of_nat n) ltac:(lia)). lia. }
        assert (m' = 2 * (m / (2 * 2 ^ Z.of_nat n))) as Hm2.
        { subst m'. rewrite Hdiv at 1.
          replace (2 * 2 ^ Z.of_nat n * (m / (2 * 2 ^ Z.of_nat n)))
            with ((2 * (m / (2 * 2 ^ Z.of_nat n))) * 2 ^ Z.of_nat n) by lia.
          rewrite Z.div_mul; lia. }
        rewrite Hm2 in Hodd. rewrite Z.odd_mul in Hodd. done.
      * destruct (IHs H) as [Hmod|Hrs]; [|by right].
        left. intros Hmod2. apply Hmod.
        pose proof (Z.div_mod m (2 * 2 ^ Z.of_nat n) ltac:(lia)) as Hdm.
        rewrite Hmod2 in Hdm.
        rewrite Hdm at 1.
        replace (2 * 2 ^ Z.of_nat n * (m / (2 * 2 ^ Z.of_nat n)) + 0)
          with ((2 * (m / (2 * 2 ^ Z.of_nat n))) * 2 ^ Z.of_nat n) by lia.
        apply Z.mod_mul. lia.
Qed.

Lemma inexact_loc_of_shr_record mrs :
  inexact (loc_of_shr_record mrs) = 1 -> shr_r mrs || shr_s mrs = true.
Proof. by destruct mrs as [m [] []]. Qed.

Lemma shr_record_of_loc_spec m l :
  shr_m (shr_record_of_loc m l) = m /\
  loc_of_shr_record (shr_record_of_loc m l) = l /\
  (shr_r (shr_record_of_loc m l) || shr_s (shr_record_of_loc m l) = true ->
   inexact l = 1).
Proof. by destruct l as [|[]]. Qed.

Lemma inexact_range l : 0 <= inexact l <= 1.
Proof. destruct l; simpl; lia. Qed.

Lemma digits2_pos_size p : digits2_pos p = Pos.size p.
Proof. induction p; simpl; congruence. Qed.

(** A number below [2^K] has at most [K] digits. *)
Lemma Zdigits2_bound m K : 0 <= m -> 0 <= K -> m < 2 ^ K -> Zdigits2 m <= K.
Proof.
  intros Hm HK Hlt. destruct m as [|p|p]; [done| |lia]. simpl.
  rewrite digits2_pos_size.
  pose proof (Pos.size_le p) as Hle.
  apply Pos2Z.pos_le_pos in Hle. rewrite Pos2Z.inj_pow in Hle.
  change (Z.pos p~0) with (2 * Z.pos p) in Hle.
  assert (2 ^ Z.pos (Pos.size p) < 2 ^ (K + 1)) as Hpow.
  { rewrite Z.pow_add_r by lia. change (2 ^ 1) with 2. lia. }
  apply Z.pow_lt_mono_r_iff in Hpow; lia.
Qed.

(** The shift that brings a mantissa to the exponent of its format keeps
    an upper bound [B]: when the number, which lies [inexact l] above
    [m * 2^e] at most, is at most [B], so is the shifted one. *)
Lemma shr_fexp_bound B m e l mrs e' :
  0 <= m -> e <= 0 -> 0 <= B < 2 ^ 53 ->
  m + inexact l <= B * 2 ^ (- e) ->
  shr_fexp 53 1024 m e l = (mrs, e') ->
  e' <= 0 /\ 0 <= shr_m mrs /\
  shr_m mrs + inexact (loc_of_shr_record mrs) <= B * 2 ^ (- e').
Proof.
  intros Hm He HB Hle. unfold shr_fexp, shr.
  destruct (shr_record_of_loc_spec m l) as (Em & El & Ers).
  pose proof (inexact_range l) as Hl.
  assert (Zdigits2 m + e <= 53) as Hd.
  { assert (Zdigits2 m <= 53 - e) as Hd; [|lia].
    apply Zdigits2_bound; [lia..|].
    replace (53 - e) with (53 + - e) by lia. rewrite Z.pow_add_r by lia.
    assert (0 < 2 ^ (- e)) by (apply Z.pow_pos_nonneg; lia).
    nia. }
  destruct (fexp 53 1024 (Zdigits2 m + e) - e) as [|p|p] eqn:En.
  1,3: intros [= <- <-]; rewrite Em, El; lia.
  intros [= <- <-].
  assert (e + Z.pos p <= 0) as He'.
  { unfold fexp, emin in En. lia. }
  split; [done|].
  rewrite iter_pos_nat.
  destruct (shr_record_of_loc m l) as [m0 r0 s0]. simpl in Em, Ers. subst m0.
  destruct (shr_iter (Pos.to_nat p) m r0 s0 Hm) as [Hq Hs].
  rewrite positive_nat_Z in Hq, Hs. cbv zeta in Hq, Hs.
  set (mrs := Nat.iter _ _ _) in *.
  assert (B * 2 ^ (- e) = B * 2 ^ (- (e + Z.pos p)) * 2 ^ Z.pos p) as HN.
  { rewrite <- Z.mul_assoc, <- Z.pow_add_r by lia. do 2 f_equal. lia. }
  rewrite HN in Hle. set (N := B * 2 ^ (- (e + Z.pos p))) in *.
  assert (0 < 2 ^ Z.pos p) as Hp by (apply Z.pow_pos_nonneg; lia).
  rewrite Hq. split; [apply Z.div_pos; lia|].
  destruct (loc_of_shr_record mrs) eqn:Eloc; simpl.
  - rewrite Z.add_0_r. apply Z.div_le_upper_bound; lia.
  - assert (m / 2 ^ Z.pos p < N); [|lia].
    apply Z.div_lt_upper_bound; [done|].
    destruct Hs as [Hmod|Hrs].
    + apply inexact_loc_of_shr_record. by rewrite Eloc.
    + assert (m <> N * 2 ^ Z.pos p); [|lia].
      intros ->. apply Hmod. apply Z.mod_mul. lia.
    + apply Ers in Hrs. lia.
Qed.

Lemma round_nearest_even_bound m l :
  m <= round_nearest_even m l <= m + inexact l.
Proof.
  destruct l as [|[]]; simpl; [lia| | lia | lia].
  destruct (Z.even m); lia.
Qed.

(** Rounding to nearest does not pass a bound [B] that is an integer
    below [2^53]: such a [B] is a double. *)
Lemma binary_round_aux_bound B mx ex lx s m e :
  0 <= mx -> ex <= 0 -> 0 <= B < 2 ^ 53 ->
  mx + inexact lx <= B * 2 ^ (- ex) ->
  binary_round_aux 53 1024 false mx ex lx = S754_finite s m e ->
  s = false /\ e <= 0 /\ Z.pos m <= B * 2 ^ (- e).
Proof.
  intros Hm He HB Hle. unfold binary_round_aux.
  destruct (shr_fexp 53 1024 mx ex lx) as [mrs1 e1] eqn:E1.
  destruct (shr_fexp_bound B mx ex lx mrs1 e1 Hm He HB Hle E1)
    as (He1 & Hm1 & Hle1).
  pose proof (round_nearest_even_bound (shr_m mrs1) (loc_of_shr_record mrs1))
    as Hr.
  set (m2 := round_nearest_even _ _) in *.
  destruct (shr_fexp 53 1024 m2 e1 loc_Exact) as [mrs2 e2] eqn:E2.
  destruct (shr_fexp_bound B m2 e1 loc_Exact mrs2 e2) as (He2 & Hm2 & Hle2);
    [simpl; lia..|done|].
  pose proof (inexact_range (loc_of_shr_record mrs2)).
  destruct (shr_m mrs2) as [|p|p]; [done| |done].
  destruct (e2 <=? 1024 - 53); [|done].
  intros [= <- <- <-]. repeat split; lia.
Qed.

Lemma iter_xO p k : Z.pos (Pos.iter xO p k) = Z.pos p * 2 ^ Z.pos k.
Proof.
  induction k as [|k IH] using Pos.peano_ind.
  - simpl. lia.
  - rewrite Pos.iter_succ, Pos2Z.inj_xO, IH, Pos2Z.inj_succ.
    rewrite Z.pow_succ_r by lia. lia.
Qed.

Lemma digits_iter_xO p k :
  Z.pos (digits2_pos (Pos.iter xO p k)) = Z.pos (digits2_pos p) + Z.pos k.
Proof.
  induction k as [|k IH] using Pos.peano_ind.
  - simpl. lia.
  - rewrite Pos.iter_succ. cbn [digits2_pos].
    rewrite Pos2Z.inj_succ, IH. lia.
Qed.

(** A mantissa of 53 digits at an exponent of the format is left as it
    is. *)
Lemma binary_round_aux_canonical m e :
  Z.pos (digits2_pos m) = 53 -> -1074 <= e <= 0 ->
  binary_round_aux 53 1024 false (Z.pos m) e loc_Exact = S754_finite false m e.
Proof.
  intros Hd He. unfold binary_round_aux.
  assert (shr_fexp 53 1024 (Z.pos m) e loc_Exact
          = (Build_shr_record (Z.pos m) false false, e)) as E.
  { unfold shr_fexp. cbn [Zdigits2]. rewrite Hd.
    replace (fexp 53 1024 (53 + e) - e) with 0 by (unfold fexp, emin; lia).
    reflexivity. }
  rewrite E. cbn [shr_m loc_of_shr_record round_nearest_even]. rewrite E.
  cbn [shr_m]. destruct (e <=? 1024 - 53) eqn:El; [done|].
  apply Z.leb_gt in El. lia.
Qed.

(** An integer below [2^53] is a double. *)
Lemma to_double_exact n :
  0 < n < 2 ^ 53 ->
  exists m e,
    to_double n = S754_finite false m e /\
    -52 <= e <= 0 /\ Z.pos m = n * 2 ^ (- e) /\ Z.pos (digits2_pos m) = 53.
Proof.
  intros [Hn0 Hn]. destruct n as [|p|p]; [lia| |lia].
  unfold to_double, binary_normalize, binary_round.
  pose proof (Zdigits2_bound (Z.pos p) 53 ltac:(lia) ltac:(lia) Hn) as Hd.
  cbn [Zdigits2] in Hd. set (d := Z.pos (digits2_pos p)) in *.
  assert (0 < d) as Hd0 by (subst d; lia).
  replace (fexp 53 1024 (d + 0)) with (d - 53) by (unfold fexp, emin; lia).
  unfold shl_align.
  destruct (d - 53 - 0) as [|k|k] eqn:Ek; [|lia|].
  - exists p, 0. rewrite binary_round_aux_canonical by (fold d; lia).
    simpl. fold d. repeat split; lia.
  - exists (Pos.iter xO p k), (d - 53).
    rewrite binary_round_aux_canonical
      by (rewrite ?digits_iter_xO; fold d; lia).
    rewrite iter_xO, digits_iter_xO. fold d.
    replace (- (d - 53)) with (Z.pos k) by lia.
    repeat split; lia.
Qed.

Lemma new_location_inexact nb_steps k :
  inexact (new_location nb_steps k) = 1 -> k <> 0.
Proof.
  unfold new_location, new_location_even, new_location_odd.
  intros H ->. by destruct (Z.even nb_steps).
Qed.

(** The quotient of two integers below [2^53], the first at most the
    second, is at most 1. *)
Lemma double_div_bound s L sg m e :
  0 < s <= L -> L < 2 ^ 53 ->
  double_div (to_double s) (to_double L) = S754_finite sg m e ->
  sg = false /\ e <= 0 /\ Z.pos m <= 1 * 2 ^ (- e).
Proof.
  intros Hs HL.
  destruct (to_double_exact s) as (m1 & e1 & -> & He1 & Hm1 & Hd1); [lia|].
  destruct (to_double_exact L) as (m2 & e2 & -> & He2 & Hm2 & Hd2); [lia|].
  unfold double_div, SFdiv, SFdiv_core_binary. cbn [xorb Zdigits2].
  rewrite Hd1, Hd2.
  replace (Z.min (fexp 53 1024 (53 + e1 - (53 + e2))) (e1 - e2))
    with (e1 - e2 - 53) by (unfold fexp, emin; lia).
  replace (e1 - e2 - (e1 - e2 - 53)) with 53 by lia.
  rewrite Z.shiftl_mul_pow2 by lia.
  pose proof (Z_div_mod (Z.pos m1 * 2 ^ 53) (Z.pos m2) ltac:(lia)) as Hdiv.
  destruct (Z.div_eucl (Z.pos m1 * 2 ^ 53) (Z.pos m2)) as [q r].
  destruct Hdiv as [Hdiv Hr].
  assert (0 < 2 ^ (53 - e1)) as HT by (apply Z.pow_pos_nonneg; lia).
  assert (Z.pos m1 * 2 ^ 53 = s * 2 ^ (53 - e1)) as Ha.
  { rewrite Hm1, <- Z.mul_assoc, <- Z.pow_add_r by lia. do 2 f_equal. lia. }
  assert (Z.pos m2 * 2 ^ (- (e1 - e2 - 53)) = L * 2 ^ (53 - e1)) as Hb.
  { rewrite Hm2, <- Z.mul_assoc, <- Z.pow_add_r by lia. do 2 f_equal. lia. }
  set (N := 2 ^ (- (e1 - e2 - 53))) in *.
  apply binary_round_aux_bound; [nia|lia|lia|].
  fold N. rewrite Z.mul_1_l.
  pose proof (inexact_range (new_location (Z.pos m2) r)) as Hl.
  destruct (decide (inexact (new_location (Z.pos m2) r) = 1)) as [E|E].
  - rewrite E. apply new_location_inexact in E. nia.
  - replace (inexact (new_location (Z.pos m2) r)) with 0 by lia. nia.
Qed.

(** The product of a double that is at most 1 and an integer below
    [2^53] is at most that integer. *)
Lemma double_mul_bound mr er P sg m e :
  er <= 0 -> Z.pos mr <= 1 * 2 ^ (- er) -> 0 < P < 2 ^ 53 ->
  double_mul (S754_finite false mr er) (to_double P) = S754_finite sg m e ->
  sg = false /\ e <= 0 /\ Z.pos m <= P * 2 ^ (- e).
Proof.
  intros Her Hmr HP.
  destruct (to_double_exact P) as (mP & eP & -> & HeP & HmP & _); [lia|].
  unfold double_mul, SFmul. cbn [xorb].
  apply binary_round_aux_bound; [lia..|].
  simpl inexact. rewrite Z.add_0_r, Pos2Z.inj_mul, HmP.
  replace (- (er + eP)) with (- er + - eP) by lia.
  rewrite Z.pow_add_r by lia.
  assert (0 < 2 ^ (- eP)) by (apply Z.pow_pos_nonneg; lia).
  nia.
Qed.

Lemma Math_ceil_bound B m e :
  e <= 0 -> Z.pos m <= B * 2 ^ (- e) ->
  exists p, Math_ceil (S754_finite false m e) = Some p /\ 1 <= p <= B.
Proof.
  intros He Hm. unfold Math_ceil. cbn [cond_Zopp]. eexists. split; [done|].
  destruct (Z.leb_spec 0 e) as [H0|H0].
  - replace e with 0 in * by lia. simpl in *. lia.
  - assert (0 < 2 ^ (- e)) as Hk by (apply Z.pow_pos_nonneg; lia).
    assert (- B <= - Z.pos m / 2 ^ (- e))
      by (apply Z.div_le_lower_bound; lia).
    assert (- Z.pos m / 2 ^ (- e) < 0)
      by (apply Z.div_lt_upper_bound; lia).
    lia.
Qed.

(** A page number lies within the document (lengths and page counts are
    below [2^53], as every integer that JavaScript counts with). *)
Lemma page_of_range s L P :
  0 <= s <= L -> 0 < L < 2 ^ 53 -> 1 <= P < 2 ^ 53 ->
  1 <= page_of s L P <= P.
Proof.
  intros Hs HL HP. unfold page_of.
  destruct (double_mul _ _) as [sg|sg| |sg m e] eqn:E; [simpl; lia..|].
  assert (exists p, Math_ceil (S754_finite sg m e) = Some p /\ 1 <= p <= P)
    as (p & Hp & Hrange).
  { destruct (decide (s = 0)) as [->|Hs0].
    { destruct (to_double_exact L) as (m2 & e2 & E2 & _); [lia|].
      destruct (to_double_exact P) as (m3 & e3 & E3 & _); [lia|].
      by rewrite E2, E3 in E. }
    destruct (double_div _ _) as [sr|sr| |sr mr er] eqn:Ediv.
    1-3: destruct (to_double_exact P) as (m3 & e3 & E3 & _); [lia|];
         by rewrite E3 in E.
    apply double_div_bound in Ediv as (-> & Her & Hmr); [|lia..].
    apply double_mul_bound in E as (-> & He & Hm); [|lia..].
    by apply Math_ceil_bound. }
  rewrite Hp. destruct (Z.eqb_spec p 0); lia.
Qed.

End doubles.

Section page_numbers.
Import ProcessDocument.

(** Rounding shows: 700 / 1250 * 25 is 14 in exact arithmetic, and the
    product of the doubles lies just above 14. *)
Example page_of_rounding :
  page_of 700 1250 25 = 15 /\ page_of 0 1250 25 = 1 /\
  page_of 1250 1250 25 = 25.
Proof. repeat split; vm_compute; reflexivity. Qed.

Lemma lookup_paged_chunks extracted totalPages k chunk :
  paged_chunks extracted totalPages !! k = Some chunk ->
  exists c, chunkText extracted 1000 200 !! k = Some c /\
    p_content chunk = content c /\
    page chunk = page_of (startIndex c) (len extracted) totalPages.
Proof.
  unfold paged_chunks. rewrite list_lookup_imap.
  destruct (chunkText extracted 1000 200 !! k) as [c|]; [|done].
  intros [= <-]. by exists c.
Qed.

End page_numbers.

Section embedding_loop.
Import ProcessDocument.
Context (documentId : string) (document : Document) (ext : Externals).

(** One chunk: one request, and one row or none. *)
Lemma process_chunk_row i chunk st :
  exists st' new,
    process_chunk documentId document i chunk ext st = (Returned tt, st') /\
    embeds_only st st' /\
    embedding_calls st' = S (embedding_calls st) /\
    document_chunks st' = document_chunks st ++ new /\
    (new = [] \/
     exists row, new = [row] /\ row_for documentId document i chunk row) /\
    (forall values,
       db_fault ext (InsertChunk i) = None ->
       embedded (embedding_endpoint ext (embedding_calls st)) = Some values ->
       exists row, new = [row] /\ row_for documentId document i chunk row /\
                   embedding row = Some values).
Proof.
  unfold process_chunk, try_catch, bind, fetch_embedding, embeds_only, embedded.
  destruct (embedding_endpoint ext (embedding_calls st)) as [e|resp].
  { exists (set_embedding_calls (S (embedding_calls st)) st), [].
    rewrite (right_id_L [] (++)). simpl. repeat split; try done. by left. }
  destruct (ok resp); cbn [negb].
  2:{ exists (set_embedding_calls (S (embedding_calls st)) st), [].
      rewrite (right_id_L [] (++)). simpl. repeat split; try done. by left. }
  unfold read_json. destruct (json_field resp) as [e| |values]; simpl.
  1,2: exists (set_embedding_calls (S (embedding_calls st)) st), [];
    rewrite (right_id_L [] (++)); simpl; repeat split; try done; by left.
  unfold insert_chunk, bind, externals.
  destruct (db_fault ext (InsertChunk i)); simpl.
  { exists (set_embedding_calls (S (embedding_calls st)) st), [].
    rewrite (right_id_L [] (++)). simpl. repeat split; try done. by left. }
  eexists _, [_]. split; [done|]. simpl.
  assert (forall v, row_for documentId document i chunk
            (mkChunkRow (gen_random_uuid ext (length (document_chunks st)))
               documentId (doc_user_id document) (p_content chunk) (page chunk)
               i (Some v) (count_tokens (p_content chunk)))) as Hrow.
  { intros v. unfold row_for. simpl. repeat split; done. }
  split; [done|]. split; [done|]. split; [done|]. split.
  - right. eexists. split; [done|]. apply Hrow.
  - intros v _ [= <-]. eexists. split; [done|]. split; [apply Hrow|done].
Qed.

(** The loop: one request for each chunk, and rows of chunks of the
    list, in the order of the list. *)
Lemma process_chunks_rows rest i st :
  exists st' new,
    process_chunks documentId document i rest ext st = (Returned tt, st') /\
    embeds_only st st' /\
    embedding_calls st' = (embedding_calls st + length rest)%nat /\
    document_chunks st' = document_chunks st ++ new /\
    (length new <= length rest)%nat /\
    Forall (fun row => exists k chunk,
              rest !! k = Some chunk /\
              row_for documentId document (i + Z.of_nat k) chunk row) new /\
    StronglySorted (fun a b => chunk_index a < chunk_index b) new.
Proof.
  revert i st. induction rest as [|chunk rest IH]; intros i st.
  - exists st, []. simpl. rewrite (right_id_L [] (++)). unfold embeds_only.
    repeat split; try done; try lia; constructor.
  - destruct (process_chunk_row i chunk st)
      as (st1 & new1 & E1 & K1 & C1 & D1 & R1 & _).
    destruct (IH (i + 1) st1) as (st2 & new2 & E2 & K2 & C2 & D2 & L2 & R2 & S2).
    exists st2, (new1 ++ new2). cbn [process_chunks]. unfold bind.
    rewrite E1, E2. split; [done|].
    split. { unfold embeds_only in *. intuition congruence. }
    split. { simpl. lia. }
    split. { by rewrite D2, D1, (assoc_L (++)). }
    assert (Forall (fun row => exists k c,
              (chunk :: rest) !! k = Some c /\
              row_for documentId document (i + Z.of_nat k) c row) new2) as R2'.
    { eapply Forall_impl; [exact R2|]. intros row (k & c & Hk & Hrow).
      exists (S k), c. split; [done|].
      replace (i + Z.of_nat (S k)) with (i + 1 + Z.of_nat k) by lia. done. }
    split; [|split].
    + rewrite length_app. destruct R1 as [-> | (row & -> & _)]; simpl; lia.
    + apply Forall_app. split; [|done].
      destruct R1 as [-> | (row & -> & Hrow)]; [constructor|].
      constructor; [|constructor]. exists 0%nat, chunk. split; [done|].
      by rewrite Z.add_0_r.
    + destruct R1 as [-> | (row & -> & Hrow)]; [done|]. simpl.
      constructor; [done|].
      eapply Forall_impl; [exact R2|]. intros row2 (k & c & _ & Hrow2).
      destruct Hrow as (_ & _ & _ & _ & -> & _).
      destruct Hrow2 as (_ & _ & _ & _ & -> & _). lia.
Qed.

(** When every request is answered with an embedding and every insertion
    goes through, the loop stores every chunk, in order, each with the
    embedding of its own request. *)
Lemma process_chunks_all rest i st :
  (forall n, is_Some (embedded (embedding_endpoint ext n))) ->
  (forall j, db_fault ext (InsertChunk j) = None) ->
  exists st' new,
    process_chunks documentId document i rest ext st = (Returned tt, st') /\
    document_chunks st' = document_chunks st ++ new /\
    length new = length rest /\
    forall k chunk, rest !! k = Some chunk ->
      exists row, new !! k = Some row /\
        row_for documentId document (i + Z.of_nat k) chunk row /\
        embedding row
        = embedded (embedding_endpoint ext (embedding_calls st + k)).
Proof.
  intros Hembed Hdb. revert i st.
  induction rest as [|chunk rest IH]; intros i st.
  - exists st, []. simpl. rewrite (right_id_L [] (++)). by repeat split.
  - destruct (process_chunk_row i chunk st)
      as (st1 & new1 & E1 & _ & C1 & D1 & _ & V1).
    destruct (Hembed (embedding_calls st)) as [values Hvalues].
    destruct (V1 values (Hdb i) Hvalues) as (row & -> & Hrow & Hv).
    destruct (IH (i + 1) st1) as (st2 & new2 & E2 & D2 & L2 & R2).
    exists st2, (row :: new2). cbn [process_chunks]. unfold bind.
    rewrite E1, E2. split; [done|].
    split. { by rewrite D2, D1, <- (assoc_L (++)). }
    split. { simpl. lia. }
    intros [|k] c Hc.
    + injection Hc as <-. exists row. rewrite Z.add_0_r, Nat.add_0_r.
      split; [done|]. split; [done|]. congruence.
    + destruct (R2 k c Hc) as (row2 & Hk & Hrow2 & Hv2). exists row2.
      split; [done|].
      replace (i + Z.of_nat (S k)) with (i + 1 + Z.of_nat k) by lia.
      split; [done|]. rewrite Hv2, C1. f_equal. f_equal. lia.
Qed.

End embedding_loop.

Section ingestion_paths.
Import ProcessDocument.

Lemma req_json_cases {B} (body : option B) ext st r st' :
  req_json body ext st = (r, st') ->
  bodyUsed st' = true /\
  ((exists e, r = Thrown e) /\ (st' = st \/ st' = set_bodyUsed true st) \/
   exists b, r = Returned b /\ body = Some b /\ bodyUsed st = false /\
             st' = set_bodyUsed true st).
Proof.
  unfold req_json, bind, get. destruct (bodyUsed st) eqn:E.
  - intros [= <- <-]. split; [done|]. left. split; [by eexists|by left].
  - destruct body; intros [= <- <-]; (split; [done|]).
    + right. by eexists.
    + left. split; [by eexists|by right].
Qed.

(** The two stretches of the [try] block: up to the embedding loop, where
    every failure is fatal and nothing is written, and from the loop on. *)
Lemma process_paths req ext st r st' :
  process req ext st = (r, st') ->
  bodyUsed st' = true /\
  ((exists e, r = Thrown e) /\ (st' = st \/ st' = set_bodyUsed true st) \/
   exists documentId document totalPages extracted st1,
     body req = Some documentId /\ bodyUsed st = false /\
     filter (fun d => doc_id d = documentId) (documents st) = [document] /\
     storage ext (file_path document) = Some (Pdf totalPages extracted) /\
     10 <= len extracted /\
     process_chunks documentId document 0 (paged_chunks extracted totalPages)
       ext (set_bodyUsed true st) = (Returned tt, st1) /\
     let n := Z.of_nat (length (chunkText extracted 1000 200)) in
     ((exists e, db_fault ext UpdateDocument = Some e /\ r = Thrown e /\
                 st' = st1) \/
      db_fault ext UpdateDocument = None /\
      r = Returned (mkResponse 200 (Success n totalPages (len extracted))) /\
      st' = set_documents
              (updated documentId (mark_completed n totalPages) (documents st1))
              st1)).
Proof.
  unfold process. unfold bind at 1.
  destruct (req_json (body req) ext st) as [[documentId|e] st1] eqn:E1;
    apply req_json_cases in E1
      as (U1 & [[[e' He'] S1]|(b & Hb & B1 & U0 & S1)]); try discriminate.
  2:{ intros [= <- <-]. split; [done|]. left. split; [by eexists|done]. }
  injection Hb as <-.
  assert (forall e, (exists e', @Thrown Response e = Thrown e') /\
                    (st1 = st \/ st1 = set_bodyUsed true st)) as Hfatal
    by (intros e; split; [by eexists|by right]).
  unfold bind at 1, select_document, bind at 1, externals, bind at 1, get.
  destruct (db_fault ext SelectDocument) as [e|];
    [intros [= <- <-]; split; [done|]; left; apply Hfatal|].
  destruct (filter _ (documents st1)) as [|document [|]] eqn:Ef;
    try (intros [= <- <-]; split; [done|]; left; apply Hfatal).
  unfold ret at 1. unfold bind at 1, download, bind at 1, externals.
  destruct (db_fault ext DownloadFile) as [e|];
    [intros [= <- <-]; split; [done|]; left; apply Hfatal|].
  destruct (storage ext (file_path document)) as [fileData|] eqn:Es;
    [|intros [= <- <-]; split; [done|]; left; apply Hfatal].
  unfold ret at 1. unfold bind at 1, extract.
  destruct fileData as [totalPages extracted|e];
    [|intros [= <- <-]; split; [done|]; left; apply Hfatal].
  unfold ret at 1. cbn [fst snd].
  case_bool_decide as Hlen;
    [intros [= <- <-]; split; [done|]; left; apply Hfatal|].
  unfold bind at 1, externals.
  destruct (negb (configured (GOOGLE_GEMINI_API_KEY ext)));
    [intros [= <- <-]; split; [done|]; left; apply Hfatal|].
  unfold bind at 1.
  destruct (process_chunks_rows documentId document ext
              (paged_chunks extracted totalPages) 0 st1)
    as (st2 & new & E2 & K2 & _).
  rewrite E2.
  assert (bodyUsed st2 = true) as U2.
  { destruct K2 as (_ & _ & _ & _ & -> & _). done. }
  unfold bind at 1, update_document, bind at 1, externals.
  destruct (db_fault ext UpdateDocument) as [e|] eqn:Eu.
  { intros [= <- <-]. split; [done|]. right.
    exists documentId, document, totalPages, extracted, st2.
    subst st1. simpl in Ef. do 5 (split; [first [done|lia]|]).
    split; [done|]. left. by exists e. }
  unfold bind at 1, get. rewrite mark_completed_checked.
  unfold bind, modify, ret. intros [= <- <-]. split; [done|]. right.
  exists documentId, document, totalPages, extracted, st2.
  subst st1. simpl in Ef. do 5 (split; [first [done|lia]|]).
  split; [done|]. right. rewrite length_paged_chunks. done.
Qed.

Lemma updated_ids documentId change table :
  (forall d, doc_id (change d) = doc_id d) ->
  map doc_id (updated documentId change table) = map doc_id table.
Proof.
  intros Hid. unfold updated. rewrite map_map. apply map_ext.
  intros d. by case_bool_decide.
Qed.

End ingestion_paths.

Section ingestion_theorems.
Import ProcessDocument.

(** X18: what the ingestion function stores. It always returns a
    response; it sends no request to a generation provider, never waits
    and records no chat message. The stored chunks are the former ones
    followed by new rows. Either there is no new row and no embedding
    request was sent, or the request names a document that is found and
    whose file is read, one embedding request was sent for each chunk of
    its text, and the new rows come in increasing order of
    [chunk_index]; each of them belongs to the document and to its
    owner, has an embedding, and stores the content of the chunk of the
    text at its index, with the page the code computes, in double
    arithmetic, from the offset of that chunk: a page between 1 and the
    number of pages of the file, the length of the text and the number
    of pages being integers below 2^53. *)
Theorem serve_stores_chunks_of_the_document (req : Request) (ext : Externals)
    (st : State) :
  exists resp st' new,
    serve req ext st = (Returned resp, st') /\
    document_chunks st' = document_chunks st ++ new /\
    chat_messages st' = chat_messages st /\ timeouts st' = timeouts st /\
    gemini_calls st' = gemini_calls st /\ openai_calls st' = openai_calls st /\
    (new = [] /\ embedding_calls st' = embedding_calls st \/
     exists documentId document totalPages extracted,
       body req = Some documentId /\
       filter (fun d => doc_id d = documentId) (documents st) = [document] /\
       storage ext (file_path document) = Some (Pdf totalPages extracted) /\
       let cs := chunkText extracted 1000 200 in
       embedding_calls st' = (embedding_calls st + length cs)%nat /\
       (length new <= length cs)%nat /\
       StronglySorted (fun a b => chunk_index a < chunk_index b) new /\
       Forall (fun row =>
         document_id row = documentId /\
         chunk_user_id row = doc_user_id document /\
         is_Some (embedding row) /\
         exists k c,
           cs !! k = Some c /\ chunk_index row = Z.of_nat k /\
           chunk_content row = content c /\
           page_number row
           = page_of (startIndex c) (len extracted) totalPages /\
           (len extracted < 2 ^ 53 -> 1 <= totalPages < 2 ^ 53 ->
            1 <= page_number row <= totalPages)) new).
Proof.
  unfold serve. destruct (String.eqb (method req) "OPTIONS").
  { exists (mkResponse 200 NoContent), st, []. rewrite (right_id_L [] (++)).
    do 6 (split; [done|]). by left. }
  unfold try_catch.
  destruct (process req ext st) as [r st1] eqn:E.
  apply process_paths in E as (U & [[[e ->] S]|Hloop]).
  { rewrite (report_failure_used _ _ _ _ U).
    exists (mkResponse 500 (Failure (message e))), st1, [].
    rewrite (right_id_L [] (++)). split; [done|].
    destruct S as [-> | ->]; simpl; (do 5 (split; [done|]); by left). }
  destruct Hloop as (documentId & document & totalPages & extracted & st2
                     & Hb & Hu & Hf & Hs & Hlen & Hrun & Hend).
  destruct (process_chunks_rows documentId document ext
              (paged_chunks extracted totalPages) 0 (set_bodyUsed true st))
    as (st2' & new & E2 & K2 & C2 & D2 & L2 & R2 & S2).
  rewrite E2 in Hrun. injection Hrun as ->.
  destruct K2 as (Kg & Ko & Kr & Kt & Kb & Kd & Km).
  rewrite length_paged_chunks in *. simpl in *.
  assert (exists resp, (match r with
                        | Returned a => (Returned a, st1)
                        | Thrown e => report_failure req e ext st1
                        end) = (Returned resp, st1)) as [resp ->].
  { destruct r as [a|e]; [by eexists|].
    rewrite (report_failure_used _ _ _ _ U). by eexists. }
  exists resp, st1, new. split; [done|].
  assert (document_chunks st1 = document_chunks st2 /\
          chat_messages st1 = chat_messages st2 /\ timeouts st1 = timeouts st2 /\
          gemini_calls st1 = gemini_calls st2 /\
          openai_calls st1 = openai_calls st2 /\
          embedding_calls st1 = embedding_calls st2)
    as (-> & -> & -> & -> & -> & ->).
  { destruct Hend as [(e & _ & _ & ->)|(_ & _ & ->)]; done. }
  do 5 (split; [done|]). right.
  exists documentId, document, totalPages, extracted.
  do 3 (split; [done|]). cbv zeta. do 3 (split; [done|]).
  eapply Forall_impl; [exact R2|]. intros row (k & chunk & Hk & Hrow).
  destruct Hrow as (Hid & Huser & Hcontent & Hpage & Hindex & Hemb & _).
  apply lookup_paged_chunks in Hk as (c & Hc & Hpc & Hpg).
  do 3 (split; [done|]). exists k, c. split; [done|]. split; [lia|].
  split; [congruence|]. split; [congruence|].
  intros Hshort Hpages. rewrite Hpage, Hpg.
  apply list_elem_of_lookup_2, (chunk_span extracted 1000 200 c ltac:(lia))
    in Hc.
  pose proof (len_nonneg (content c)).
  apply page_of_range; lia.
Qed.

(** X19: when the document is found, downloaded and read, the key is
    configured, every request to the embedding endpoint is answered with
    an embedding and every insertion goes through, the ingestion
    function stores all the chunks of the text: as many new rows as
    chunks, the row at position [k] storing chunk [k] with index [k],
    the document and its owner, and the embedding the [k]-th request of
    this invocation was answered with. And it does not undo them: when
    the update of the document fails at the end, the response is the
    error with status 500, the table of documents is what it was, and
    the rows are stored all the same. *)
Theorem serve_stores_every_chunk (req : Request) (ext : Externals) (st : State)
    (documentId : string) (document : Document) (totalPages : Z)
    (extracted : text) :
  method req <> "OPTIONS" ->
  bodyUsed st = false ->
  body req = Some documentId ->
  db_fault ext SelectDocument = None ->
  filter (fun d => doc_id d = documentId) (documents st) = [document] ->
  db_fault ext DownloadFile = None ->
  storage ext (file_path document) = Some (Pdf totalPages extracted) ->
  10 <= len extracted ->
  configured (GOOGLE_GEMINI_API_KEY ext) = true ->
  (forall n, is_Some (embedded (embedding_endpoint ext n))) ->
  (forall j, db_fault ext (InsertChunk j) = None) ->
  let cs := chunkText extracted 1000 200 in
  exists resp st' new,
    serve req ext st = (Returned resp, st') /\
    document_chunks st' = document_chunks st ++ new /\
    length new = length cs /\
    (forall k c, cs !! k = Some c ->
       exists row,
         new !! k = Some row /\ chunk_index row = Z.of_nat k /\
         chunk_content row = content c /\ document_id row = documentId /\
         chunk_user_id row = doc_user_id document /\
         embedding row
         = embedded (embedding_endpoint ext (embedding_calls st + k))) /\
    (forall e, db_fault ext UpdateDocument = Some e ->
       resp = mkResponse 500 (Failure (message e)) /\
       documents st' = documents st).
Proof.
  intros Hm Hu Hb Hsel Hf Hdl Hs Hlen Hk Hembed Hdb cs.
  unfold serve. rewrite not_options by done.
  unfold try_catch, process.
  unfold bind at 1. rewrite Hb, req_json_fresh by done.
  unfold bind at 1, select_document, bind at 1, externals, bind at 1, get.
  rewrite Hsel. cbn [documents set_bodyUsed]. rewrite Hf.
  unfold ret at 1. unfold bind at 1, download, bind at 1, externals.
  rewrite Hdl, Hs. unfold ret at 1. unfold bind at 1, extract.
  unfold ret at 1. cbn [fst snd].
  rewrite bool_decide_eq_false_2 by lia.
  unfold bind at 1, externals. rewrite Hk. cbn [negb].
  unfold bind at 1.
  destruct (process_chunks_all documentId document ext
              (paged_chunks extracted totalPages) 0 (set_bodyUsed true st)
              Hembed Hdb)
    as (st2 & new & E2 & D2 & L2 & R2).
  destruct (process_chunks_rows documentId document ext
              (paged_chunks extracted totalPages) 0 (set_bodyUsed true st))
    as (st2' & new' & E2' & K2 & _).
  rewrite E2 in E2'. injection E2' as <-. rewrite E2.
  destruct K2 as (_ & _ & _ & _ & Kb & Kd & _). simpl in Kb, Kd.
  rewrite length_paged_chunks in *.
  assert (forall k c, cs !! k = Some c ->
            exists row,
              new !! k = Some row /\ chunk_index row = Z.of_nat k /\
              chunk_content row = content c /\ document_id row = documentId /\
              chunk_user_id row = doc_user_id document /\
              embedding row
              = embedded (embedding_endpoint ext (embedding_calls st + k)))
    as Hrows.
  { intros k c Hc.
    assert (exists chunk, paged_chunks extracted totalPages !! k = Some chunk
                          /\ p_content chunk = content c) as (chunk & Hk' & Hpc).
    { unfold paged_chunks. rewrite list_lookup_imap. fold cs. rewrite Hc.
      by eexists. }
    destruct (R2 k chunk Hk') as (row & Hrow & Hfor & Hv).
    destruct Hfor as (Hid & Huser & Hcontent & _ & Hindex & _).
    exists row. simpl in Hv. repeat split; try done; congruence. }
  unfold bind at 1, update_document, bind at 1, externals.
  destruct (db_fault ext UpdateDocument) as [e|] eqn:Eu.
  - unfold ret at 1. unfold throw at 1. cbv beta iota.
    rewrite (report_failure_used _ _ _ _ Kb).
    eexists _, st2, new. split; [done|]. simpl in D2.
    do 3 (split; [done|]). intros e' [= <-]. done.
  - unfold bind at 1, get. rewrite mark_completed_checked.
    unfold bind, modify, ret.
    eexists _, _, new. split; [done|]. simpl in D2.
    cbn [document_chunks set_documents]. by do 3 (split; [done|]).
Qed.

Lemma serve_stores_every_chunk_witness :
  exists resp st' new,
    serve upload embedding_world (fresh [pending_document])
    = (Returned resp, st') /\
    document_chunks st' = document_chunks (fresh [pending_document]) ++ new /\
    length new = length (chunkText split_example 1000 200) /\
    (forall k c, chunkText split_example 1000 200 !! k = Some c ->
       exists row,
         new !! k = Some row /\ chunk_index row = Z.of_nat k /\
         chunk_content row = content c /\ document_id row = "d1" /\
         chunk_user_id row = doc_user_id pending_document /\
         embedding row
         = embedded (embedding_endpoint embedding_world
                       (embedding_calls (fresh [pending_document]) + k))) /\
    (forall e, db_fault embedding_world UpdateDocument = Some e ->
       resp = mkResponse 500 (Failure (message e)) /\
       documents st' = documents (fresh [pending_document])).
Proof.
  apply (serve_stores_every_chunk upload embedding_world
           (fresh [pending_document]) "d1" pending_document 3 split_example);
    first [reflexivity | discriminate | by vm_compute
          | intros n; by eexists ].
Defined.



(** X20: the ingestion function touches one document at most. Whatever
    the request and however it ends, the table of documents keeps its
    rows and their ids; a row whose id is not the [documentId] of the
    request is left as it is; a table that satisfies the constraint on
    [status] still does; and a row that is not as before is the
    requested document marked [completed], with its owner, name and file
    path unchanged. *)
Theorem serve_touches_one_document (req : Request) (ext : Externals)
    (st st' : State) (r : Outcome Response) :
  serve req ext st = (r, st') ->
  map doc_id (documents st') = map doc_id (documents st) /\
  (forall d, d ∈ documents st ->
     Some (doc_id d) <> body req -> d ∈ documents st') /\
  (Forall (fun d => check_status d = true) (documents st) ->
   Forall (fun d => check_status d = true) (documents st')) /\
  (forall d', d' ∈ documents st' ->
     d' ∈ documents st \/
     doc_status d' = "completed" /\ Some (doc_id d') = body req /\
     exists d, d ∈ documents st /\ doc_id d = doc_id d' /\
               doc_user_id d = doc_user_id d' /\ doc_name d = doc_name d' /\
               file_path d = file_path d').
Proof.
  unfold serve. destruct (String.eqb (method req) "OPTIONS").
  { intros [= _ <-]. repeat split; try done. by left. }
  unfold try_catch. destruct (process req ext st) as [r1 st1] eqn:E.
  apply process_paths in E as (U & Hpaths).
  intros Hserve.
  assert (documents st' = documents st1) as ->.
  { destruct r1 as [a|e]; [by injection Hserve as _ <-|].
    rewrite (report_failure_used _ _ _ _ U) in Hserve.
    by injection Hserve as _ <-. }
  clear Hserve.
  destruct Hpaths as [[_ [-> | ->]]|Hloop]; [by repeat split; try done; left..|].
  destruct Hloop as (documentId & document & totalPages & extracted & st2
                     & Hb & Hu & Hf & Hs & Hlen & Hrun & Hend).
  destruct (process_chunks_rows documentId document ext
              (paged_chunks extracted totalPages) 0 (set_bodyUsed true st))
    as (st2' & new & E2 & K2 & _).
  rewrite E2 in Hrun. injection Hrun as ->.
  destruct K2 as (_ & _ & _ & _ & _ & Kd & _). simpl in Kd.
  destruct Hend as [(e & _ & _ & ->)|(_ & _ & ->)].
  { rewrite Kd. repeat split; try done. by left. }
  cbn [documents set_documents]. rewrite Kd.
  set (n := Z.of_nat _). split; [by apply updated_ids|].
  split; [|split].
  - intros d Hd Hother. unfold updated. apply list_elem_of_fmap.
    exists d. split; [|done]. rewrite bool_decide_eq_false_2; [done|].
    intros Hid. apply Hother. by rewrite Hb, Hid.
  - intros Hall. unfold updated. apply Forall_fmap.
    eapply Forall_impl; [exact Hall|]. intros d Hd. simpl.
    by case_bool_decide.
  - intros d' (d & -> & Hd)%list_elem_of_fmap.
    case_bool_decide as Hid; [|by left]. right.
    split; [done|]. split; [by rewrite Hb, <- Hid|]. by exists d.
Qed.

Lemma serve_touches_one_document_witness :
  exists r st',
    serve upload partial_ingest_world (fresh [pending_document]) = (r, st') /\
    map doc_id (documents st') = map doc_id (documents (fresh [pending_document])).
Proof.
  eassert (serve upload partial_ingest_world (fresh [pending_document])
           = (_, _)) as E by (vm_compute; reflexivity).
  eexists _, _. split; [exact E|].
  exact (proj1 (serve_touches_one_document _ _ _ _ _ E)).
Defined.

End ingestion_theorems.


(* ===================================================================== *)
(** * 21. Properties of the chunker of the batch version *)
(* ===================================================================== *)

Section batch_chunker.
Import BatchProcessDocument.

Lemma split_terminal_pieces piece in_sep s p :
  Forall (fun c => is_terminal c = false) piece ->
  p ∈ split_terminal_from piece in_sep s ->
  Forall (fun c => is_terminal c = false) p.
Proof.
  revert piece in_sep.
  induction s as [|c s IH]; intros piece in_sep Hpiece; simpl.
  - by intros ->%list_elem_of_singleton.
  - destruct (is_terminal c) eqn:Ec.
    + destruct in_sep.
      * apply IH. constructor.
      * intros [->|Hp]%elem_of_cons; [done|]. revert Hp. apply IH. constructor.
    + apply IH. apply Forall_app. split; [done|]. by constructor.
Qed.

Lemma sentences_no_terminal t s :
  s ∈ sentences t -> Forall (fun c => is_terminal c = false) s.
Proof.
  intros [_ Hs]%list_elem_of_filter. revert Hs.
  apply split_terminal_pieces. constructor.
Qed.

Lemma only_full_stops_sentence s :
  Forall (fun c => is_terminal c = false) s -> only_full_stops s.
Proof.
  intros H. eapply Forall_impl; [exact H|]. intros c Hc. by rewrite Hc.
Qed.

(** The chunk cut from a [currentChunk] that ends with a full stop and a
    space. *)
Lemma trim_stopped z :
  trim (z ++ [FULL_STOP; SPACE]) = trimStart (z ++ [FULL_STOP]).
Proof.
  assert (ends_nonws (z ++ [FULL_STOP])) as He by (by exists z, FULL_STOP).
  change (z ++ [FULL_STOP; SPACE]) with (z ++ [FULL_STOP] ++ [SPACE]).
  rewrite (assoc_L (++)). unfold trim.
  rewrite trimStart_app_nonws by done.
  rewrite trimEnd_snoc_ws by done.
  apply trimEnd_ends_nonws. by apply trimStart_ends_nonws.
Qed.

Lemma chunk_of_stopped z :
  only_full_stops z -> full_stopped (trim (z ++ [FULL_STOP; SPACE])).
Proof.
  intros Hz. split; [|split].
  - rewrite trim_stopped.
    assert (ends_nonws (z ++ [FULL_STOP])) as He by (by exists z, FULL_STOP).
    destruct (trimStart_suffix (z ++ [FULL_STOP])) as [w Hw].
    apply trimStart_ends_nonws in He as (y & c & Hy & _).
    rewrite Hy in *. rewrite (assoc_L (++)) in Hw.
    apply app_inj_tail in Hw as [_ <-]. by rewrite last_snoc.
  - rewrite trim_stopped.
    destruct (trimStart_suffix (z ++ [FULL_STOP])) as [w Hw].
    assert (only_full_stops (z ++ [FULL_STOP])) as Hall.
    { apply Forall_app. split; [done|]. by constructor. }
    rewrite Hw in Hall. by apply Forall_app in Hall as [_ ?].
  - apply trim_idemp.
Qed.

Lemma batch_chunk_step_stopped m st s :
  Forall (fun c => is_terminal c = false) s ->
  stopped (snd st) -> Forall full_stopped (fst st) ->
  stopped (snd (chunk_step m st s)) /\
  Forall full_stopped (fst (chunk_step m st s)).
Proof.
  intros Hs%only_full_stops_sentence Hcur Hchunks. unfold chunk_step.
  case_bool_decide as Hpush; simpl.
  - split.
    + right. by exists s.
    + apply Forall_app. split; [done|]. constructor; [|constructor].
      destruct Hcur as [E|(z & -> & Hz)].
      * destruct Hpush as [_ Hpos]. rewrite E in Hpos.
        by apply len_nil_not_pos in Hpos.
      * by apply chunk_of_stopped.
  - split; [|done]. right. exists (snd st ++ s). split.
    + by rewrite <- (assoc_L (++)).
    + apply Forall_app. split; [|done].
      destruct Hcur as [->|(z & -> & Hz)]; [constructor|].
      apply Forall_app. split; [done|]. constructor; [done|].
      constructor; [|constructor]. intros [=].
Qed.

Lemma batch_fold_stopped m ss st :
  Forall (fun s => Forall (fun c => is_terminal c = false) s) ss ->
  stopped (snd st) -> Forall full_stopped (fst st) ->
  stopped (snd (fold_left (chunk_step m) ss st)) /\
  Forall full_stopped (fst (fold_left (chunk_step m) ss st)).
Proof.
  intros Hss. revert st. induction Hss as [|s ss Hs Hss IH]; intros st Hcur Hch.
  - done.
  - simpl. destruct (batch_chunk_step_stopped m st s Hs Hcur Hch). by apply IH.
Qed.

(** X23: the chunker of the batch version rewrites the punctuation. Every
    chunk it returns ends with a full stop; the only sentence-terminal
    punctuation in a chunk is the full stop, so the question marks and
    exclamation marks of the text are lost; and a chunk has no white
    space at either end. *)
Theorem batch_chunkText_full_stops (t : text) (maxTokens : Z) (c : text) :
  c ∈ chunkText t maxTokens ->
  last c = Some FULL_STOP /\
  Forall (fun u => is_terminal u = true -> u = FULL_STOP) c /\
  trim c = c.
Proof.
  unfold chunkText.
  destruct (batch_fold_stopped maxTokens (sentences t) ([], []))
    as [Hcur Hchunks].
  { apply Forall_forall. intros s. apply sentences_no_terminal. }
  { by left. }
  { constructor. }
  set (st := fold_left _ _ _) in *. clearbody st.
  assert (forall c, c ∈ fst st -> full_stopped c) as Hin
    by (by apply Forall_forall).
  case_bool_decide as Hlast; [|apply Hin].
  intros [Hc| ->%list_elem_of_singleton]%elem_of_app; [by apply Hin|].
  destruct Hcur as [E|(z & E & Hz)].
  - rewrite E in Hlast. by apply len_nil_not_pos in Hlast.
  - rewrite E. by apply chunk_of_stopped.
Qed.

Lemma batch_chunkText_full_stops_witness :
  last (str "Why.") = Some FULL_STOP /\
  Forall (fun u => is_terminal u = true -> u = FULL_STOP) (str "Why.") /\
  trim (str "Why.") = str "Why.".
Proof.
  apply (batch_chunkText_full_stops three_sentences 5 (str "Why.")).
  vm_compute. right. left.
Defined.

End batch_chunker.
